(** * markdown_image_downloader: a shallow embedding and its properties

    The development follows [src/markdown_image_downloader.py], one
    section per method of [MarkdownImageDownloader]:

    - Python strings ([str]) are lists of characters; the regular
      expressions of the program are values of a small pattern type and are
      run by a greedy backtracking matcher, as [re] does;
    - the libraries the program calls ([hashlib], [urllib], [os.path],
      [PIL], the text codec of [open]) are an interface, class [PyLib];
    - the network, the disk and the scheduling of the threads are an
      interface as well, class [Outside]; the file system and the trace of
      observable events are an explicit state, [World], threaded through
      the effectful methods;
    - the thread pool is a list of threads that take their steps (the test
      for the file, the request, the write) in the order that [Outside]
      gives.

    The characters of a text are the code points below 256; [\w] and
    [str.lower] are the ones of Python on these code points. *)

From Stdlib Require Import ZArith Ascii String List Lia Permutation.
From stdpp Require Import gmap strings list fin_maps.
From Equations Require Import Equations.
Import ListNotations.
Open Scope Z_scope.

(** ** Python strings *)

Definition str := list ascii.

(** String literals: [L "abc"] is the Python literal ['abc']. *)
Definition L (s : string) : str := list_ascii_of_string s.

Definition chr_eqb (a b : ascii) : bool := Ascii.eqb a b.

Fixpoint str_eqb (a b : str) : bool :=
  match a, b with
  | [], [] => true
  | x :: a', y :: b' => chr_eqb x y && str_eqb a' b'
  | _, _ => false
  end.

(** [c in s] for a character [c]. *)
Definition chr_in (c : ascii) (s : str) : bool := existsb (chr_eqb c) s.

(** [s.startswith(p)] *)
Fixpoint startswith (p s : str) : bool :=
  match p, s with
  | [], _ => true
  | x :: p', y :: s' => chr_eqb x y && startswith p' s'
  | _ :: _, [] => false
  end.

(** [sub in s] for a substring [sub]. *)
Fixpoint contains (sub s : str) : bool :=
  startswith sub s ||
  match s with
  | [] => false
  | _ :: s' => contains sub s'
  end.

(** [s.lower()]: the capital letters below 256 are A to Z and the accented
    capitals from 192 to 222, but for the multiplication sign at 215. *)
Definition chr_lower (c : ascii) : ascii :=
  let n := nat_of_ascii c in
  if ((65 <=? n) && (n <=? 90) ||
      (192 <=? n) && (n <=? 214) || (216 <=? n) && (n <=? 222))%nat
  then ascii_of_nat (n + 32) else c.

Definition lower (s : str) : str := map chr_lower s.

(** [sep.join(parts)] *)
Fixpoint join (sep : str) (parts : list str) : str :=
  match parts with
  | [] => []
  | [p] => p
  | p :: ps => p ++ sep ++ join sep ps
  end.

(** [s.replace(old, new)]: every non-overlapping occurrence, left to right.
    [skip] counts the characters of an occurrence still to be dropped.  The
    program never calls it with an empty [old]. *)
Fixpoint replace_from (old new : str) (skip : nat) (s : str) : str :=
  match s with
  | [] => []
  | c :: s' =>
      match skip with
      | S k => replace_from old new k s'
      | O =>
          if startswith old s
          then new ++ replace_from old new (length old - 1) s'
          else c :: replace_from old new O s'
      end
  end.

Definition replace (old new s : str) : str := replace_from old new O s.

(** ** Regular expressions

    The patterns of the program are sequences of single-character classes,
    possibly repeated with [*] or [+] and possibly captured.  [match_here]
    is the backtracking matcher of [re]: a repetition takes as many
    characters as it can and gives them back one at a time while the rest
    of the pattern fails. *)

Inductive item :=
| One (p : ascii -> bool)
| Many (capture : bool) (min : nat) (p : ascii -> bool).

Definition pattern := list item.

(** Result of a match: the captured groups, in order, and the unread input. *)
Definition match_result : Type := list str * str.

Fixpoint greedy (p : ascii -> bool) (min : nat) (capture : bool)
    (k : str -> option match_result) (taken s : str) : option match_result :=
  match
    match s with
    | c :: s' => if p c then greedy p min capture k (taken ++ [c]) s' else None
    | [] => None
    end
  with
  | Some r => Some r
  | None =>
      if (min <=? length taken)%nat
      then match k s with
           | Some (gs, rest) => Some (if capture then taken :: gs else gs, rest)
           | None => None
           end
      else None
  end.

Fixpoint match_here (re : pattern) (s : str) : option match_result :=
  match re with
  | [] => Some ([], s)
  | One p :: re' =>
      match s with
      | c :: s' => if p c then match_here re' s' else None
      | [] => None
      end
  | Many capture min p :: re' => greedy p min capture (match_here re') [] s
  end.

(** [re.match(re, s)]: the groups of a match anchored at the start. *)
Definition re_match (re : pattern) (s : str) : option (list str) :=
  fst <$> match_here re s.

(** [re.search(re, s)]: [group(0)] and the groups of the leftmost match. *)
Fixpoint re_search (re : pattern) (s : str) : option (str * list str) :=
  match match_here re s with
  | Some (gs, rest) => Some (take (length s - length rest) s, gs)
  | None =>
      match s with
      | [] => None
      | _ :: s' => re_search re s'
      end
  end.

(** [re.findall(re, s)]: the groups of every match, scanning left to right
    and resuming after each match.  Every pattern of the program consumes
    at least one character, so the rule of [re] for empty matches is not
    needed: a match is taken to be at least one character long. *)
Fixpoint findall_from (re : pattern) (skip : nat) (s : str) : list (list str) :=
  match s with
  | [] => []
  | _ :: s' =>
      match skip with
      | S k => findall_from re k s'
      | O =>
          match match_here re s with
          | Some (gs, rest) =>
              gs :: findall_from re (length s - length rest - 1) s'
          | None => findall_from re O s'
          end
      end
  end.

Definition findall (re : pattern) (s : str) : list (list str) :=
  findall_from re O s.

(** Character classes. *)
Definition chr_is (c : ascii) : ascii -> bool := chr_eqb c.
Definition none_of (s : string) : ascii -> bool := fun c => negb (chr_in c (L s)).
Definition one_of (s : string) : ascii -> bool := fun c => chr_in c (L s).

(** [\w]: the underscore and the alphanumeric characters, which below 256
    are the digits, the letters, and among the code points from 128 on the
    ordinal indicators, the superscript digits, the micro sign, the
    fractions and the accented letters. *)
Definition is_word (c : ascii) : bool :=
  let n := nat_of_ascii c in
  ((48 <=? n) && (n <=? 57) || (65 <=? n) && (n <=? 90) ||
   (97 <=? n) && (n <=? 122) || (n =? 95) ||
   (n =? 170) || (178 <=? n) && (n <=? 179) || (n =? 181) ||
   (185 <=? n) && (n <=? 186) || (188 <=? n) && (n <=? 190) ||
   (192 <=? n) && (n <=? 214) || (216 <=? n) && (n <=? 246) ||
   (248 <=? n) && (n <=? 255))%nat.

(** A literal piece of a pattern (also what [re.escape] yields). *)
Definition lit (s : str) : pattern := map (fun c => One (chr_is c)) s.

Definition dquote : ascii := ascii_of_nat 34.
Definition squote : ascii := ascii_of_nat 39.
Definition is_quote (c : ascii) : bool := chr_eqb c dquote || chr_eqb c squote.
Definition is_value_char (c : ascii) : bool :=
  negb (is_quote c || chr_eqb c ">"%char).

(** [pattern1] of [extract_image_urls]: an exclamation mark, the alt text
    between square brackets (group 1, any characters but the closing
    bracket, possibly none), the url between parentheses (group 2, one or
    more characters other than the closing parenthesis). *)
Definition pattern1 : pattern :=
  [One (chr_is "!"); One (chr_is "["); Many true 0 (none_of "]"); One (chr_is "]");
   One (chr_is "("); Many true 1 (none_of ")"); One (chr_is ")")].

(** [pattern2] of [extract_image_urls]: the text <img, one or more characters
    other than >, the text src=, a quote of either kind, the url (group 1,
    one or more characters that are neither quotes nor >), a quote of either
    kind, any characters other than >, and >. *)
Definition pattern2 : pattern :=
  lit (L "<img") ++ [Many false 1 (none_of ">")] ++ lit (L "src=") ++
  [One is_quote; Many true 1 is_value_char; One is_quote;
   Many false 0 (none_of ">"); One (chr_is ">")].

(** [img_tag_pattern]: [pattern2] with the escaped url in place of group 1. *)
Definition img_tag_pattern (url : str) : pattern :=
  lit (L "<img") ++ [Many false 1 (none_of ">")] ++ lit (L "src=") ++
  [One is_quote] ++ lit url ++
  [One is_quote; Many false 0 (none_of ">"); One (chr_is ">")].

(** The pattern of [alt_match]: [pattern1] without its second group. *)
Definition alt_pattern : pattern :=
  [One (chr_is "!"); One (chr_is "["); Many true 0 (none_of "]"); One (chr_is "]");
   One (chr_is "("); Many false 1 (none_of ")"); One (chr_is ")")].

(** The pattern of [img_attrs]: one or more word characters (group 1), the
    equals sign, a quote of either kind, one or more characters that are
    neither quotes nor > (group 2), a quote of either kind. *)
Definition attr_pattern : pattern :=
  [Many true 1 is_word; One (chr_is "="); One is_quote;
   Many true 1 is_value_char; One is_quote].

(** ** extract_image_urls *)

Definition is_remote (url : str) : bool :=
  startswith (L "http://") url || startswith (L "https://") url.

Definition extract_image_urls (content : str) : list (str * str) :=
  let matches1 := findall pattern1 content in
  let urls1 :=
    flat_map (fun m =>
      match m with
      | [alt; url] =>
          if is_remote url
          then [(url, L "![" ++ alt ++ L "](" ++ url ++ L ")")]
          else []
      | _ => []
      end) matches1 in
  let matches2 := findall pattern2 content in
  let urls2 :=
    flat_map (fun m =>
      match m with
      | [url] =>
          if is_remote url
          then match re_search (img_tag_pattern url) content with
               | Some (group0, _) => [(url, group0)]
               | None => []
               end
          else []
      | _ => []
      end) matches2 in
  urls1 ++ urls2.

(** ** Dictionaries

    A Python [dict] keeps its keys in insertion order, and assigning to a key
    that is already present keeps the key where it is.  Both loops over
    [items()] in the program depend on that order, so a dictionary is an
    association list without duplicate keys. *)

Definition dict (V : Type) := list (str * V).

Fixpoint dict_set {V : Type} (k : str) (v : V) (d : dict V) : dict V :=
  match d with
  | [] => [(k, v)]
  | (k', v') :: d' =>
      if str_eqb k' k then (k', v) :: d' else (k', v') :: dict_set k v d'
  end.

(** [dict(pairs)] *)
Definition dict_of {V : Type} (pairs : list (str * V)) : dict V :=
  fold_left (fun d kv => dict_set (fst kv) (snd kv) d) pairs [].

(** ** The rewrite of one reference (the body of the loop over
    [url_replacements.items()] in [process_markdown_file]) *)

Definition as_pair (m : list str) : list (str * str) :=
  match m with
  | [a; b] => [(a, b)]
  | _ => []
  end.

(** [f'{attr}="{value}"'] *)
Definition render_attr (attr value : str) : str :=
  attr ++ L "=" ++ [dquote] ++ value ++ [dquote].

(** The new text of the tag form. *)
Definition new_img_tag (original_text local_path : str) : str :=
  let img_attrs := flat_map as_pair (findall attr_pattern original_text) in
  let attrs_dict := dict_of img_attrs in
  let new_attrs :=
    render_attr (L "src") local_path ::
    flat_map (fun av =>
      if negb (str_eqb (lower (fst av)) (L "src"))
      then [render_attr (fst av) (snd av)]
      else []) attrs_dict in
  L "<img " ++ join (L " ") new_attrs ++ L ">".

(** The new text of a reference, [None] when the bracket form does not match
    again and the reference is left alone. *)
Definition new_text_for (original_text local_path : str) : option str :=
  if startswith (L "![") original_text
  then match re_match alt_pattern original_text with
       | Some [alt_text] => Some (L "![" ++ alt_text ++ L "](" ++ local_path ++ L ")")
       | _ => None
       end
  else Some (new_img_tag original_text local_path).

Definition apply_replacement (updated_content : str) (entry : str * str) : str :=
  match new_text_for (fst entry) (snd entry) with
  | Some new_text => replace (fst entry) new_text updated_content
  | None => updated_content
  end.

Definition rewrite (content : str) (url_replacements : dict str) : str :=
  fold_left apply_replacement url_replacements content.

(** ** The libraries *)

Definition bytes := list Byte.byte.

Definition is_hex_digit (c : ascii) : bool :=
  let n := nat_of_ascii c in
  ((48 <=? n) && (n <=? 57) || (97 <=? n) && (n <=? 102))%nat.

Class PyLib := {
  (** [hashlib.md5(url.encode()).hexdigest()]: 32 lowercase hex digits *)
  md5_hexdigest : str -> str;
  md5_hexdigest_length : forall s, length (md5_hexdigest s) = 32%nat;
  md5_hexdigest_hex : forall s, forallb is_hex_digit (md5_hexdigest s) = true;
  (** [unquote(urlparse(url).path)], and whether [urlparse(url)] returns at
      all: it raises [ValueError] on some urls *)
  url_path : str -> str;
  urlparse_ok : str -> bool;
  (** The codec of a text file opened with [encoding='utf-8'].
      [decode_text] is what [f.read()] makes of the bytes of the file:
      UTF-8 decoding, with every line end turned into a newline; [None] is
      [UnicodeDecodeError].  [encode_text] is what [f.write(text)] puts in
      the file: the newlines as the platform writes them, UTF-8 encoding;
      [None] is [UnicodeEncodeError]. *)
  decode_text : bytes -> option str;
  encode_text : str -> option bytes;
  (** [os.path.basename] and [os.path.splitext]; the two parts that
      [splitext] returns always add up to its argument *)
  basename : str -> str;
  splitext : str -> str * str;
  splitext_join : forall p, fst (splitext p) ++ snd (splitext p) = p;
  (** [PIL.Image]: [Image.open], the test [img.mode == 'RGBA'], the paste of
      an image on a white background through its alpha channel, and
      [img.save(output, format='JPEG', quality=q, optimize=True)] followed by
      [output.getvalue()].  [None] is a raised exception. *)
  Image : Type;
  Image_open : bytes -> option Image;
  mode_is_RGBA : Image -> bool;
  paste_on_white : Image -> option Image;
  save_jpeg : Image -> Z -> option bytes;
}.

(** [range(start, stop, step)] for a negative [step]. *)
Definition range_down (start stop step : Z) : list Z :=
  let n := Z.to_nat ((start - stop + (- step) - 1) / (- step)) in
  map (fun k => start + Z.of_nat k * step) (seq 0 n).

Section Names.
Context `{PyLib}.

(** *** sanitize_filename *)

Definition illegal_chars : str := L "<>:" ++ [dquote] ++ L "/\|?*".

Definition replace_chr (char : ascii) (filename : str) : str :=
  map (fun c => if chr_eqb c char then "_"%char else c) filename.

Definition sanitize_filename (filename : str) : str :=
  let filename := fold_left (fun f char => replace_chr char f) illegal_chars filename in
  if (100 <? length filename)%nat
  then let '(name, ext) := splitext filename in take 95 name ++ ext
  else filename.

(** *** get_image_extension *)

Definition image_exts : list str :=
  [L ".jpg"; L ".jpeg"; L ".png"; L ".gif"; L ".bmp"; L ".webp"; L ".svg"].

Definition is_image_ext (ext : str) : bool := existsb (str_eqb ext) image_exts.

Definition get_image_extension (url : str) (content_type : option str) : str :=
  let path := url_path url in
  let '(_, ext) := splitext path in
  if is_image_ext (lower ext) then lower ext
  else
    match content_type with
    | Some ((_ :: _) as ct) =>
        if contains (L "jpeg") ct || contains (L "jpg") ct then L ".jpg"
        else if contains (L "png") ct then L ".png"
        else if contains (L "gif") ct then L ".gif"
        else if contains (L "webp") ct then L ".webp"
        else if contains (L "svg") ct then L ".svg"
        else L ".jpg"
    | _ => L ".jpg"
    end.

(** *** generate_filename *)

Definition generate_filename (url : str) (content_type : option str) : str :=
  let url_hash := take 12 (md5_hexdigest url) in
  let original_name := basename (url_path url) in
  let fallback :=
    L "image_" ++ url_hash ++ get_image_extension url content_type in
  match original_name with
  | _ :: _ =>
      if chr_in "."%char original_name
      then
        let '(name, ext) := splitext original_name in
        let name := take 20 (sanitize_filename name) in
        if is_image_ext (lower ext)
        then name ++ L "_" ++ url_hash ++ lower ext
        else fallback
      else fallback
  | [] => fallback
  end.

(** *** compress_image *)

(** The loop over the quality levels: [Some (Some data)] is the [return]
    inside the loop, [Some None] the end of the loop, [None] an exception. *)
Fixpoint try_qualities (img : Image) (limit : Z) (qualities : list Z)
    : option (option bytes) :=
  match qualities with
  | [] => Some None
  | quality :: rest =>
      match save_jpeg img quality with
      | None => None
      | Some compressed_data =>
          if Z.of_nat (length compressed_data) <=? limit
          then Some (Some compressed_data)
          else try_qualities img limit rest
      end
  end.

(** The conversion of RGBA to RGB. *)
Definition flatten_alpha (img : Image) : option Image :=
  if mode_is_RGBA img then paste_on_white img else Some img.

(** The body of the [try]; [None] is an exception. *)
Definition compress_image_try (image_data : bytes) (max_size_kb : Z) : option bytes :=
  if Z.of_nat (length image_data) <=? max_size_kb * 1024 then Some image_data
  else
    img ← Image_open image_data;
    img ← flatten_alpha img;
    found ← try_qualities img (max_size_kb * 1024) (range_down 85 20 (-5));
    match found with
    | Some compressed_data => Some compressed_data
    | None => save_jpeg img 20
    end.

Definition compress_image (image_data : bytes) (max_size_kb : Z) : bytes :=
  match compress_image_try image_data max_size_kb with
  | Some data => data
  | None => image_data
  end.

End Names.

(** ** The world outside the program *)

(** A [pathlib.Path] is the list of its components. *)
Definition Path := list str.

Definition parent (p : Path) : Path := removelast p.
Definition path_name (p : Path) : str := List.last p [].
Definition path_join (p : Path) (name : str) : Path := p ++ [name].

(** What the program does that can be seen from outside, oldest first:
    [time.sleep] (in milliseconds), [session.get], and the opening of a file
    for writing (which truncates it). *)
Inductive Event :=
| Sleep (ms : Z)
| Get (url : str)
| Open (p : Path).

Record World := {
  files : gmap Path bytes;
  dirs : gset Path;
  trace : list Event;
}.

Record Response := {
  status_code : Z;
  content : bytes;
  content_type_header : option str;
}.

Inductive NetResult :=
| NetError
| Reply (r : Response).

Inductive DiskResult :=
| DiskOk
| OpenFails
| WriteFails (written : nat).

(** The answers of the network and of the disk, the order in which the
    thread pool hands back its futures, and the order in which its threads
    take their steps: [interleaving] lists the threads by their number, one
    entry for each step, and the threads that have not returned when the
    list ends go on one after the other.  An answer may depend on
    everything that happened before it, through the number of events so
    far. *)
Class Outside := {
  session_get : nat -> str -> NetResult;
  disk_write : nat -> Path -> DiskResult;
  as_completed : nat -> list nat;
  as_completed_perm : forall n, Permutation (as_completed n) (seq 0 n);
  interleaving : nat -> list nat;
}.

Definition emit (e : Event) (w : World) : World :=
  {| files := files w; dirs := dirs w; trace := trace w ++ [e] |}.

Definition moment (w : World) : nat := length (trace w).

Definition is_file (w : World) (p : Path) : bool :=
  bool_decide (is_Some (files w !! p)).

Definition is_dir (w : World) (p : Path) : bool :=
  match p with
  | [] => true
  | _ => bool_decide (p ∈ dirs w)
  end.

(** [p.exists()] *)
Definition path_exists (w : World) (p : Path) : bool := is_file w p || is_dir w p.

Definition add_dir (p : Path) (w : World) : World :=
  {| files := files w; dirs := {[p]} ∪ dirs w; trace := trace w |}.

Definition put_file (p : Path) (data : bytes) (w : World) : World :=
  {| files := <[p := data]> (files w); dirs := dirs w; trace := trace w |}.

(** [p.mkdir(exist_ok=True)]; [None] is an exception. *)
Definition mkdir (p : Path) (w : World) : option World :=
  if is_dir w p then Some w
  else if is_file w p then None
  else if is_dir w (parent p) then Some (add_dir p w)
  else None.

(** [p.mkdir(parents=True, exist_ok=True)], on the reversed path: the
    missing ancestors are made first. *)
Fixpoint mkdir_parents_rev (rp : list str) (w : World) : option World :=
  match rp with
  | [] => Some w
  | _ :: rp' =>
      if is_dir w (rev rp) then Some w
      else if is_file w (rev rp) then None
      else w' ← mkdir_parents_rev rp' w;
           (if is_dir w' (rev rp') then Some (add_dir (rev rp) w') else None)
  end.

Definition mkdir_parents (p : Path) (w : World) : option World :=
  mkdir_parents_rev (rev p) w.

(** [with open(p, 'wb') as f: f.write(data)]: the flag says whether the
    statement completed. *)
Definition write_file `{Outside} (p : Path) (data : bytes) (w : World) : bool * World :=
  if is_dir w p || negb (is_dir w (parent p)) then (false, w)
  else
    match disk_write (moment w) p with
    | OpenFails => (false, w)
    | DiskOk => (true, put_file p data (emit (Open p) w))
    | WriteFails written => (false, put_file p (take written data) (emit (Open p) w))
    end.

(** [with open(p, 'r', encoding='utf-8') as f: f.read()]; [None] is an
    exception: no such file, or bytes that are not UTF-8. *)
Definition read_file `{PyLib} (w : World) (p : Path) : option str :=
  files w !! p ≫= decode_text.

(** ** download_image *)

Record MarkdownImageDownloader := {
  root_folder : Path;
  max_workers : Z;
  max_retries : Z;
}.

Section Fetcher.
Context `{PyLib} `{Outside}.
Variable self : MarkdownImageDownloader.

(** [response.raise_for_status()] raises on the 4xx and 5xx codes. *)
Definition raise_for_status (r : Response) : bool :=
  (400 <=? status_code r) && (status_code r <? 600).

(** [response.headers.get('content-type', '')] *)
Definition content_type_of (r : Response) : str :=
  match content_type_header r with
  | Some ct => ct
  | None => []
  end.

(** What is written for a reply. *)
Definition stored_data (r : Response) : bytes :=
  if negb (contains (L "svg") (lower (content_type_of r)))
  then compress_image (content r) 500
  else content r.

(** The body of the [try] of one call: [Some b] is [return b], [None] an
    exception. *)
Definition download_try (url : str) (save_path : Path) (w : World)
    : option bool * World :=
  if path_exists w save_path then (Some true, w)
  else
    let w := emit (Sleep 500) w in
    let answer := session_get (moment w) url in
    let w := emit (Get url) w in
    match answer with
    | NetError => (None, w)
    | Reply response =>
        if raise_for_status response then (None, w)
        else if (length (content response) <? 100)%nat then (None, w)
        else
          match mkdir_parents (parent save_path) w with
          | None => (None, w)
          | Some w =>
              match write_file save_path (stored_data response) w with
              | (true, w) => (Some true, w)
              | (false, w) => (None, w)
              end
          end
    end.

Equations? download_image (url : str) (save_path : Path) (retries : nat)
    (w : World) : bool * World
    by wf (Z.to_nat (max_retries self - Z.of_nat retries)) lt :=
  download_image url save_path retries w with download_try url save_path w := {
    | (Some result, w') := (result, w');
    | (None, w') with Z_lt_dec (Z.of_nat retries) (max_retries self) := {
        | left _ :=
            download_image url save_path (S retries)
              (emit (Sleep (1000 * 2 ^ Z.of_nat retries)) w');
        | right _ := (false, w') } }.
Proof. lia. Qed.

End Fetcher.

(** ** The thread pool

    [ThreadPoolExecutor] runs every submitted call of [download_image] in
    a thread of its own, at most [max_workers] of them at a time, taken in
    the order of submission.  A thread is at one of the places of
    [download_image] where another thread can come in between: before the
    test for the file, before the request, before the write. *)

(** A value of [future_to_url]: [(url, original_text, local_path)]. *)
Record Task := {
  task_url : str;
  task_original_text : str;
  task_local_path : Path;
}.

Inductive phase :=
| Queued
| Checking (retries : nat)
| Requesting (retries : nat)
| Storing (retries : nat) (image_data : bytes)
| Finished (success : bool).

Definition is_queued (ph : phase) : bool :=
  match ph with Queued => true | _ => false end.

Definition is_running (ph : phase) : bool :=
  match ph with Queued | Finished _ => false | _ => true end.

(** A thread of the pool: its task and where it is. *)
Abbreviation thread := (Task * phase)%type.

Section Pool.
Context `{PyLib} `{Outside}.
Variable self : MarkdownImageDownloader.

(** The body of the [try] after the test for the file, in two parts: from
    the sleep to the data to store, and from the making of the folder to
    the end of the write. *)
Definition download_request (url : str) (w : World) : option bytes * World :=
  let w := emit (Sleep 500) w in
  let answer := session_get (moment w) url in
  let w := emit (Get url) w in
  match answer with
  | NetError => (None, w)
  | Reply response =>
      if raise_for_status response then (None, w)
      else if (length (content response) <? 100)%nat then (None, w)
      else (Some (stored_data response), w)
  end.

Definition download_store (save_path : Path) (image_data : bytes) (w : World)
    : option bool * World :=
  match mkdir_parents (parent save_path) w with
  | None => (None, w)
  | Some w =>
      match write_file save_path image_data w with
      | (true, w) => (Some true, w)
      | (false, w) => (None, w)
      end
  end.

(** The handler of the exception, for a thread that goes on by steps. *)
Definition after_failure (retries : nat) (w : World) : phase * World :=
  if Z.of_nat retries <? max_retries self
  then (Checking (S retries), emit (Sleep (1000 * 2 ^ Z.of_nat retries)) w)
  else (Finished false, w).

(** One step of the thread of a task. *)
Definition thread_step (t : Task) (ph : phase) (w : World) : phase * World :=
  match ph with
  | Queued => (Checking 0, w)
  | Checking retries =>
      if path_exists w (task_local_path t) then (Finished true, w)
      else (Requesting retries, w)
  | Requesting retries =>
      match download_request (task_url t) w with
      | (Some image_data, w) => (Storing retries image_data, w)
      | (None, w) => after_failure retries w
      end
  | Storing retries image_data =>
      match download_store (task_local_path t) image_data w with
      | (Some success, w) => (Finished success, w)
      | (None, w) => after_failure retries w
      end
  | Finished success => (Finished success, w)
  end.

(** The handler of the exception, for a thread that goes on to its end. *)
Definition retry_or_stop (t : Task) (retries : nat) (w : World) : bool * World :=
  if Z.of_nat retries <? max_retries self
  then download_image self (task_url t) (task_local_path t) (S retries)
         (emit (Sleep (1000 * 2 ^ Z.of_nat retries)) w)
  else (false, w).

(** A thread that goes on to its end with no other thread in between. *)
Definition finish (t : Task) (ph : phase) (w : World) : bool * World :=
  match ph with
  | Queued => download_image self (task_url t) (task_local_path t) 0 w
  | Checking retries =>
      download_image self (task_url t) (task_local_path t) retries w
  | Requesting retries =>
      match download_request (task_url t) w with
      | (Some image_data, w) =>
          match download_store (task_local_path t) image_data w with
          | (Some success, w) => (success, w)
          | (None, w) => retry_or_stop t retries w
          end
      | (None, w) => retry_or_stop t retries w
      end
  | Storing retries image_data =>
      match download_store (task_local_path t) image_data w with
      | (Some success, w) => (success, w)
      | (None, w) => retry_or_stop t retries w
      end
  | Finished success => (success, w)
  end.

(** The threads of a pool where nothing has started. *)
Definition queued (tasks : list Task) : list thread :=
  map (fun t => (t, Queued)) tasks.

Fixpoint running (threads : list thread) : nat :=
  match threads with
  | [] => 0
  | th :: rest => ((if is_running (snd th) then 1 else 0) + running rest)%nat
  end.

(** Thread [i] can take a step when it has not returned and, if it is still
    in the queue, when every call submitted before it has been taken by a
    worker and a worker is free. *)
Definition may_step (threads : list thread) (i : nat) : bool :=
  match threads !! i with
  | Some (_, Queued) =>
      forallb (fun th => negb (is_queued (snd th))) (take i threads) &&
      (Z.of_nat (running threads) <? max_workers self)
  | Some (_, Finished _) => false
  | Some _ => true
  | None => false
  end.

Definition pool_step (i : nat) (threads : list thread) (w : World)
    : list thread * World :=
  if may_step threads i
  then match threads !! i with
       | Some (t, ph) =>
           let '(ph', w') := thread_step t ph w in (<[i := (t, ph')]> threads, w')
       | None => (threads, w)
       end
  else (threads, w).

Fixpoint run_schedule (schedule : list nat) (threads : list thread) (w : World)
    : list thread * World :=
  match schedule with
  | [] => (threads, w)
  | i :: rest =>
      let '(threads, w) := pool_step i threads w in
      run_schedule rest threads w
  end.

Fixpoint drain (threads : list thread) (w : World) : list bool * World :=
  match threads with
  | [] => ([], w)
  | (t, ph) :: rest =>
      let '(success, w) := finish t ph w in
      let '(others, w) := drain rest w in
      (success :: others, w)
  end.

(** The pool from the first submission to the end of the [with] block,
    where every submitted call has returned: the result of each call, in
    the order of submission. *)
Definition run_pool (tasks : list Task) (w : World) : list bool * World :=
  let '(threads, w) :=
    run_schedule (interleaving (moment w)) (queued tasks) w in
  drain threads w.

End Pool.

(** ** process_markdown_file *)

Section Coordinator.
Context `{PyLib} `{Outside}.
Variable self : MarkdownImageDownloader.

(** The loop that submits one call of [download_image] for each element
    of [image_urls]: the entries of [future_to_url], and whether the loop
    came to its end.  It does not when [generate_filename] raises, which it
    does when [urlparse] does; the calls submitted before still run. *)
Fixpoint submit_all (images_folder : Path) (image_urls : list (str * str))
    : list Task * bool :=
  match image_urls with
  | [] => ([], true)
  | (url, original_text) :: rest =>
      if urlparse_ok url
      then
        let filename := generate_filename url None in
        let local_path := path_join images_folder filename in
        let '(submitted, complete) := submit_all images_folder rest in
        ({| task_url := url;
            task_original_text := original_text;
            task_local_path := local_path |} :: submitted, complete)
      else ([], false)
  end.

(** The loop over [as_completed(future_to_url)]. *)
Definition collect (tasks : list Task) (results : list bool) : dict str :=
  fold_left (fun url_replacements i =>
    match tasks !! i, results !! i with
    | Some t, Some true =>
        let relative_path := L "images/" ++ path_name (task_local_path t) in
        dict_set (task_original_text t) relative_path url_replacements
    | _, _ => url_replacements
    end) (as_completed (length tasks)) [].

(** The end of [process_markdown_file]: the rewriting of the document.
    When the new text cannot be encoded, [write] raises after [open] has
    emptied the file. *)
Definition update_document (md_file : Path) (content : str)
    (url_replacements : dict str) (w : World) : dict str * World :=
  match url_replacements with
  | [] => ([], w)
  | _ :: _ =>
      let updated_content := rewrite content url_replacements in
      match encode_text updated_content with
      | Some data =>
          match write_file md_file data w with
          | (true, w) => (url_replacements, w)
          | (false, w) => ([], w)
          end
      | None => ([], snd (write_file md_file [] w))
      end
  end.

(** [process_markdown_file] from the thread pool on, in the world where
    the folder of the images has been made.  [ThreadPoolExecutor] raises
    when [max_workers] is not positive. *)
Definition download_and_update (md_file : Path) (content : str)
    (images_folder : Path) (image_urls : list (str * str)) (w : World)
    : dict str * World :=
  if max_workers self <=? 0 then ([], w)
  else
    let '(future_to_url, complete) := submit_all images_folder image_urls in
    let '(results, w) := run_pool self future_to_url w in
    if complete
    then update_document md_file content (collect future_to_url results) w
    else ([], w).

Definition process_markdown_file (md_file : Path) (w : World) : dict str * World :=
  match read_file w md_file with
  | None => ([], w)
  | Some content =>
      let image_urls := extract_image_urls content in
      match image_urls with
      | [] => ([], w)
      | _ :: _ =>
          let images_folder := path_join (parent md_file) (L "images") in
          match mkdir images_folder w with
          | None => ([], w)
          | Some w => download_and_update md_file content images_folder image_urls w
          end
      end
  end.

End Coordinator.

(** ** run

    [run] lists the documents with [find_markdown_files] and processes them
    one after the other, counting them and the replacements.  The listing
    of the folder is taken as given: [md_files] is what
    [find_markdown_files] returned.  The result holds [processed_files]
    and [total_images]. *)

Section Driver.
Context `{PyLib} `{Outside}.
Variable self : MarkdownImageDownloader.

(** The loop over [md_files]; [process_markdown_file] catches whatever is
    raised in it, so the handler of the loop is never entered. *)
Fixpoint process_files (md_files : list Path) (processed_files total_images : nat)
    (w : World) : nat * nat * World :=
  match md_files with
  | [] => (processed_files, total_images, w)
  | md_file :: rest =>
      let '(replacements, w) := process_markdown_file self md_file w in
      process_files rest (processed_files + 1) (total_images + length replacements) w
  end.

Definition run (md_files : list Path) (w : World) : nat * nat * World :=
  match md_files with
  | [] => (0%nat, 0%nat, w)
  | _ :: _ => process_files md_files 0 0 w
  end.

End Driver.

(** ** The vocabulary of the statements *)

(** An attribute as written in a tag: the white space before it, its name,
    the quote around its value, its value. *)
Record attribute := {
  attr_space : str;
  attr_name : str;
  attr_quote : ascii;
  attr_value : str;
}.

Definition attr_text (a : attribute) : str :=
  attr_space a ++ attr_name a ++ "="%char :: attr_quote a ::
  attr_value a ++ [attr_quote a].

(** The tag with the attributes [attrs], and [tail] before the closing >. *)
Definition tag_text (attrs : list attribute) (tail : str) : str :=
  L "<img" ++ flat_map attr_text attrs ++ tail ++ L ">".

(** The tag of the specification: [src] first, with the local path, then
    every attribute whose name is not [src] in any case of the letters, in
    the order of the original tag. *)
Definition spec_tag_form (attrs : list attribute) (local_path : str) : str :=
  L "<img src=" ++ [dquote] ++ local_path ++ [dquote] ++
  flat_map (fun a =>
    if str_eqb (lower (attr_name a)) (L "src") then []
    else L " " ++ attr_name a ++ L "=" ++ [dquote] ++ attr_value a ++ [dquote]) attrs ++
  L ">".

Definition is_space (c : ascii) : bool :=
  existsb (chr_eqb c) [ascii_of_nat 32; ascii_of_nat 9; ascii_of_nat 10; ascii_of_nat 13].

Definition nonempty {A} (l : list A) : bool :=
  match l with [] => false | _ => true end.

(** The attributes that the pattern of [img_attrs] reads as they are
    written: separated by white space, with a name of word characters and
    a value of at least one character, none of them a quote or >. *)
Definition plain_attribute (a : attribute) : bool :=
  nonempty (attr_space a) && forallb is_space (attr_space a) &&
  nonempty (attr_name a) && forallb is_word (attr_name a) &&
  is_quote (attr_quote a) &&
  nonempty (attr_value a) && forallb is_value_char (attr_value a).

Definition plain_tail (tail : str) : bool :=
  forallb (fun c => is_space c || chr_eqb c "/") tail.

(** A character that ends a run of word characters without starting a
    quoted value. *)
Definition is_break (c : ascii) : bool := negb (is_word c) && negb (chr_is "=" c).

(** [keeps w w']: going from [w] to [w'], every file of [w] still has its
    content and was not opened for writing, and every directory is still
    there. *)
Definition keeps (w w' : World) : Prop :=
  (forall q data, files w !! q = Some data -> files w' !! q = Some data) /\
  (forall q, is_dir w q = true -> is_dir w' q = true) /\
  exists added, trace w' = trace w ++ added /\
    forall q, In (Open q) added -> files w !! q = None.

(** The requests of a trace. *)
Definition gets (tr : list Event) : list str :=
  flat_map (fun e => match e with Get url => [url] | _ => [] end) tr.

(** The files that a trace opens for writing. *)
Definition opens (tr : list Event) : list Path :=
  flat_map (fun e => match e with Open p => [p] | _ => [] end) tr.

(** The waits between two tries (one second or more; the wait before a
    request is half a second). *)
Definition backoffs (tr : list Event) : list Z :=
  flat_map (fun e =>
    match e with
    | Sleep ms => if 1000 <=? ms then [ms] else []
    | _ => []
    end) tr.

(** The quality levels of the loop. *)
Definition quality_levels : list Z := [85; 80; 75; 70; 65; 60; 55; 50; 45; 40; 35; 30; 25].

(** The encoding at [quality] exists and is larger than [limit]. *)
Definition too_large `{PyLib} (img : Image) (limit quality : Z) : bool :=
  match save_jpeg img quality with
  | Some data => limit <? Z.of_nat (length data)
  | None => false
  end.

(** No character of [s] is one of [illegal_chars]. *)
Definition filesystem_safe (s : str) : bool :=
  forallb (fun c => negb (chr_in c illegal_chars)) s.

(** What the loop of [sanitize_filename] makes of one character. *)
Definition sanitize_chr (chars : str) (c : ascii) : ascii :=
  fold_left (fun c' char => if chr_eqb c' char then "_"%char else c') chars c.

(** Every request of the trace comes right after a sleep of half a second;
    [after_delay] says whether the event before the trace was one. *)
Fixpoint requests_delayed (after_delay : bool) (tr : list Event) : bool :=
  match tr with
  | [] => true
  | Get _ :: tr' => after_delay && requests_delayed false tr'
  | Sleep ms :: tr' => requests_delayed (ms =? 500) tr'
  | Open _ :: tr' => requests_delayed false tr'
  end.

(** The number of requests to [url] in a trace. *)
Definition requests_to (url : str) (tr : list Event) : nat :=
  length (List.filter (str_eqb url) (gets tr)).

(** The calls submitted for [url], and those of them that returned
    [True]. *)
Definition calls_to (url : str) (tasks : list Task) : nat :=
  length (List.filter (fun t => str_eqb url (task_url t)) tasks).

Definition successes_to (url : str) (tasks : list Task) (results : list bool) : nat :=
  length (List.filter (fun tb => str_eqb url (task_url (fst tb)) && snd tb)
            (combine tasks results)).

(** A thread that is past the test for the file writes to a path that was
    no file of [w0]. *)
Definition may_write (w0 : World) (th : thread) : Prop :=
  match snd th with
  | Requesting _ | Storing _ _ => files w0 !! task_local_path (fst th) = None
  | _ => True
  end.



(** The requests that a thread has before it when none of its tries
    succeeds, and those that a thread which returned [True] may have been
    spared. *)
Definition requests_left (self : MarkdownImageDownloader) (ph : phase) : nat :=
  match ph with
  | Queued => 1 + Z.to_nat (max_retries self)
  | Checking retries | Requesting retries =>
      1 + Z.to_nat (max_retries self - Z.of_nat retries)
  | Storing retries _ => Z.to_nat (max_retries self - Z.of_nat retries)
  | Finished _ => 0
  end.

Definition requests_spared (self : MarkdownImageDownloader) (ph : phase) : nat :=
  match ph with
  | Finished true => 1 + Z.to_nat (max_retries self)
  | _ => 0
  end.

Definition requests_owed (self : MarkdownImageDownloader) (ph : phase) : nat :=
  requests_left self ph + requests_spared self ph.

Definition total (f : thread -> nat) (threads : list thread) : nat :=
  list_sum (map f threads).

Definition for_url (url : str) (f : phase -> nat) (th : thread) : nat :=
  if str_eqb url (task_url (fst th)) then f (snd th) else 0%nat.

(** [n] steps of a thread with no other thread in between, and a bound
    on the steps that a thread has before it. *)
Fixpoint thread_steps `{PyLib} `{Outside} (self : MarkdownImageDownloader)
    (n : nat) (t : Task) (ph : phase) (w : World) : phase * World :=
  match n with
  | O => (ph, w)
  | S n => let '(ph', w') := thread_step self t ph w in thread_steps self n t ph' w'
  end.

Definition steps_left (self : MarkdownImageDownloader) (ph : phase) : nat :=
  match ph with
  | Queued => 3 * (1 + Z.to_nat (max_retries self)) + 2
  | Checking retries => 3 * (1 + Z.to_nat (max_retries self - Z.of_nat retries)) + 1
  | Requesting retries => 3 * (1 + Z.to_nat (max_retries self - Z.of_nat retries))
  | Storing retries _ => 3 * (1 + Z.to_nat (max_retries self - Z.of_nat retries)) - 1
  | Finished _ => 0
  end.

(** Going from [w] to [w'], [n] requests were made, all of them to [url]. *)
Definition accounts (url : str) (n : nat) (w w' : World) : Prop :=
  forall u, requests_to u (trace w') =
            (requests_to u (trace w) + if str_eqb u url then n else 0)%nat.

(** ** A concrete library and a concrete outside

    The theorems below hold for every [PyLib] and every [Outside].  To run
    the program on examples, [Sample] gives one of each: the path functions
    of [posixpath], a url parser for urls of the plain form
    scheme://host/path, a checksum in place of MD5, images that are their
    own pixels behind a one-byte header, and the text codec of a POSIX
    platform for the characters below 256. *)

Module Sample.

(** [posixpath.basename]: what follows the last slash. *)
Fixpoint posix_basename (p : str) : str :=
  match p with
  | [] => []
  | c :: p' => if chr_in "/"%char p' then posix_basename p'
               else if chr_eqb c "/" then p' else p
  end.

(** Position of the last occurrence of [c] in [s], counted from 1; 0 when
    there is none. *)
Fixpoint rfind1 (c : ascii) (s : str) : nat :=
  match s with
  | [] => 0
  | x :: s' =>
      match rfind1 c s' with
      | O => if chr_eqb x c then 1 else 0
      | S n => S (S n)
      end
  end%nat.

(** [posixpath.splitext]: split at the last dot when it comes after the
    last slash and after a character of the file name that is not a dot. *)
Definition posix_splitext (p : str) : str * str :=
  let sep := rfind1 "/" p in
  let dot := rfind1 "." p in
  if (sep <? dot)%nat &&
     existsb (fun c => negb (chr_eqb c ".")) (take (dot - 1 - sep) (drop sep p))
  then (take (dot - 1) p, drop (dot - 1) p)
  else (p, []).

Fixpoint drop_until (sub : str) (s : str) : str :=
  match s with
  | [] => []
  | _ :: s' => if startswith sub s then drop (length sub) s else drop_until sub s'
  end.

Fixpoint take_until (stop : ascii -> bool) (s : str) : str :=
  match s with
  | [] => []
  | c :: s' => if stop c then [] else c :: take_until stop s'
  end.

Fixpoint drop_to (stop : ascii -> bool) (s : str) : str :=
  match s with
  | [] => []
  | c :: s' => if stop c then s else drop_to stop s'
  end.

Definition plain_url_path (url : str) : str :=
  let after_scheme := drop_until (L "://") url in
  take_until (one_of "?#") (drop_to (one_of "/?#") after_scheme).

Definition hex_digit (n : N) : ascii :=
  nth (N.to_nat (n mod 16)) (L "0123456789abcdef") "0"%char.

Definition checksum (s : str) : N :=
  fold_left (fun acc c => (acc * 31 + N_of_ascii c) mod 65536)%N s 7%N.

Definition checksum_hexdigest (s : str) : str :=
  let n := checksum s in
  flat_map (fun _ =>
    [hex_digit (n / 4096); hex_digit (n / 256); hex_digit (n / 16); hex_digit n])
    (seq 0 8).

(** Sample images: the first byte of the data says what follows, 1 for
    pixels without alpha, 2 for pixels with alpha, 3 for pixels with a
    palette, which the JPEG writer refuses; the second byte says how much
    detail the picture has.  The sample JPEG writer keeps
    [detail * quality] bytes of the pixels behind the quality. *)
Inductive sample_mode := RGB | RGBA | Palette.

Record sample_image := { mode : sample_mode; detail : nat; pixels : bytes }.

Definition sample_open (data : bytes) : option sample_image :=
  match data with
  | Byte.x01 :: d :: px => Some {| mode := RGB; detail := Byte.to_nat d; pixels := px |}
  | Byte.x02 :: d :: px => Some {| mode := RGBA; detail := Byte.to_nat d; pixels := px |}
  | Byte.x03 :: d :: px => Some {| mode := Palette; detail := Byte.to_nat d; pixels := px |}
  | _ => None
  end.

Definition sample_save_jpeg (img : sample_image) (quality : Z) : option bytes :=
  match mode img with
  | Palette => None
  | _ =>
      match Byte.of_N (Z.to_N quality) with
      | Some q => Some (q :: take (detail img * Z.to_nat quality) (pixels img))
      | None => None
      end
  end.

(** [urlparse] raises when one of the brackets of an IPv6 host is in the
    host part without the other. *)
Definition plain_urlparse_ok (url : str) : bool :=
  let netloc := take_until (one_of "/?#") (drop_until (L "://") url) in
  Bool.eqb (chr_in "["%char netloc) (chr_in "]"%char netloc).

Definition byte_of_N (n : N) : Byte.byte :=
  match Byte.of_N n with
  | Some b => b
  | None => Byte.x00
  end.

(** UTF-8 for the characters below 256: one byte below 128, two bytes
    from there on. *)
Definition utf8_encode (text : str) : bytes :=
  flat_map (fun c =>
    let n := N_of_ascii c in
    if (n <? 128)%N then [byte_of_N n]
    else [byte_of_N (192 + n / 64); byte_of_N (128 + n mod 64)]) text.

Fixpoint utf8_decode (data : bytes) : option str :=
  match data with
  | [] => Some []
  | b :: rest =>
      let n := Byte.to_N b in
      if (n <? 128)%N then cons (ascii_of_N n) <$> utf8_decode rest
      else
        match rest with
        | b2 :: rest' =>
            let n2 := Byte.to_N b2 in
            if ((194 <=? n) && (n <=? 195) && (128 <=? n2) && (n2 <? 192))%N
            then cons (ascii_of_N ((n - 192) * 64 + (n2 - 128))) <$> utf8_decode rest'
            else None
        | [] => None
        end
  end.

(** The line ends of a file read in text mode: CR LF and CR become LF. *)
Fixpoint universal_newlines (text : str) : str :=
  match text with
  | [] => []
  | c :: rest =>
      if chr_eqb c (ascii_of_nat 13)
      then match rest with
           | c2 :: rest' =>
               if chr_eqb c2 (ascii_of_nat 10)
               then ascii_of_nat 10 :: universal_newlines rest'
               else ascii_of_nat 10 :: universal_newlines rest
           | [] => [ascii_of_nat 10]
           end
      else c :: universal_newlines rest
  end.

#[export] Instance lib : PyLib.
Proof.
  refine {| md5_hexdigest := checksum_hexdigest;
            url_path := plain_url_path;
            urlparse_ok := plain_urlparse_ok;
            decode_text := fun data => universal_newlines <$> utf8_decode data;
            encode_text := fun text => Some (utf8_encode text);
            basename := posix_basename;
            splitext := posix_splitext;
            Image := sample_image;
            Image_open := sample_open;
            mode_is_RGBA := fun img => match mode img with RGBA => true | _ => false end;
            paste_on_white :=
              fun img => Some {| mode := RGB; detail := detail img; pixels := pixels img |};
            save_jpeg := sample_save_jpeg |}.
  - intros s. reflexivity.
  - intros s. unfold checksum_hexdigest. cbn [seq flat_map app forallb].
    assert (Hhex : forall n, is_hex_digit (hex_digit n) = true).
    { intros n. unfold hex_digit.
      assert (Hlt : (N.to_nat (n mod 16) < 16)%nat)
        by (pose proof (N.mod_upper_bound n 16); lia).
      remember (N.to_nat (n mod 16)) as k eqn:Hk. clear Hk.
      do 16 (destruct k as [|k]; [reflexivity|]). lia. }
    rewrite !Hhex. reflexivity.
  - intros p. unfold posix_splitext.
    destruct (_ && _); cbn [fst snd]; [apply take_drop | apply app_nil_r].
Defined.

(** An outside where every request gets the same answer and the disk
    works; futures are handed back in the order of submission, and the
    threads of the pool run one after the other. *)
Definition steady (answer : str -> NetResult) : Outside :=
  {| session_get := fun _ url => answer url;
     disk_write := fun _ _ => DiskOk;
     as_completed := fun n => seq 0 n;
     as_completed_perm := fun n => Permutation_refl _;
     interleaving := fun _ => [] |}.

(** A downloader with the settings of [main], and a folder [docs] that
    holds one document. *)
Definition me : MarkdownImageDownloader :=
  {| root_folder := [L "docs"]; max_workers := 10; max_retries := 3 |}.

Definition md : Path := [L "docs"; L "a.md"].

Definition folder_with (content : str) : World :=
  {| files := <[md := utf8_encode content]> ∅;
     dirs := {[ [L "docs"] ]};
     trace := [] |}.

Definition reply (data : bytes) (content_type : string) : NetResult :=
  Reply {| status_code := 200; content := data;
           content_type_header := Some (L content_type) |}.

Definition unreachable : Outside := steady (fun _ => NetError).

(** A server that answers every request with 200 bytes of SVG, and one
    that answers with 50 bytes. *)
Definition svg_server : Outside :=
  steady (fun _ => reply (repeat Byte.x3c 200) "image/SVG+xml").

Definition tiny_server : Outside :=
  steady (fun _ => reply (repeat Byte.x41 50) "image/png").

Definition palette_payload : bytes := Byte.x03 :: Byte.x10 :: repeat Byte.x00 2000.

Definition a_png : str := L "http://x/a.png".
Definition a_png_path : Path := [L "docs"; L "images"; L "a.png"].

Definition images : Path := [L "docs"; L "images"].

(** The attributes of the tag of the round trip, and two tags with an
    attribute that the pattern does not read as written: an empty alt
    text, and a name with a hyphen. *)
Definition dq (name value : string) : attribute :=
  {| attr_space := L " "; attr_name := L name;
     attr_quote := dquote; attr_value := L value |}.

Definition cat_attrs : list attribute :=
  [dq "src" "http://x/a.png"; dq "alt" "cat"; dq "title" "t"].

Definition empty_alt_attrs : list attribute :=
  [dq "src" "http://x/a.png"; dq "alt" EmptyString].

Definition data_id_attrs : list attribute :=
  [dq "src" "http://x/a.png"; dq "data-id" "5"].

Definition local_a : str := L "images/a_343a343a343a.png".

(** Documents with one reference and with the same reference twice, and a
    folder where the image of the reference is there already. *)
Definition one_reference : str := L "![cat](http://x/a.png)".
Definition two_references : str := L "![cat](http://x/a.png) ![cat](http://x/a.png)".

Definition a_png_local : Path := [L "docs"; L "images"; L "a_343a343a343a.png"].

Definition stocked_folder : World :=
  put_file a_png_local (repeat Byte.x41 120) (folder_with one_reference).

(** A document with both forms of reference, and a server that answers
    every request with 120 bytes of PNG. *)
Definition both_forms : str :=
  L "Hi ![cat](http://x/a.png) and <img src=" ++ [dquote] ++ L "http://x/b.png" ++
  [dquote] ++ L " alt=" ++ [dquote] ++ L "cat" ++ [dquote] ++ L " title=" ++
  [dquote] ++ L "t" ++ [dquote] ++ L ">".

Definition png_server : Outside :=
  steady (fun _ => reply (repeat Byte.x41 120) "image/png").

(** A second url, the tag of the round trip as a text, and an outside
    where every request is answered with 120 bytes of PNG and every write
    stops after 10 bytes. *)
Definition b_png : str := L "http://x/b.png".

Definition cat_tag : str :=
  tag_text [dq "src" "http://x/b.png"; dq "alt" "cat"; dq "title" "t"] [].

Definition full_disk : Outside :=
  {| session_get := fun _ _ => reply (repeat Byte.x41 120) "image/png";
     disk_write := fun _ _ => WriteFails 10;
     as_completed := fun n => seq 0 n;
     as_completed_perm := fun n => Permutation_refl _;
     interleaving := fun _ => [] |}.

(** An outside where the first two threads of a pool take their steps in
    turn, and the server answers the first request with 120 bytes of one
    picture and every later one with 120 bytes of another. *)
Definition racing : Outside :=
  {| session_get := fun n _ =>
       reply (repeat (if (n <? 3)%nat then Byte.x41 else Byte.x42) 120) "image/png";
     disk_write := fun _ _ => DiskOk;
     as_completed := fun n => seq 0 n;
     as_completed_perm := fun n => Permutation_refl _;
     interleaving := fun _ => [0; 1; 0; 1; 0; 1; 0; 1]%nat |}.

(** A picture of more than 500 kilobytes, and a server that answers every
    request with it, as a PNG. *)
Definition large_image : sample_image :=
  {| mode := RGB; detail := 16; pixels := repeat Byte.x00 (N.to_nat 600000) |}.

Definition large_payload : bytes :=
  Byte.x01 :: Byte.x10 :: repeat Byte.x00 (N.to_nat 600000).

Definition large_png_server : Outside :=
  steady (fun _ => reply large_payload "image/png").

(** A document with three references, the second to a url with a bracket
    that [urlparse] refuses. *)
Definition bad_url : str := L "http://[x/b.png".

Definition three_references : str :=
  L "![a](http://x/a.png) ![b](http://[x/b.png) ![c](http://x/c.png)".

(** A document whose lines end in CR LF. *)
Definition crlf_document : str :=
  L "![cat](http://x/a.png)" ++ [ascii_of_nat 13; ascii_of_nat 10] ++ L "end" ++
  [ascii_of_nat 13; ascii_of_nat 10].

Definition crlf_folder : World :=
  {| files := <[md := map byte_of_ascii crlf_document]> ∅;
     dirs := {[ [L "docs"] ]};
     trace := [] |}.

End Sample.

(** * Properties *)

(** ** Strings *)

Lemma chr_eqb_eq a b : chr_eqb a b = true <-> a = b.
Proof. apply Ascii.eqb_eq. Qed.

Lemma chr_eqb_refl a : chr_eqb a a = true.
Proof. apply Ascii.eqb_refl. Qed.

Lemma str_eqb_eq a b : str_eqb a b = true <-> a = b.
Proof.
  revert b. induction a as [|x a IH]; intros [|y b]; simpl; try (split; congruence).
  rewrite andb_true_iff, chr_eqb_eq, IH. split; [intros [-> ->]; reflexivity|].
  intros [= -> ->]. split; reflexivity.
Qed.

Lemma str_eqb_refl a : str_eqb a a = true.
Proof. apply str_eqb_eq. reflexivity. Qed.

Lemma str_eqb_neq a b : a <> b -> str_eqb a b = false.
Proof.
  intros Hne. destruct (str_eqb a b) eqn:E; [|reflexivity].
  apply str_eqb_eq in E. contradiction.
Qed.

(** ** Matching *)

(** A repetition followed by something that no character of the repetition
    can start never has to give a character back: it takes the whole run. *)
Lemma greedy_run p min capture k run : forall taken rest,
  forallb p run = true ->
  (forall c s, p c = true -> k (c :: s) = None) ->
  match rest with [] => True | c :: _ => p c = false end ->
  greedy p min capture k taken (run ++ rest) =
    if (min <=? length (taken ++ run))%nat
    then match k rest with
         | Some (gs, r) => Some (if capture then (taken ++ run) :: gs else gs, r)
         | None => None
         end
    else None.
Proof.
  induction run as [|c run IH]; intros taken rest Hrun Hk Hrest.
  - rewrite app_nil_r. simpl. destruct rest as [|c s]; simpl; [reflexivity|].
    rewrite Hrest. reflexivity.
  - simpl in Hrun. apply andb_true_iff in Hrun as [Hc Hrun].
    change ((c :: run) ++ rest) with (c :: (run ++ rest)). simpl. rewrite Hc.
    rewrite (IH (taken ++ [c]) rest Hrun Hk Hrest), <- app_assoc. simpl.
    destruct (min <=? length (taken ++ c :: run))%nat.
    + destruct (k rest) as [[gs r]|]; [reflexivity|].
      rewrite (Hk c (run ++ rest) Hc). destruct (min <=? length taken)%nat; reflexivity.
    + rewrite (Hk c (run ++ rest) Hc). destruct (min <=? length taken)%nat; reflexivity.
Qed.

Lemma findall_from_skip re mid : forall rest,
  findall_from re (length mid) (mid ++ rest) = findall_from re 0 rest.
Proof.
  induction mid as [|c mid IH]; intros rest; simpl; [|apply IH].
  destruct rest; reflexivity.
Qed.

Lemma findall_from_match re c s gs mid rest :
  match_here re (c :: s) = Some (gs, rest) ->
  s = mid ++ rest ->
  findall_from re 0 (c :: s) = gs :: findall_from re 0 rest.
Proof.
  intros Hm ->. cbn [findall_from]. rewrite Hm. f_equal.
  replace (length (c :: mid ++ rest) - length rest - 1)%nat with (length mid)
    by (cbn [length]; rewrite length_app; lia).
  apply findall_from_skip.
Qed.

Lemma findall_from_no_match re c s :
  match_here re (c :: s) = None ->
  findall_from re 0 (c :: s) = findall_from re 0 s.
Proof. intros Hm. cbn [findall_from]. rewrite Hm. reflexivity. Qed.

(** *** The pattern of the attributes *)

Lemma word_is_not_equals c : is_word c = true -> chr_is "=" c = false.
Proof. destruct c as [[] [] [] [] [] [] [] []]; vm_compute; congruence. Qed.

Lemma value_char_is_not_quote c : is_value_char c = true -> is_quote c = false.
Proof.
  unfold is_value_char. intros Hv. apply negb_true_iff, orb_false_iff in Hv. tauto.
Qed.

Lemma quote_is_not_value_char c : is_quote c = true -> is_value_char c = false.
Proof. unfold is_value_char. intros ->. reflexivity. Qed.

Lemma nonempty_length {A} (l : list A) : l <> [] -> (1 <=? length l)%nat = true.
Proof. destruct l; [congruence|reflexivity]. Qed.

(** At a name, an equals sign, a quoted value: a match, with the two groups. *)
Lemma attr_pattern_match name q1 value q2 rest :
  name <> [] -> forallb is_word name = true ->
  is_quote q1 = true ->
  value <> [] -> forallb is_value_char value = true ->
  is_quote q2 = true ->
  match_here attr_pattern (name ++ "="%char :: q1 :: value ++ q2 :: rest) =
    Some ([name; value], rest).
Proof.
  intros Hn Hname Hq1 Hv Hvalue Hq2. unfold attr_pattern.
  cbn [match_here].
  rewrite greedy_run; [|exact Hname| |reflexivity].
  2:{ intros c s Hc. cbn [match_here]. rewrite (word_is_not_equals c Hc). reflexivity. }
  rewrite app_nil_l, (nonempty_length name Hn).
  cbn [match_here]. change (chr_is "=" "=") with true. cbv iota. rewrite Hq1.
  rewrite greedy_run; [|exact Hvalue| |apply quote_is_not_value_char, Hq2].
  2:{ intros c s Hc. cbn [match_here]. rewrite (value_char_is_not_quote c Hc). reflexivity. }
  rewrite app_nil_l, (nonempty_length value Hv). cbn [match_here]. rewrite Hq2.
  reflexivity.
Qed.

(** At a run of word characters that no equals sign follows: no match. *)
Lemma attr_pattern_no_match run rest :
  forallb is_word run = true ->
  match rest with
  | [] => True
  | c :: _ => is_word c = false /\ (run = [] \/ chr_is "=" c = false)
  end ->
  match_here attr_pattern (run ++ rest) = None.
Proof.
  intros Hrun Hrest. unfold attr_pattern. cbn [match_here].
  rewrite greedy_run; [|exact Hrun| |destruct rest; tauto].
  2:{ intros c s Hc. cbn [match_here]. rewrite (word_is_not_equals c Hc). reflexivity. }
  rewrite app_nil_l. destruct run as [|r run]; [reflexivity|].
  cbn [length Nat.leb]. cbn [match_here]. destruct rest as [|c rest]; [reflexivity|].
  destruct Hrest as [_ [Hnil|Heq]]; [discriminate|]. rewrite Heq. reflexivity.
Qed.

Lemma findall_attr_skip_char c s :
  is_word c = false ->
  findall_from attr_pattern 0 (c :: s) = findall_from attr_pattern 0 s.
Proof.
  intros Hc. apply findall_from_no_match.
  apply (attr_pattern_no_match [] (c :: s)); [reflexivity|]. auto.
Qed.

Lemma findall_attr_skip_chars junk s :
  forallb (fun c => negb (is_word c)) junk = true ->
  findall_from attr_pattern 0 (junk ++ s) = findall_from attr_pattern 0 s.
Proof.
  induction junk as [|c junk IH]; simpl; [reflexivity|].
  intros Hall. apply andb_true_iff in Hall as [Hc Hjunk].
  apply negb_true_iff in Hc.
  rewrite <- (IH Hjunk). apply (findall_attr_skip_char c (junk ++ s) Hc).
Qed.

Lemma findall_attr_skip_word run c s :
  forallb is_word run = true ->
  is_break c = true ->
  findall_from attr_pattern 0 (run ++ c :: s) = findall_from attr_pattern 0 (c :: s).
Proof.
  intros Hrun Hc. unfold is_break in Hc. apply andb_true_iff in Hc as [Hw He].
  apply negb_true_iff in Hw, He.
  induction run as [|r run IH]; [reflexivity|].
  simpl in Hrun. apply andb_true_iff in Hrun as [Hr Hrun'].
  rewrite <- (IH Hrun'). change ((r :: run) ++ c :: s) with (r :: (run ++ c :: s)).
  apply findall_from_no_match.
  apply (attr_pattern_no_match (r :: run) (c :: s)).
  - simpl. rewrite Hr. exact Hrun'.
  - auto.
Qed.

(** ** The rewriter *)

Lemma nonempty_neq {A} (l : list A) : nonempty l = true -> l <> [].
Proof. destruct l; [discriminate|congruence]. Qed.

Lemma space_is_break c : is_space c = true -> is_break c = true.
Proof. destruct c as [[] [] [] [] [] [] [] []]; vm_compute; congruence. Qed.

Lemma tail_char_is_break c : is_space c || chr_eqb c "/" = true -> is_break c = true.
Proof. destruct c as [[] [] [] [] [] [] [] []]; vm_compute; congruence. Qed.

Lemma break_is_not_word c : is_break c = true -> negb (is_word c) = true.
Proof. unfold is_break. intros Hb. apply andb_true_iff in Hb. tauto. Qed.

Lemma forallb_impl {A} (f g : A -> bool) l :
  (forall x, f x = true -> g x = true) -> forallb f l = true -> forallb g l = true.
Proof.
  intros Hfg. induction l as [|x l IH]; simpl; [reflexivity|].
  intros Hall. apply andb_true_iff in Hall as [Hx Hl]. rewrite (Hfg x Hx). simpl. auto.
Qed.

Lemma plain_attribute_facts a :
  plain_attribute a = true ->
  (attr_space a <> [] /\ forallb is_space (attr_space a) = true) /\
  (attr_name a <> [] /\ forallb is_word (attr_name a) = true) /\
  is_quote (attr_quote a) = true /\
  (attr_value a <> [] /\ forallb is_value_char (attr_value a) = true).
Proof.
  unfold plain_attribute. rewrite !andb_true_iff.
  intros [[[[[[H1 H2] H3] H4] H5] H6] H7].
  apply nonempty_neq in H1, H3, H6. tauto.
Qed.

(** Reading one plain attribute. *)
Lemma findall_attr_text a more :
  plain_attribute a = true ->
  findall_from attr_pattern 0 (attr_text a ++ more) =
    [attr_name a; attr_value a] :: findall_from attr_pattern 0 more.
Proof.
  intros Ha. apply plain_attribute_facts in Ha
    as ((_ & Hspace) & (Hn & Hname) & Hq & (Hv & Hvalue)).
  unfold attr_text. rewrite <- app_assoc.
  rewrite findall_attr_skip_chars
    by (revert Hspace; apply forallb_impl; intros c Hc;
        apply break_is_not_word, space_is_break, Hc).
  pose proof (attr_pattern_match (attr_name a) (attr_quote a) (attr_value a)
                (attr_quote a) more Hn Hname Hq Hv Hvalue Hq) as Hm.
  destruct (attr_name a) as [|c name] eqn:En; [congruence|].
  rewrite <- app_assoc. cbn [app]. rewrite <- app_assoc. cbn [app].
  cbn [app] in Hm.
  apply (findall_from_match attr_pattern c _ _
           (name ++ "="%char :: attr_quote a :: attr_value a ++ [attr_quote a]) more Hm).
  rewrite <- app_assoc. cbn [app]. rewrite <- app_assoc. reflexivity.
Qed.

Lemma findall_attrs attrs tail :
  forallb plain_attribute attrs = true ->
  plain_tail tail = true ->
  findall_from attr_pattern 0 (flat_map attr_text attrs ++ tail ++ L ">") =
    map (fun a => [attr_name a; attr_value a]) attrs.
Proof.
  intros Hattrs Htail. induction attrs as [|a attrs IH].
  - cbn [flat_map app map]. rewrite findall_attr_skip_chars.
    + apply (findall_attr_skip_char ">" []). reflexivity.
    + revert Htail. apply forallb_impl. intros c Hc.
      apply break_is_not_word, tail_char_is_break, Hc.
  - cbn [forallb] in Hattrs. apply andb_true_iff in Hattrs as [Ha Hattrs].
    cbn [flat_map map]. rewrite <- app_assoc.
    rewrite (findall_attr_text a _ Ha), (IH Hattrs). reflexivity.
Qed.

(** What follows the text <img in a plain tag starts with a break. *)
Lemma tag_body_starts_with_break attrs tail :
  forallb plain_attribute attrs = true ->
  plain_tail tail = true ->
  exists c s, flat_map attr_text attrs ++ tail ++ L ">" = c :: s /\ is_break c = true.
Proof.
  intros Hattrs Htail. destruct attrs as [|a attrs].
  - destruct tail as [|c tail].
    + exists ">"%char, []. split; reflexivity.
    + exists c, (tail ++ L ">"). split; [reflexivity|].
      cbn [plain_tail forallb] in Htail. apply andb_true_iff in Htail as [Hc _].
      apply tail_char_is_break, Hc.
  - cbn [forallb] in Hattrs. apply andb_true_iff in Hattrs as [Ha _].
    apply plain_attribute_facts in Ha as ((Hne & Hspace) & _).
    cbn [flat_map]. unfold attr_text at 1.
    destruct (attr_space a) as [|c space]; [congruence|].
    cbn [forallb] in Hspace. apply andb_true_iff in Hspace as [Hc _].
    eexists c, _. split; [rewrite <- !app_assoc; reflexivity|].
    apply space_is_break, Hc.
Qed.

Lemma findall_tag_text attrs tail :
  forallb plain_attribute attrs = true ->
  plain_tail tail = true ->
  findall attr_pattern (tag_text attrs tail) =
    map (fun a => [attr_name a; attr_value a]) attrs.
Proof.
  intros Hattrs Htail. unfold findall, tag_text.
  destruct (tag_body_starts_with_break attrs tail Hattrs Htail) as (c & s & Hbody & Hc).
  rewrite <- (findall_attrs attrs tail Hattrs Htail), Hbody.
  change (L "<img" ++ c :: s) with ("<"%char :: (L "img" ++ c :: s)).
  rewrite findall_attr_skip_char by reflexivity.
  apply findall_attr_skip_word; [reflexivity|exact Hc].
Qed.

(** A dictionary made of pairs with distinct keys is the list of the pairs. *)
Lemma dict_set_fresh {V} k (v : V) d :
  ~ In k (map fst d) -> dict_set k v d = d ++ [(k, v)].
Proof.
  induction d as [|[k' v'] d IH]; simpl; [reflexivity|].
  intros Hnot. rewrite str_eqb_neq by tauto. rewrite IH by tauto. reflexivity.
Qed.

Lemma dict_of_distinct {V} (pairs : list (str * V)) :
  NoDup (map fst pairs) -> dict_of pairs = pairs.
Proof.
  unfold dict_of.
  assert (Hgen : forall d : dict V, NoDup (map fst d ++ map fst pairs) ->
            fold_left (fun d kv => dict_set (fst kv) (snd kv) d) pairs d = d ++ pairs).
  { induction pairs as [|[k v] pairs IH]; intros d Hnd; simpl.
    - symmetry. apply app_nil_r.
    - apply NoDup_app in Hnd as (Hd & Hdisj & Hp).
      rewrite dict_set_fresh.
      + rewrite IH.
        * rewrite <- app_assoc. reflexivity.
        * rewrite map_app, <- app_assoc. simpl.
          apply NoDup_app. split; [exact Hd|]. split; [exact Hdisj|exact Hp].
      + intros Hin. apply list_elem_of_In in Hin. apply (Hdisj k Hin). left. }
  intros Hnd. apply (Hgen []). exact Hnd.
Qed.

Lemma join_cons sep x xs :
  join sep (x :: xs) = x ++ flat_map (fun y => sep ++ y) xs.
Proof.
  revert x. induction xs as [|y ys IH]; intros x.
  - simpl. symmetry. apply app_nil_r.
  - change (join sep (x :: y :: ys)) with (x ++ sep ++ join sep (y :: ys)).
    rewrite IH. simpl. rewrite <- app_assoc. reflexivity.
Qed.

Lemma new_img_tag_plain attrs tail local_path :
  forallb plain_attribute attrs = true ->
  plain_tail tail = true ->
  NoDup (map attr_name attrs) ->
  new_img_tag (tag_text attrs tail) local_path = spec_tag_form attrs local_path.
Proof.
  intros Hattrs Htail Hnd. unfold new_img_tag.
  rewrite (findall_tag_text attrs tail Hattrs Htail).
  assert (Hpairs : flat_map as_pair (map (fun a => [attr_name a; attr_value a]) attrs) =
                   map (fun a => (attr_name a, attr_value a)) attrs).
  { clear. induction attrs as [|a attrs IH]; simpl; [reflexivity|]. rewrite IH. reflexivity. }
  rewrite Hpairs, dict_of_distinct by (rewrite map_map; exact Hnd).
  rewrite join_cons. unfold spec_tag_form, render_attr.
  cbn [L list_ascii_of_string app]. rewrite <- !app_assoc. cbn [app].
  do 10 f_equal. apply (f_equal (app local_path)). f_equal.
  apply (f_equal (fun body => body ++ [">"%char])).
  clear. induction attrs as [|a attrs IH]; cbn [map flat_map app fst snd]; [reflexivity|].
  destruct (str_eqb (lower (attr_name a)) _); cbn [negb flat_map app].
  - exact IH.
  - rewrite IH, <- !app_assoc. reflexivity.
Qed.

Lemma not_closing_bracket c : none_of "]" c = true -> chr_is "]" c = false.
Proof. destruct c as [[] [] [] [] [] [] [] []]; vm_compute; congruence. Qed.

Lemma not_closing_paren c : none_of ")" c = true -> chr_is ")" c = false.
Proof. destruct c as [[] [] [] [] [] [] [] []]; vm_compute; congruence. Qed.

Lemma alt_pattern_match alt url :
  forallb (none_of "]") alt = true ->
  url <> [] -> forallb (none_of ")") url = true ->
  re_match alt_pattern (L "![" ++ alt ++ L "](" ++ url ++ L ")") = Some [alt].
Proof.
  intros Halt Hne Hurl. unfold re_match, alt_pattern.
  cbn [L list_ascii_of_string app match_here].
  change (chr_is "!" "!") with true. change (chr_is "[" "[") with true. cbv iota.
  rewrite greedy_run; [|exact Halt| |reflexivity].
  2:{ intros c s Hc. cbn [match_here]. rewrite (not_closing_bracket c Hc). reflexivity. }
  cbn [app length Nat.leb match_here].
  change (chr_is "]" "]") with true. change (chr_is "(" "(") with true. cbv iota.
  rewrite greedy_run; [|exact Hurl| |reflexivity].
  2:{ intros c s Hc. cbn [match_here]. rewrite (not_closing_paren c Hc). reflexivity. }
  rewrite app_nil_l, (nonempty_length url Hne). reflexivity.
Qed.

(** The rewriter on the attributes that it reads: for a tag whose
    attributes the pattern of [img_attrs]
    reads as they are written (each after white space, with a name of word
    characters and a quoted value of at least one character without quotes
    or >, the names all different), the new tag starts with [src] and the
    local path, and goes on with every attribute whose name is not [src],
    in any case of the letters, in the order of the original tag, so [src]
    comes once; for the bracket form the alt text is kept as it is. *)
Theorem rewritten_reference_keeps_plain_attributes :
  (forall attrs tail local_path,
     forallb plain_attribute attrs = true ->
     plain_tail tail = true ->
     NoDup (map attr_name attrs) ->
     new_text_for (tag_text attrs tail) local_path =
       Some (spec_tag_form attrs local_path)) /\
  (forall alt url local_path,
     forallb (none_of "]") alt = true ->
     url <> [] -> forallb (none_of ")") url = true ->
     new_text_for (L "![" ++ alt ++ L "](" ++ url ++ L ")") local_path =
       Some (L "![" ++ alt ++ L "](" ++ local_path ++ L ")")).
Proof.
  split.
  - intros attrs tail local_path Hattrs Htail Hnd. unfold new_text_for.
    change (startswith (L "![") (tag_text attrs tail)) with false. cbv iota.
    rewrite (new_img_tag_plain attrs tail local_path Hattrs Htail Hnd). reflexivity.
  - intros alt url local_path Halt Hne Hurl. unfold new_text_for.
    change (startswith (L "![") (L "![" ++ alt ++ L "](" ++ url ++ L ")")) with true.
    cbv iota. rewrite (alt_pattern_match alt url Halt Hne Hurl). reflexivity.
Qed.

(** ** The file system *)

Lemma is_file_false w p : is_file w p = false <-> files w !! p = None.
Proof.
  unfold is_file. rewrite bool_decide_eq_false, <- eq_None_not_Some. reflexivity.
Qed.

Lemma path_exists_false w p :
  path_exists w p = false -> files w !! p = None /\ is_dir w p = false.
Proof.
  unfold path_exists. intros Hex. apply orb_false_iff in Hex as [Hf Hd].
  apply is_file_false in Hf. auto.
Qed.

Lemma keeps_refl w : keeps w w.
Proof.
  split; [auto|]. split; [auto|]. exists []. rewrite app_nil_r.
  split; [reflexivity|]. intros q [].
Qed.

Lemma keeps_trans w1 w2 w3 : keeps w1 w2 -> keeps w2 w3 -> keeps w1 w3.
Proof.
  intros (Hf1 & Hd1 & a1 & Ht1 & Ho1) (Hf2 & Hd2 & a2 & Ht2 & Ho2).
  split; [auto|]. split; [auto|]. exists (a1 ++ a2).
  split; [rewrite Ht2, Ht1, app_assoc; reflexivity|].
  intros q Hin. apply in_app_or in Hin as [Hin|Hin]; [auto|].
  specialize (Ho2 q Hin). destruct (files w1 !! q) as [data|] eqn:E; [|reflexivity].
  apply Hf1 in E. congruence.
Qed.

Lemma keeps_emit_quiet e w :
  (forall q, e <> Open q) -> keeps w (emit e w).
Proof.
  intros Hq. split; [auto|]. split; [intros [|c q]; auto|].
  exists [e]. split; [reflexivity|].
  intros q [Heq|[]]. exfalso. exact (Hq q Heq).
Qed.

Lemma is_dir_add_dir p q w : is_dir w q = true -> is_dir (add_dir p w) q = true.
Proof.
  destruct q as [|c q]; [auto|]. unfold is_dir. simpl.
  rewrite !bool_decide_eq_true. set_solver.
Qed.

Lemma is_dir_add_dir_same p w : is_dir (add_dir p w) p = true.
Proof.
  destruct p as [|c p]; [reflexivity|]. unfold is_dir. simpl.
  rewrite bool_decide_eq_true. set_solver.
Qed.

Lemma keeps_add_dir p w : keeps w (add_dir p w).
Proof.
  split; [auto|]. split; [intros q; apply is_dir_add_dir|].
  exists []. simpl. rewrite app_nil_r. split; [reflexivity|]. intros q [].
Qed.

Lemma mkdir_keeps p w w' : mkdir p w = Some w' -> keeps w w'.
Proof.
  unfold mkdir. intros Hm.
  destruct (is_dir w p); [injection Hm as <-; apply keeps_refl|].
  destruct (is_file w p); [discriminate|].
  destruct (is_dir w (parent p)); [|discriminate].
  injection Hm as <-. apply keeps_add_dir.
Qed.

Lemma mkdir_parents_rev_keeps rp w w' :
  mkdir_parents_rev rp w = Some w' -> keeps w w'.
Proof.
  revert w'. induction rp as [|c rp IH]; intros w' Hm; simpl in Hm.
  - injection Hm as <-. apply keeps_refl.
  - destruct (is_dir w (rev rp ++ [c])); [injection Hm as <-; apply keeps_refl|].
    destruct (is_file w (rev rp ++ [c])); [discriminate|].
    destruct (mkdir_parents_rev rp w) as [w1|]; [|discriminate]. simpl in Hm.
    destruct (is_dir w1 (rev rp)); [|discriminate]. injection Hm as <-.
    eapply keeps_trans; [apply IH; reflexivity|apply keeps_add_dir].
Qed.

Lemma mkdir_parents_keeps p w w' : mkdir_parents p w = Some w' -> keeps w w'.
Proof. apply mkdir_parents_rev_keeps. Qed.

Lemma mkdir_parents_rev_files rp w w' :
  mkdir_parents_rev rp w = Some w' -> files w' = files w /\ trace w' = trace w.
Proof.
  revert w'. induction rp as [|c rp IH]; intros w' Hm; simpl in Hm.
  - injection Hm as <-. auto.
  - destruct (is_dir w (rev rp ++ [c])); [injection Hm as <-; auto|].
    destruct (is_file w (rev rp ++ [c])); [discriminate|].
    destruct (mkdir_parents_rev rp w) as [w1|]; [|discriminate]. simpl in Hm.
    destruct (is_dir w1 (rev rp)); [|discriminate]. injection Hm as <-.
    simpl. apply IH. reflexivity.
Qed.

Lemma mkdir_parents_files p w w' : mkdir_parents p w = Some w' -> files w' = files w.
Proof. intros Hm. apply mkdir_parents_rev_files in Hm. tauto. Qed.

Lemma mkdir_parents_trace p w w' : mkdir_parents p w = Some w' -> trace w' = trace w.
Proof. intros Hm. apply mkdir_parents_rev_files in Hm. tauto. Qed.

Section DiskFacts.
Context `{Outside}.

(** A write either changes nothing or opens the file, which then holds a
    prefix of the data, all of it when the write completes. *)
Lemma write_file_cases p data w b w' :
  write_file p data w = (b, w') ->
  (b = false /\ w' = w) \/
  (is_dir w p = false /\ is_dir w (parent p) = true /\
   exists n, w' = put_file p (take n data) (emit (Open p) w) /\
             (b = true -> take n data = data)).
Proof.
  unfold write_file. intros Hw.
  destruct (is_dir w p) eqn:Ed; simpl in Hw; [left; split; congruence|].
  destruct (is_dir w (parent p)) eqn:Ep; simpl in Hw; [|left; split; congruence].
  destruct (disk_write (moment w) p) as [| |n]; injection Hw as <- <-.
  - right. split; [reflexivity|]. split; [reflexivity|].
    exists (length data). rewrite firstn_all. auto.
  - left. auto.
  - right. split; [reflexivity|]. split; [reflexivity|].
    exists n. split; [reflexivity|discriminate].
Qed.

Lemma write_file_keeps p data w b w' :
  files w !! p = None -> write_file p data w = (b, w') -> keeps w w'.
Proof.
  intros Hnone Hw. apply write_file_cases in Hw as [[_ ->]|(_ & _ & n & -> & _)].
  - apply keeps_refl.
  - split; [|split].
    + intros q d Hq. simpl. rewrite lookup_insert_ne; [exact Hq|]. congruence.
    + intros [|c q]; auto.
    + exists [Open p]. split; [reflexivity|].
      intros q [[= <-]|[]]. exact Hnone.
Qed.

End DiskFacts.

(** ** The fetcher *)

Section FetcherFacts.
Context `{PyLib} `{Outside}.
Variable self : MarkdownImageDownloader.

Lemma download_image_eq url save_path retries w :
  download_image self url save_path retries w =
  match download_try url save_path w with
  | (Some result, w') => (result, w')
  | (None, w') =>
      if Z.of_nat retries <? max_retries self
      then download_image self url save_path (S retries)
             (emit (Sleep (1000 * 2 ^ Z.of_nat retries)) w')
      else (false, w')
  end.
Proof.
  simp download_image.
  destruct (download_try url save_path w) as [[result|] w']; simpl; [reflexivity|].
  destruct (Z_lt_dec (Z.of_nat retries) (max_retries self)) as [Hlt|Hge]; simpl.
  - apply Z.ltb_lt in Hlt. rewrite Hlt. reflexivity.
  - apply Z.ltb_nlt in Hge. rewrite Hge. reflexivity.
Qed.

(** The three ways through the body of the [try]. *)
Lemma download_try_cases url save_path w r w' :
  download_try url save_path w = (r, w') ->
  (path_exists w save_path = true /\ r = Some true /\ w' = w) \/
  (path_exists w save_path = false /\
   let w1 := emit (Get url) (emit (Sleep 500) w) in
   ((r = None /\ w' = w1) \/
    exists response w2 b,
      session_get (moment (emit (Sleep 500) w)) url = Reply response /\
      raise_for_status response = false /\
      (length (content response) <? 100)%nat = false /\
      mkdir_parents (parent save_path) w1 = Some w2 /\
      write_file save_path (stored_data response) w2 = (b, w') /\
      r = (if b then Some true else None))).
Proof.
  unfold download_try. intros Ht.
  destruct (path_exists w save_path) eqn:Ex.
  { left. injection Ht as <- <-. auto. }
  right. split; [reflexivity|]. cbv zeta.
  destruct (session_get (moment (emit (Sleep 500) w)) url) as [|response] eqn:Eg.
  { left. injection Ht as <- <-. auto. }
  destruct (raise_for_status response) eqn:Es.
  { left. injection Ht as <- <-. auto. }
  destruct (length (content response) <? 100)%nat eqn:El.
  { left. injection Ht as <- <-. auto. }
  destruct (mkdir_parents _ _) as [w2|] eqn:Em.
  2:{ left. injection Ht as <- <-. auto. }
  destruct (write_file save_path (stored_data response) w2) as [b w3] eqn:Ew.
  right. exists response, w2, b.
  destruct b; injection Ht as <- <-; auto 10.
Qed.

Lemma download_try_keeps url save_path w r w' :
  download_try url save_path w = (r, w') -> keeps w w'.
Proof.
  intros Ht. apply download_try_cases in Ht as [(_ & _ & ->)|[Ex Ht]].
  { apply keeps_refl. }
  cbv zeta in Ht.
  assert (Hk1 : keeps w (emit (Get url) (emit (Sleep 500) w))).
  { eapply keeps_trans; apply keeps_emit_quiet; discriminate. }
  destruct Ht as [[_ ->]|(response & w2 & b & _ & _ & _ & Hm & Hw & _)]; [exact Hk1|].
  pose proof Hm as Hm0. apply mkdir_parents_keeps in Hm.
  eapply keeps_trans; [exact Hk1|]. eapply keeps_trans; [exact Hm|].
  eapply write_file_keeps; [|exact Hw].
  apply path_exists_false in Ex as [Hnone _].
  rewrite (mkdir_parents_files _ _ _ Hm0). exact Hnone.
Qed.

Lemma download_image_keeps url save_path retries w :
  keeps w (snd (download_image self url save_path retries w)).
Proof.
  remember (Z.to_nat (max_retries self - Z.of_nat retries)) as m eqn:Hm.
  revert retries w Hm. induction m as [|m IH]; intros retries w Hm;
    rewrite download_image_eq;
    destruct (download_try url save_path w) as [[result|] w1] eqn:Et;
    try (apply download_try_keeps in Et; exact Et).
  - destruct (Z.ltb_spec (Z.of_nat retries) (max_retries self)) as [Hlt|Hge]; [lia|].
    apply download_try_keeps in Et. exact Et.
  - apply download_try_keeps in Et.
    destruct (Z.ltb_spec (Z.of_nat retries) (max_retries self)) as [Hlt|Hge]; [|exact Et].
    eapply keeps_trans; [exact Et|].
    eapply keeps_trans; [|apply IH; lia].
    apply keeps_emit_quiet. discriminate.
Qed.

End FetcherFacts.

(** ** What the trace of a fetch looks like *)

Lemma gets_app a b : gets (a ++ b) = gets a ++ gets b.
Proof. apply flat_map_app. Qed.

Lemma backoffs_app a b : backoffs (a ++ b) = backoffs a ++ backoffs b.
Proof. apply flat_map_app. Qed.

Section FetcherTrace.
Context `{PyLib} `{Outside}.
Variable self : MarkdownImageDownloader.

Lemma write_file_trace p data w b w' :
  write_file p data w = (b, w') ->
  trace w' = trace w \/ trace w' = trace w ++ [Open p].
Proof.
  intros Hw. apply write_file_cases in Hw as [[_ ->]|(_ & _ & n & -> & _)]; auto.
Qed.

(** One try makes at most one request, to [url], never backs off, and
    returns nothing but [True]. *)
Lemma download_try_trace url save_path w r w' :
  download_try url save_path w = (r, w') ->
  exists added, trace w' = trace w ++ added /\
    backoffs added = [] /\ (gets added = [] \/ gets added = [url]) /\
    r <> Some false.
Proof.
  intros Ht. apply download_try_cases in Ht as [(_ & -> & ->)|[_ Ht]].
  { exists []. rewrite app_nil_r. repeat split; auto; discriminate. }
  cbv zeta in Ht.
  destruct Ht as [[-> ->]|(response & w2 & b & _ & _ & _ & Hm & Hw & ->)].
  { exists [Sleep 500; Get url]. simpl. rewrite <- app_assoc.
    repeat split; auto; discriminate. }
  assert (Hr : (if b then Some true else None) <> Some false)
    by (destruct b; discriminate).
  apply mkdir_parents_trace in Hm. apply write_file_trace in Hw.
  rewrite Hm in Hw. simpl in Hw. rewrite <- !app_assoc in Hw. simpl in Hw.
  destruct Hw as [Hw|Hw]; rewrite Hw; eexists; (split; [reflexivity|]); auto.
Qed.

Lemma download_image_trace url save_path retries w :
  Z.of_nat retries <= max_retries self ->
  exists n added,
    Z.of_nat (retries + n) <= max_retries self /\
    trace (snd (download_image self url save_path retries w)) = trace w ++ added /\
    backoffs added = map (fun k => 1000 * 2 ^ Z.of_nat k) (seq retries n) /\
    (length (gets added) <= n + 1)%nat /\
    Forall (eq url) (gets added) /\
    (fst (download_image self url save_path retries w) = false ->
     Z.of_nat (retries + n) = max_retries self).
Proof.
  remember (Z.to_nat (max_retries self - Z.of_nat retries)) as m eqn:Hm.
  revert retries w Hm. induction m as [|m IH]; intros retries w Hm Hle;
    rewrite download_image_eq;
    destruct (download_try url save_path w) as [[result|] w1] eqn:Et;
    apply download_try_trace in Et as (a1 & Ht1 & Hb1 & Hg1 & Hr1);
    assert (Hlen : (length (gets a1) <= 1)%nat /\ Forall (eq url) (gets a1))
      by (destruct Hg1 as [-> | ->]; simpl; auto).
  - exists 0%nat, a1. simpl. rewrite Nat.add_0_r.
    repeat split; try tauto; try lia; try (intros ->; congruence).
  - destruct (Z.ltb_spec (Z.of_nat retries) (max_retries self)) as [Hlt|Hge]; [lia|].
    exists 0%nat, a1. simpl. rewrite Nat.add_0_r.
    repeat split; try tauto; try lia.
  - exists 0%nat, a1. simpl. rewrite Nat.add_0_r.
    repeat split; try tauto; try lia; try (intros ->; congruence).
  - destruct (Z.ltb_spec (Z.of_nat retries) (max_retries self)) as [Hlt|Hge]; [|lia].
    destruct (IH (S retries) (emit (Sleep (1000 * 2 ^ Z.of_nat retries)) w1))
      as (n & a2 & Hn & Ht2 & Hb2 & Hg2 & Hu2 & Hf2); [lia|lia|].
    exists (S n), (a1 ++ Sleep (1000 * 2 ^ Z.of_nat retries) :: a2).
    split; [lia|]. split.
    { rewrite Ht2. simpl. rewrite Ht1, <- !app_assoc. reflexivity. }
    split.
    { rewrite backoffs_app, Hb1. simpl. rewrite Hb2.
      destruct (Z.leb_spec 1000 (1000 * 2 ^ Z.of_nat retries)) as [_|Hsmall];
        [reflexivity|].
      assert (0 < 2 ^ Z.of_nat retries) by (apply Z.pow_pos_nonneg; lia). lia. }
    rewrite gets_app. simpl. split.
    { rewrite length_app. lia. }
    split.
    { apply Forall_app. tauto. }
    intros Hfalse. specialize (Hf2 Hfalse). lia.
Qed.

End FetcherTrace.

(** ** The names of the local files *)

Lemma filesystem_safe_app a b :
  filesystem_safe (a ++ b) = filesystem_safe a && filesystem_safe b.
Proof. apply forallb_app. Qed.

Lemma forallb_take {A} (f : A -> bool) n l :
  forallb f l = true -> forallb f (take n l) = true.
Proof.
  revert n. induction l as [|x l IH]; intros [|n]; simpl; auto.
  intros Hall. apply andb_true_iff in Hall as [-> Hl]. simpl. auto.
Qed.

Lemma hex_digit_safe c : is_hex_digit c = true -> negb (chr_in c illegal_chars) = true.
Proof. destruct c as [[] [] [] [] [] [] [] []]; vm_compute; congruence. Qed.

Lemma hex_safe s : forallb is_hex_digit s = true -> filesystem_safe s = true.
Proof.
  unfold filesystem_safe. rewrite !forallb_forall.
  intros Hall c Hin. apply hex_digit_safe, Hall, Hin.
Qed.

Lemma replace_all_map chars filename :
  fold_left (fun f char => replace_chr char f) chars filename =
  map (sanitize_chr chars) filename.
Proof.
  revert filename. induction chars as [|c0 chars IH]; intros filename; simpl.
  - symmetry. apply map_id.
  - rewrite IH. unfold replace_chr. rewrite map_map. reflexivity.
Qed.

Lemma sanitize_chr_safe c : negb (chr_in (sanitize_chr illegal_chars c) illegal_chars) = true.
Proof. destruct c as [[] [] [] [] [] [] [] []]; vm_compute; reflexivity. Qed.

Section NameFacts.
Context `{PyLib}.

Lemma sanitize_filename_safe filename :
  filesystem_safe (sanitize_filename filename) = true.
Proof.
  unfold sanitize_filename. rewrite replace_all_map.
  assert (Hs : filesystem_safe (map (sanitize_chr illegal_chars) filename) = true).
  { unfold filesystem_safe. rewrite forallb_forall. intros c Hin.
    apply in_map_iff in Hin as (c0 & <- & _). apply sanitize_chr_safe. }
  destruct (100 <? length _)%nat; [|exact Hs].
  pose proof (splitext_join (map (sanitize_chr illegal_chars) filename)) as Hj.
  destruct (splitext _) as [name ext]. simpl in Hj.
  rewrite <- Hj, filesystem_safe_app in Hs. apply andb_true_iff in Hs as [Hn He].
  rewrite filesystem_safe_app, He, andb_true_r. apply forallb_take. exact Hn.
Qed.

Lemma image_ext_cases ext :
  is_image_ext ext = true -> In ext image_exts.
Proof.
  unfold is_image_ext. rewrite existsb_exists.
  intros (e & Hin & Heq). apply str_eqb_eq in Heq. subst. exact Hin.
Qed.

Lemma image_ext_safe ext :
  is_image_ext ext = true -> filesystem_safe ext = true /\ (length ext <= 5)%nat.
Proof.
  intros Hext. apply image_ext_cases in Hext. simpl in Hext.
  repeat (destruct Hext as [<-|Hext]; [split; [reflexivity|simpl; lia]|]).
  destruct Hext.
Qed.

Lemma get_image_extension_known url content_type :
  is_image_ext (get_image_extension url content_type) = true.
Proof.
  unfold get_image_extension. destruct (splitext (url_path url)) as [root ext].
  destruct (is_image_ext (lower ext)) eqn:E; [exact E|].
  destruct content_type as [[|c ct]|]; try reflexivity.
  repeat (match goal with |- context [if ?b then _ else _] => destruct b end;
          try reflexivity).
Qed.

Lemma url_hash_facts url :
  length (take 12 (md5_hexdigest url)) = 12%nat /\
  forallb is_hex_digit (take 12 (md5_hexdigest url)) = true.
Proof.
  split.
  - rewrite length_take, md5_hexdigest_length. reflexivity.
  - apply forallb_take, md5_hexdigest_hex.
Qed.

(** The two shapes of a generated name. *)
Lemma generate_filename_shape url content_type :
  exists stem ext,
    generate_filename url content_type =
      stem ++ L "_" ++ take 12 (md5_hexdigest url) ++ ext /\
    filesystem_safe stem = true /\ (length stem <= 20)%nat /\
    is_image_ext ext = true.
Proof.
  assert (Hfallback : exists stem ext,
    L "image_" ++ take 12 (md5_hexdigest url) ++ get_image_extension url content_type =
      stem ++ L "_" ++ take 12 (md5_hexdigest url) ++ ext /\
    filesystem_safe stem = true /\ (length stem <= 20)%nat /\
    is_image_ext ext = true).
  { exists (L "image"), (get_image_extension url content_type).
    split; [reflexivity|]. split; [reflexivity|]. split; [simpl; lia|].
    apply get_image_extension_known. }
  unfold generate_filename.
  destruct (basename (url_path url)) as [|c original_name]; [exact Hfallback|].
  destruct (chr_in "." (c :: original_name)); [|exact Hfallback].
  destruct (splitext (c :: original_name)) as [name ext].
  destruct (is_image_ext (lower ext)) eqn:Eext; [|exact Hfallback].
  exists (take 20 (sanitize_filename name)), (lower ext).
  split; [reflexivity|]. split; [apply forallb_take, sanitize_filename_safe|].
  split; [rewrite length_take; lia|exact Eext].
Qed.

(** C9: [generate_filename] is a function of the url and the content type
    alone, so two calls with the same arguments give the same name; the
    name holds the first 12 hex digits of the MD5 of the url after an
    underscore; none of its characters is a path separator or one of the
    other characters that [sanitize_filename] takes for illegal; and it is
    at most 38 characters long. *)
Theorem generate_filename_deterministic_safe_bounded url content_type :
  let filename := generate_filename url content_type in
  let url_hash := take 12 (md5_hexdigest url) in
  (forall url' content_type',
     url' = url -> content_type' = content_type ->
     generate_filename url' content_type' = filename) /\
  (exists stem ext, filename = stem ++ L "_" ++ url_hash ++ ext) /\
  length url_hash = 12%nat /\
  forallb is_hex_digit url_hash = true /\
  (forall c, In c filename -> chr_in c illegal_chars = false) /\
  (length filename <= 38)%nat.
Proof.
  intros filename url_hash. subst filename url_hash.
  destruct (url_hash_facts url) as [Hlen Hhex].
  destruct (generate_filename_shape url content_type)
    as (stem & ext & Heq & Hstem & Hshort & Hext).
  apply image_ext_safe in Hext as [Hext Hextlen].
  split; [intros url' ct' -> ->; reflexivity|].
  split; [exists stem, ext; exact Heq|].
  split; [exact Hlen|]. split; [exact Hhex|]. split.
  - assert (Hsafe : filesystem_safe (generate_filename url content_type) = true).
    { rewrite Heq, !filesystem_safe_app, Hstem, Hext, (hex_safe _ Hhex). reflexivity. }
    intros c Hin. unfold filesystem_safe in Hsafe. rewrite forallb_forall in Hsafe.
    apply negb_true_iff. apply Hsafe. exact Hin.
  - rewrite Heq, !length_app, Hlen. simpl. lia.
Qed.

End NameFacts.

(** ** compress_image *)

Lemma range_85_20 : range_down 85 20 (-5) = quality_levels.
Proof. reflexivity. Qed.

Section CompressFacts.
Context `{PyLib}.

Lemma try_qualities_none img limit qualities :
  forallb (too_large img limit) qualities = true ->
  try_qualities img limit qualities = Some None.
Proof.
  induction qualities as [|q qs IH]; simpl; [reflexivity|].
  intros Hall. apply andb_true_iff in Hall as [Hq Hqs]. unfold too_large in Hq.
  destruct (save_jpeg img q) as [data|]; [|discriminate].
  apply Z.ltb_lt in Hq.
  destruct (Z.leb_spec (Z.of_nat (length data)) limit); [lia|]. auto.
Qed.


Lemma try_qualities_found img limit qualities data :
  try_qualities img limit qualities = Some (Some data) ->
  exists q, In q qualities /\ save_jpeg img q = Some data.
Proof.
  induction qualities as [|q qs IH]; simpl; [discriminate|].
  destruct (save_jpeg img q) as [d|] eqn:Eq; [|discriminate].
  destruct (Z.of_nat (length d) <=? limit).
  - intros [= <-]. exists q. auto.
  - intros Hrest. destruct (IH Hrest) as (q' & Hin & Hs). exists q'. auto.
Qed.

Lemma try_qualities_total img limit qualities :
  (forall q, In q qualities -> save_jpeg img q <> None) ->
  try_qualities img limit qualities <> None.
Proof.
  induction qualities as [|q qs IH]; simpl; [discriminate|].
  intros Hall. destruct (save_jpeg img q) as [d|] eqn:Eq.
  - destruct (Z.of_nat (length d) <=? limit); [discriminate|]. auto.
  - exfalso. apply (Hall q); auto.
Qed.

Lemma compress_image_try_large image_data max_size_kb img0 img :
  max_size_kb * 1024 < Z.of_nat (length image_data) ->
  Image_open image_data = Some img0 ->
  flatten_alpha img0 = Some img ->
  compress_image_try image_data max_size_kb =
    match try_qualities img (max_size_kb * 1024) quality_levels with
    | Some (Some compressed_data) => Some compressed_data
    | Some None => save_jpeg img 20
    | None => None
    end.
Proof.
  intros Hlarge Hopen Hflat. unfold compress_image_try.
  destruct (Z.leb_spec (Z.of_nat (length image_data)) (max_size_kb * 1024)); [lia|].
  rewrite Hopen. cbn [mbind option_bind]. rewrite Hflat. cbn [mbind option_bind].
  rewrite range_85_20.
  destruct (try_qualities _ _ _) as [[d|]|]; reflexivity.
Qed.


Lemma try_qualities_raises img limit before q after :
  forallb (too_large img limit) before = true ->
  save_jpeg img q = None ->
  try_qualities img limit (before ++ q :: after) = None.
Proof.
  intros Hall Hq. induction before as [|b bs IH]; simpl.
  - rewrite Hq. reflexivity.
  - simpl in Hall. apply andb_true_iff in Hall as [Hb Hbs]. unfold too_large in Hb.
    destruct (save_jpeg img b) as [d|]; [|discriminate].
    apply Z.ltb_lt in Hb.
    destruct (Z.leb_spec (Z.of_nat (length d)) limit); [lia|]. auto.
Qed.

(** What [compress_image] returns for a payload over the budget that
    decodes: an encoding of the image as JPEG, or the payload. *)
Lemma compress_image_large_cases image_data max_size_kb img0 img :
  max_size_kb * 1024 < Z.of_nat (length image_data) ->
  Image_open image_data = Some img0 ->
  flatten_alpha img0 = Some img ->
  (exists q, In q (quality_levels ++ [20]) /\
             save_jpeg img q = Some (compress_image image_data max_size_kb)) \/
  compress_image image_data max_size_kb = image_data.
Proof.
  intros Hlarge Hopen Hflat. unfold compress_image.
  rewrite (compress_image_try_large _ _ _ _ Hlarge Hopen Hflat).
  destruct (try_qualities img (max_size_kb * 1024) quality_levels)
    as [[data|]|] eqn:Et.
  - left. apply try_qualities_found in Et as (q & Hin & Hq).
    exists q. split; [apply in_or_app; auto|exact Hq].
  - destruct (save_jpeg img 20) as [data|] eqn:E20; [left|right; reflexivity].
    exists 20. split; [apply in_or_app; right; left; reflexivity|exact E20].
  - right. reflexivity.
Qed.

End CompressFacts.

(** ** The claims about the fetcher *)

Section FetcherClaims.
Context `{PyLib} `{Outside}.
Variable self : MarkdownImageDownloader.

(** C2: the retries of a fetch are bounded.  When a try fails and
    [retries < max_retries], [download_image] waits [2 ^ retries] seconds
    and calls itself with [retries + 1]; when it fails with the retries
    used up it returns [False].  A call that starts at [retries = 0]
    therefore returns after [n + 1] tries for some [n <= max_retries]: it
    backs off [n] times, for 1, 2, 4, ... seconds, makes at most [n + 1]
    requests, and returns [False] only when [n = max_retries]. *)
Theorem download_image_retry_bounded url save_path w :
  0 <= max_retries self ->
  (forall retries w1,
     download_try url save_path w = (None, w1) ->
     download_image self url save_path retries w =
       if Z.of_nat retries <? max_retries self
       then download_image self url save_path (S retries)
              (emit (Sleep (1000 * 2 ^ Z.of_nat retries)) w1)
       else (false, w1)) /\
  exists n added,
    Z.of_nat n <= max_retries self /\
    trace (snd (download_image self url save_path 0 w)) = trace w ++ added /\
    backoffs added = map (fun k => 1000 * 2 ^ Z.of_nat k) (seq 0 n) /\
    (length (gets added) <= n + 1)%nat /\
    (fst (download_image self url save_path 0 w) = false ->
     Z.of_nat n = max_retries self).
Proof.
  intros Hmax. split.
  - intros retries w1 Ht. rewrite download_image_eq, Ht. reflexivity.
  - destruct (download_image_trace self url save_path 0 w)
      as (n & added & Hn & Ht & Hb & Hg & _ & Hf); [simpl; lia|].
    exists n, added. simpl in Hn, Hf. auto 10.
Qed.

(** C7: a body of fewer than 100 bytes is a failure of the try, not a
    success and not a crash: the try raises after the request, with no
    directory made and no file written, and [download_image] goes on like
    after any other failure, backing off and trying again while
    [retries < max_retries] and returning [False] otherwise. *)
Theorem small_payload_is_a_failure url save_path retries w response :
  path_exists w save_path = false ->
  session_get (moment (emit (Sleep 500) w)) url = Reply response ->
  (length (content response) < 100)%nat ->
  let w1 := emit (Get url) (emit (Sleep 500) w) in
  download_try url save_path w = (None, w1) /\
  files w1 = files w /\ dirs w1 = dirs w /\
  download_image self url save_path retries w =
    if Z.of_nat retries <? max_retries self
    then download_image self url save_path (S retries)
           (emit (Sleep (1000 * 2 ^ Z.of_nat retries)) w1)
    else (false, w1).
Proof.
  intros Hex Hget Hlen w1.
  assert (Ht : download_try url save_path w = (None, w1)).
  { unfold download_try. rewrite Hex, Hget.
    destruct (raise_for_status response); [reflexivity|].
    destruct (Nat.ltb_spec (length (content response)) 100); [reflexivity|lia]. }
  split; [exact Ht|]. split; [reflexivity|]. split; [reflexivity|].
  rewrite download_image_eq, Ht. reflexivity.
Qed.

(** C8: what a successful try stores is the body as received when the
    declared content type contains svg (in any case of the letters), and
    the result of [compress_image] on the body otherwise, also when the
    reply declares no content type. *)
Theorem svg_is_not_recompressed url save_path w w' :
  path_exists w save_path = false ->
  download_try url save_path w = (Some true, w') ->
  exists response,
    session_get (moment (emit (Sleep 500) w)) url = Reply response /\
    files w' !! save_path =
      Some (if contains (L "svg") (lower (content_type_of response))
            then content response
            else compress_image (content response) 500).
Proof.
  intros Hex Ht. apply download_try_cases in Ht as [(Hex' & _)|[_ Ht]]; [congruence|].
  cbv zeta in Ht.
  destruct Ht as [[Hr _]|(response & w2 & b & Hget & _ & _ & _ & Hw & Hr)];
    [discriminate|].
  destruct b; [|discriminate].
  exists response. split; [exact Hget|].
  apply write_file_cases in Hw as [[Hb _]|(_ & _ & n & -> & Hn)]; [discriminate|].
  simpl. rewrite lookup_insert_eq, (Hn eq_refl). unfold stored_data.
  destruct (contains _ _); reflexivity.
Qed.

End FetcherClaims.

(** ** The encoding of a stored file *)

Lemma split_before_last {A} (l : list A) x : forall before q after,
  l ++ [x] = before ++ q :: after ->
  (exists after', l = before ++ q :: after') \/ (before = l /\ q = x).
Proof.
  induction l as [|y l IH]; intros before q after Heq.
  - destruct before as [|b before]; simpl in Heq.
    + injection Heq as <- _. right. auto.
    + injection Heq as _ Heq. destruct before; discriminate.
  - destruct before as [|b before]; simpl in Heq.
    + injection Heq as <- _. left. exists l. reflexivity.
    + injection Heq as <- Heq. apply IH in Heq as [[after' ->]|[-> ->]].
      * left. exists after'. reflexivity.
      * right. auto.
Qed.

Section StoredEncoding.
Context `{PyLib} `{Outside}.

(** C10 (amended): for a payload over the budget that decodes,
    [compress_image] returns an encoding of the image as JPEG, whatever the
    encoding of the payload was, when every encoding that it tries
    succeeds; when the conversion of a picture with alpha raises, or the
    encoder raises at a quality that is reached (every quality before it
    gave an encoding over the budget), it returns the payload as it was;
    and it returns nothing else.  [download_image] stores what
    [compress_image] returns for a reply that is not SVG, under the name
    made from the url alone: a url whose last component ends in a known
    image extension gives a file with that extension, whatever is stored
    in it, so the extension of a stored file need not name its encoding. *)
Theorem compress_image_returns_jpeg image_data max_size_kb img0 :
  max_size_kb * 1024 < Z.of_nat (length image_data) ->
  Image_open image_data = Some img0 ->
  (flatten_alpha img0 = None ->
   compress_image image_data max_size_kb = image_data) /\
  (forall img,
     flatten_alpha img0 = Some img ->
     ((forall q, In q (quality_levels ++ [20]) -> save_jpeg img q <> None) ->
      exists q, In q (quality_levels ++ [20]) /\
                save_jpeg img q = Some (compress_image image_data max_size_kb)) /\
     (forall before q after,
        quality_levels ++ [20] = before ++ q :: after ->
        forallb (too_large img (max_size_kb * 1024)) before = true ->
        save_jpeg img q = None ->
        compress_image image_data max_size_kb = image_data) /\
     ((exists q, In q (quality_levels ++ [20]) /\
                 save_jpeg img q = Some (compress_image image_data max_size_kb)) \/
      compress_image image_data max_size_kb = image_data)) /\
  (forall url images_folder w w' name ext response,
     max_size_kb = 500 ->
     chr_in "." (basename (url_path url)) = true ->
     splitext (basename (url_path url)) = (name, ext) ->
     is_image_ext (lower ext) = true ->
     let save_path := path_join images_folder (generate_filename url None) in
     path_exists w save_path = false ->
     session_get (moment (emit (Sleep 500) w)) url = Reply response ->
     content response = image_data ->
     contains (L "svg") (lower (content_type_of response)) = false ->
     download_try url save_path w = (Some true, w') ->
     path_name save_path =
       take 20 (sanitize_filename name) ++ L "_" ++ take 12 (md5_hexdigest url) ++
       lower ext /\
     files w' !! save_path = Some (compress_image image_data max_size_kb)).
Proof.
  intros Hlarge Hopen. split; [|split].
  - intros Hflat. unfold compress_image, compress_image_try.
    destruct (Z.leb_spec (Z.of_nat (length image_data)) (max_size_kb * 1024)); [lia|].
    rewrite Hopen. cbn [mbind option_bind]. rewrite Hflat. reflexivity.
  - intros img Hflat. split; [|split].
    + intros Hsave. unfold compress_image.
      rewrite (compress_image_try_large _ _ _ _ Hlarge Hopen Hflat).
      destruct (try_qualities img (max_size_kb * 1024) quality_levels)
        as [[data|]|] eqn:Et.
      * apply try_qualities_found in Et as (q & Hin & Hq).
        exists q. split; [apply in_or_app; auto|exact Hq].
      * destruct (save_jpeg img 20) as [data|] eqn:E20.
        -- exists 20. split; [apply in_or_app; right; left; reflexivity|exact E20].
        -- exfalso. apply (Hsave 20); [apply in_or_app; right; left; reflexivity|exact E20].
      * exfalso. revert Et. apply try_qualities_total.
        intros q Hin. apply Hsave. apply in_or_app. auto.
    + intros before q after Hsplit Hbefore Hq. unfold compress_image.
      rewrite (compress_image_try_large _ _ _ _ Hlarge Hopen Hflat).
      apply split_before_last in Hsplit as [[after' Hlevels]|[-> ->]].
      * rewrite Hlevels, (try_qualities_raises _ _ _ _ _ Hbefore Hq). reflexivity.
      * rewrite (try_qualities_none _ _ _ Hbefore), Hq. reflexivity.
    + exact (compress_image_large_cases _ _ _ _ Hlarge Hopen Hflat).
  - intros url images_folder w w' name ext response -> Hdot Hsplit Hext save_path
      Hex Hget Hcontent Hsvg Ht.
    split.
    + subst save_path. unfold path_name, path_join. rewrite last_last.
      unfold generate_filename.
      destruct (basename (url_path url)) as [|c original_name]; [discriminate|].
      rewrite Hdot, Hsplit, Hext. reflexivity.
    + apply download_try_cases in Ht as [(Hex' & _)|[_ Ht]]; [congruence|].
      cbv zeta in Ht.
      destruct Ht as [[Hr _]|(response' & w2 & b & Hget' & _ & _ & _ & Hw & Hr)];
        [discriminate|].
      destruct b; [|discriminate].
      rewrite Hget in Hget'. injection Hget' as <-.
      apply write_file_cases in Hw as [[Hb _]|(_ & _ & n & -> & Hn)]; [discriminate|].
      simpl. rewrite lookup_insert_eq, (Hn eq_refl). unfold stored_data.
      rewrite Hsvg, Hcontent. reflexivity.
Qed.

End StoredEncoding.

(** ** The thread pool *)

Lemma requests_to_app url a b :
  requests_to url (a ++ b) = (requests_to url a + requests_to url b)%nat.
Proof.
  unfold requests_to. rewrite gets_app, List.filter_app, length_app. reflexivity.
Qed.

Lemma total_insert (f : thread -> nat) threads i x y :
  threads !! i = Some x ->
  (total f (<[i := y]> threads) + f x = total f threads + f y)%nat.
Proof.
  unfold total. revert i. induction threads as [|z threads IH]; intros [|i] Hi;
    try discriminate; simpl in *.
  - injection Hi as ->. lia.
  - specialize (IH i Hi). lia.
Qed.

Lemma map_fst_insert (threads : list thread) i t ph ph' :
  threads !! i = Some (t, ph) ->
  map fst (<[i := (t, ph')]> threads) = map fst threads.
Proof.
  revert i. induction threads as [|z threads IH]; intros [|i] Hi;
    try discriminate; simpl in *.
  - injection Hi as ->. reflexivity.
  - f_equal. apply IH, Hi.
Qed.

Section PoolFacts.
Context `{PyLib} `{Outside}.
Variable self : MarkdownImageDownloader.

Lemma download_request_world url w :
  snd (download_request url w) = emit (Get url) (emit (Sleep 500) w).
Proof.
  unfold download_request.
  destruct (session_get _ url) as [|response]; [reflexivity|].
  destruct (raise_for_status response); [reflexivity|].
  destruct (length (content response) <? 100)%nat; reflexivity.
Qed.

Lemma download_store_cases save_path image_data w r w' :
  download_store save_path image_data w = (r, w') ->
  (r = None /\ w' = w) \/
  exists w2 b,
    mkdir_parents (parent save_path) w = Some w2 /\
    write_file save_path image_data w2 = (b, w') /\
    r = (if b then Some true else None).
Proof.
  unfold download_store. intros Hs.
  destruct (mkdir_parents _ w) as [w2|] eqn:Em.
  2:{ left. injection Hs as <- <-. auto. }
  destruct (write_file save_path image_data w2) as [b w3] eqn:Ew.
  right. exists w2, b. destruct b; injection Hs as <- <-; auto.
Qed.

(** The body of the [try] is the test for the file, then the request,
    then the write. *)
Lemma download_try_split url save_path w :
  download_try url save_path w =
  if path_exists w save_path then (Some true, w)
  else match download_request url w with
       | (Some image_data, w1) => download_store save_path image_data w1
       | (None, w1) => (None, w1)
       end.
Proof.
  unfold download_try, download_request, download_store.
  destruct (path_exists w save_path); [reflexivity|].
  destruct (session_get _ url) as [|response]; [reflexivity|].
  destruct (raise_for_status response); [reflexivity|].
  destruct (length (content response) <? 100)%nat; reflexivity.
Qed.

(** A thread that takes one step and then goes on to its end does what a
    thread does that goes on to its end: alone, a thread started from the
    queue computes [download_image] with [retries = 0]. *)
Lemma finish_step t ph w :
  finish self t ph w =
  let '(ph', w') := thread_step self t ph w in finish self t ph' w'.
Proof.
  destruct ph as [|retries|retries|retries image_data|success]; simpl.
  - reflexivity.
  - rewrite download_image_eq, download_try_split.
    destruct (path_exists w (task_local_path t)); [reflexivity|]. simpl.
    destruct (download_request (task_url t) w) as [[image_data|] w1];
      [|reflexivity].
    destruct (download_store (task_local_path t) image_data w1) as [[b|] w2];
      reflexivity.
  - destruct (download_request (task_url t) w) as [[image_data|] w1];
      [reflexivity|].
    unfold after_failure, retry_or_stop.
    destruct (Z.of_nat retries <? max_retries self); reflexivity.
  - destruct (download_store (task_local_path t) image_data w) as [[b|] w2];
      [reflexivity|].
    unfold after_failure, retry_or_stop.
    destruct (Z.of_nat retries <? max_retries self); reflexivity.
  - reflexivity.
Qed.

(** A step of the pool is a step of one thread, or nothing. *)
Lemma pool_step_cases i threads w threads' w' :
  pool_step self i threads w = (threads', w') ->
  (threads' = threads /\ w' = w) \/
  exists t ph ph',
    threads !! i = Some (t, ph) /\
    thread_step self t ph w = (ph', w') /\
    threads' = <[i := (t, ph')]> threads.
Proof.
  unfold pool_step. intros Hs.
  destruct (may_step self threads i); [|left; injection Hs as <- <-; auto].
  destruct (threads !! i) as [[t ph]|] eqn:Ei; [|left; injection Hs as <- <-; auto].
  destruct (thread_step self t ph w) as [ph' w1] eqn:Et.
  injection Hs as <- <-. right. exists t, ph, ph'. auto.
Qed.

(** What holds before and after every step of a thread holds before and
    after every schedule. *)
Lemma run_schedule_invariant (I : list thread -> World -> Prop) :
  (forall i threads w t ph ph' w',
     I threads w -> threads !! i = Some (t, ph) ->
     thread_step self t ph w = (ph', w') ->
     I (<[i := (t, ph')]> threads) w') ->
  forall schedule threads w,
    I threads w ->
    I (fst (run_schedule self schedule threads w))
      (snd (run_schedule self schedule threads w)).
Proof.
  intros Hstep. induction schedule as [|i schedule IH]; intros threads w HI; simpl.
  - exact HI.
  - destruct (pool_step self i threads w) as [threads1 w1] eqn:Ep.
    apply IH.
    apply pool_step_cases in Ep as [[-> ->]|(t & ph & ph' & Hi & Ht & ->)];
      [exact HI|].
    eapply Hstep; eassumption.
Qed.

(** *** The files that were there are kept *)

Lemma write_file_keeps_from w0 p data w b w' :
  keeps w0 w -> files w0 !! p = None ->
  write_file p data w = (b, w') -> keeps w0 w'.
Proof.
  intros (Hf & Hd & added & Ht & Ho) Hnone Hw.
  apply write_file_cases in Hw as [[_ ->]|(_ & _ & n & -> & _)].
  - split; [exact Hf|]. split; [exact Hd|]. exists added. auto.
  - split; [|split].
    + intros q d Hq. simpl. rewrite lookup_insert_ne; [apply Hf, Hq|]. congruence.
    + intros q Hq. apply Hd in Hq. destruct q; [reflexivity|exact Hq].
    + exists (added ++ [Open p]). split; [simpl; rewrite Ht, app_assoc; reflexivity|].
      intros q Hin. apply in_app_or in Hin as [Hin|[[= <-]|[]]]; auto.
Qed.

Lemma download_request_keeps url w : keeps w (snd (download_request url w)).
Proof.
  rewrite download_request_world.
  eapply keeps_trans; apply keeps_emit_quiet; discriminate.
Qed.

Lemma download_store_keeps_from w0 save_path image_data w r w' :
  keeps w0 w -> files w0 !! save_path = None ->
  download_store save_path image_data w = (r, w') -> keeps w0 w'.
Proof.
  intros Hk Hnone Hs.
  apply download_store_cases in Hs as [[_ ->]|(w2 & b & Hm & Hw & _)]; [exact Hk|].
  apply mkdir_parents_keeps in Hm.
  eapply write_file_keeps_from; [|exact Hnone|exact Hw].
  eapply keeps_trans; eassumption.
Qed.

Lemma after_failure_keeps retries w ph' w' :
  after_failure self retries w = (ph', w') ->
  keeps w w' /\ forall w0 t, may_write w0 (t, ph').
Proof.
  unfold after_failure. intros Ha.
  destruct (Z.of_nat retries <? max_retries self); injection Ha as <- <-.
  - split; [apply keeps_emit_quiet; discriminate|]. intros w0 t. exact I.
  - split; [apply keeps_refl|]. intros w0 t. exact I.
Qed.

Lemma keeps_none w0 w p : keeps w0 w -> files w !! p = None -> files w0 !! p = None.
Proof.
  intros (Hf & _) Hnone. destruct (files w0 !! p) as [d|] eqn:E; [|reflexivity].
  apply Hf in E. congruence.
Qed.

Lemma thread_step_keeps w0 t ph w ph' w' :
  keeps w0 w -> may_write w0 (t, ph) ->
  thread_step self t ph w = (ph', w') ->
  keeps w0 w' /\ may_write w0 (t, ph').
Proof.
  intros Hk Hmay Hs.
  destruct ph as [|retries|retries|retries image_data|success]; simpl in Hs.
  - injection Hs as <- <-. split; [exact Hk|exact I].
  - destruct (path_exists w (task_local_path t)) eqn:Ex; injection Hs as <- <-.
    + split; [exact Hk|exact I].
    + split; [exact Hk|]. apply path_exists_false in Ex as [Hnone _].
      exact (keeps_none _ _ _ Hk Hnone).
  - pose proof (download_request_keeps (task_url t) w) as Hr.
    destruct (download_request (task_url t) w) as [[image_data|] w1]; simpl in Hr.
    + injection Hs as <- <-. split; [eapply keeps_trans; eassumption|exact Hmay].
    + apply after_failure_keeps in Hs as [Ha Hany].
      split; [|apply Hany].
      eapply keeps_trans; [exact Hk|]. eapply keeps_trans; eassumption.
  - destruct (download_store (task_local_path t) image_data w) as [[b|] w1] eqn:Ed.
    + injection Hs as <- <-.
      split; [exact (download_store_keeps_from _ _ _ _ _ _ Hk Hmay Ed)|].
      destruct b; exact I.
    + pose proof (download_store_keeps_from _ _ _ _ _ _ Hk Hmay Ed) as Hk1.
      apply after_failure_keeps in Hs as [Ha Hany].
      split; [eapply keeps_trans; eassumption|apply Hany].
  - injection Hs as <- <-. split; [exact Hk|exact I].
Qed.

Lemma retry_or_stop_keeps t retries w : keeps w (snd (retry_or_stop self t retries w)).
Proof.
  unfold retry_or_stop.
  destruct (Z.of_nat retries <? max_retries self); [|apply keeps_refl].
  eapply keeps_trans; [|apply download_image_keeps].
  apply keeps_emit_quiet. discriminate.
Qed.

Lemma finish_keeps w0 t ph w :
  keeps w0 w -> may_write w0 (t, ph) -> keeps w0 (snd (finish self t ph w)).
Proof.
  intros Hk Hmay.
  destruct ph as [|retries|retries|retries image_data|success]; simpl.
  - eapply keeps_trans; [exact Hk|apply download_image_keeps].
  - eapply keeps_trans; [exact Hk|apply download_image_keeps].
  - pose proof (download_request_keeps (task_url t) w) as Hr.
    destruct (download_request (task_url t) w) as [[image_data|] w1]; simpl in Hr.
    + assert (Hk1 : keeps w0 w1) by (eapply keeps_trans; eassumption).
      destruct (download_store (task_local_path t) image_data w1) as [[b|] w2] eqn:Ed;
        pose proof (download_store_keeps_from _ _ _ _ _ _ Hk1 Hmay Ed) as Hk2.
      * exact Hk2.
      * eapply keeps_trans; [exact Hk2|apply retry_or_stop_keeps].
    + eapply keeps_trans; [exact Hk|].
      eapply keeps_trans; [exact Hr|apply retry_or_stop_keeps].
  - destruct (download_store (task_local_path t) image_data w) as [[b|] w2] eqn:Ed;
      pose proof (download_store_keeps_from _ _ _ _ _ _ Hk Hmay Ed) as Hk2.
    + exact Hk2.
    + eapply keeps_trans; [exact Hk2|apply retry_or_stop_keeps].
  - exact Hk.
Qed.

Lemma run_schedule_keeps w0 schedule threads w :
  keeps w0 w -> Forall (may_write w0) threads ->
  keeps w0 (snd (run_schedule self schedule threads w)) /\
  Forall (may_write w0) (fst (run_schedule self schedule threads w)).
Proof.
  intros Hk Hall.
  apply (run_schedule_invariant
           (fun threads w => keeps w0 w /\ Forall (may_write w0) threads));
    [|auto].
  clear. intros i threads w t ph ph' w' [Hk Hall] Hi Hs.
  destruct (thread_step_keeps w0 t ph w ph' w' Hk) as [Hk' Hmay]; [|exact Hs|].
  { rewrite Forall_forall in Hall. apply (Hall (t, ph)).
    apply list_elem_of_lookup. eauto. }
  split; [exact Hk'|]. apply Forall_insert; assumption.
Qed.

Lemma drain_keeps w0 threads : forall w,
  keeps w0 w -> Forall (may_write w0) threads ->
  keeps w0 (snd (drain self threads w)).
Proof.
  induction threads as [|[t ph] threads IH]; intros w Hk Hall; simpl; [exact Hk|].
  inversion Hall as [|th ths Hmay Hrest]; subst.
  pose proof (finish_keeps w0 t ph w Hk Hmay) as Hk1.
  destruct (finish self t ph w) as [success w1]. simpl in Hk1.
  specialize (IH w1 Hk1 Hrest).
  destruct (drain self threads w1) as [others w2]. exact IH.
Qed.

Lemma queued_may_write w0 tasks : Forall (may_write w0) (queued tasks).
Proof.
  apply Forall_forall. intros th Hin.
  apply list_elem_of_In, in_map_iff in Hin as (t & <- & _). exact I.
Qed.

(** Whatever the order of the steps, the pool keeps every file that was
    there when it started, and does not open it. *)
Lemma run_pool_keeps tasks w : keeps w (snd (run_pool self tasks w)).
Proof.
  unfold run_pool.
  destruct (run_schedule_keeps w (interleaving (moment w)) (queued tasks) w
              (keeps_refl w) (queued_may_write w tasks)) as [Hk Hall].
  destruct (run_schedule self _ (queued tasks) w) as [threads w1].
  apply drain_keeps; assumption.
Qed.

(** *** One result for each call *)

Lemma run_schedule_tasks schedule threads w :
  map fst (fst (run_schedule self schedule threads w)) = map fst threads.
Proof.
  apply (run_schedule_invariant (fun threads' _ => map fst threads' = map fst threads));
    [|reflexivity].
  intros i threads0 w0 t ph ph' w' Heq Hi _.
  rewrite (map_fst_insert _ _ _ _ _ Hi). exact Heq.
Qed.

Lemma drain_length threads : forall w,
  length (fst (drain self threads w)) = length threads.
Proof.
  induction threads as [|[t ph] threads IH]; intros w; simpl; [reflexivity|].
  destruct (finish self t ph w) as [success w1]. specialize (IH w1).
  destruct (drain self threads w1) as [others w2]. simpl in *. rewrite IH. reflexivity.
Qed.

Lemma run_pool_length tasks w : length (fst (run_pool self tasks w)) = length tasks.
Proof.
  unfold run_pool.
  pose proof (run_schedule_tasks (interleaving (moment w)) (queued tasks) w) as Ht.
  destruct (run_schedule self _ (queued tasks) w) as [threads w1]. simpl in Ht.
  rewrite drain_length.
  apply (f_equal (@length Task)) in Ht. unfold queued in Ht.
  rewrite !List.length_map in Ht. exact Ht.
Qed.

End PoolFacts.


(** *** The requests of the pool *)

Lemma requests_to_emit url e w :
  requests_to url (trace (emit e w)) =
  (requests_to url (trace w) +
   match e with
   | Get u => if str_eqb url u then 1 else 0
   | _ => 0
   end)%nat.
Proof.
  unfold emit. cbn [trace]. rewrite requests_to_app.
  destruct e as [ms|u|p]; try reflexivity.
  unfold requests_to at 2. cbn [gets flat_map app List.filter].
  destruct (str_eqb url u); reflexivity.
Qed.

Lemma accounts_refl url w : accounts url 0 w w.
Proof. intros u. destruct (str_eqb u url); lia. Qed.

Lemma accounts_trans url n m w1 w2 w3 :
  accounts url n w1 w2 -> accounts url m w2 w3 -> accounts url (n + m) w1 w3.
Proof.
  intros H12 H23 u. rewrite (H23 u), (H12 u). destruct (str_eqb u url); lia.
Qed.

Lemma accounts_same_trace url w w' : trace w' = trace w -> accounts url 0 w w'.
Proof. intros Ht u. rewrite Ht. destruct (str_eqb u url); lia. Qed.

Lemma accounts_quiet url e w :
  (forall u, e <> Get u) -> accounts url 0 w (emit e w).
Proof.
  intros Hq u. rewrite requests_to_emit.
  destruct e as [ms|u'|p]; [| exfalso; exact (Hq u' eq_refl) |];
    destruct (str_eqb u url); lia.
Qed.

Lemma total_cons f th threads : total f (th :: threads) = (f th + total f threads)%nat.
Proof. reflexivity. Qed.

Lemma successes_to_cons u t tasks b results :
  successes_to u (t :: tasks) (b :: results) =
  ((if str_eqb u (task_url t) && b then 1 else 0) + successes_to u tasks results)%nat.
Proof.
  unfold successes_to. cbn [combine List.filter fst snd].
  destruct (str_eqb u (task_url t) && b); reflexivity.
Qed.

Lemma calls_to_cons u t tasks :
  calls_to u (t :: tasks) =
  ((if str_eqb u (task_url t) then 1 else 0) + calls_to u tasks)%nat.
Proof.
  unfold calls_to. cbn [List.filter]. destruct (str_eqb u (task_url t)); reflexivity.
Qed.

Section PoolRequests.
Context `{PyLib} `{Outside}.
Variable self : MarkdownImageDownloader.

Lemma download_request_accounts url w :
  accounts url 1 w (snd (download_request url w)).
Proof.
  rewrite download_request_world. intros u. rewrite !requests_to_emit. lia.
Qed.

Lemma download_store_accounts url save_path image_data w r w' :
  download_store save_path image_data w = (r, w') ->
  accounts url 0 w w' /\ r <> Some false.
Proof.
  intros Hs. apply download_store_cases in Hs as [[-> ->]|(w2 & b & Hm & Hw & ->)].
  { split; [apply accounts_refl|discriminate]. }
  split; [|destruct b; discriminate].
  apply mkdir_parents_trace in Hm. apply write_file_trace in Hw.
  intros u. destruct Hw as [-> | ->]; rewrite ?requests_to_app, Hm;
    unfold requests_to; simpl; destruct (str_eqb u url); lia.
Qed.

Lemma after_failure_accounts url retries w ph' w' :
  after_failure self retries w = (ph', w') ->
  accounts url 0 w w' /\
  (requests_left self ph' = Z.to_nat (max_retries self - Z.of_nat retries)) /\
  requests_spared self ph' = 0%nat.
Proof.
  unfold after_failure. intros Ha.
  destruct (Z.ltb_spec (Z.of_nat retries) (max_retries self)); injection Ha as <- <-.
  - split; [apply accounts_quiet; discriminate|]. simpl. split; [lia|reflexivity].
  - split; [apply accounts_refl|]. simpl. split; [lia|reflexivity].
Qed.

(** What a step of a thread adds to the requests, and takes from those
    that the thread has before it. *)
Lemma thread_step_accounts t ph w ph' w' :
  thread_step self t ph w = (ph', w') ->
  exists n,
    accounts (task_url t) n w w' /\
    (n + requests_left self ph' <= requests_left self ph)%nat /\
    (requests_left self ph + requests_spared self ph <=
     n + requests_left self ph' + requests_spared self ph')%nat.
Proof.
  intros Hs.
  destruct ph as [|retries|retries|retries image_data|success]; simpl in Hs.
  - injection Hs as <- <-. exists 0%nat. split; [apply accounts_refl|]. simpl. lia.
  - destruct (path_exists w (task_local_path t)); injection Hs as <- <-;
      exists 0%nat; (split; [apply accounts_refl|]); simpl; lia.
  - pose proof (download_request_accounts (task_url t) w) as Hr.
    destruct (download_request (task_url t) w) as [[image_data|] w1]; simpl in Hr.
    + injection Hs as <- <-. exists 1%nat. split; [exact Hr|]. simpl. lia.
    + apply (after_failure_accounts (task_url t)) in Hs as (Ha & Hleft & Hspared).
      exists 1%nat. split; [apply (accounts_trans _ 1 0 _ _ _ Hr Ha)|].
      rewrite Hleft, Hspared. simpl. lia.
  - destruct (download_store (task_local_path t) image_data w) as [[b|] w1] eqn:Ed;
      apply (download_store_accounts (task_url t)) in Ed as [Hd Hb].
    + injection Hs as <- <-. exists 0%nat. split; [exact Hd|].
      destruct b; [|congruence]. simpl. lia.
    + apply (after_failure_accounts (task_url t)) in Hs as (Ha & Hleft & Hspared).
      exists 0%nat. split; [apply (accounts_trans _ 0 0 _ _ _ Hd Ha)|].
      rewrite Hleft, Hspared. simpl. lia.
  - injection Hs as <- <-. exists 0%nat. split; [apply accounts_refl|]. lia.
Qed.

Lemma download_try_accounts url save_path w r w' :
  download_try url save_path w = (r, w') ->
  exists n, accounts url n w w' /\ (n <= 1)%nat /\ (r = None -> n = 1%nat) /\
            r <> Some false.
Proof.
  rewrite download_try_split. intros Ht.
  destruct (path_exists w save_path).
  { injection Ht as <- <-. exists 0%nat.
    split; [apply accounts_refl|]. split; [lia|]. split; discriminate. }
  pose proof (download_request_accounts url w) as Hr.
  destruct (download_request url w) as [[image_data|] w1]; simpl in Hr.
  - apply (download_store_accounts url) in Ht as [Hd Hb].
    exists 1%nat. split; [apply (accounts_trans _ 1 0 _ _ _ Hr Hd)|]. auto.
  - injection Ht as <- <-. exists 1%nat. split; [exact Hr|].
    split; [lia|]. split; [reflexivity|discriminate].
Qed.

(** A call of [download_image] makes at most one request for each of the
    tries that it has, and all of them when it returns [False]. *)
Lemma download_image_accounts url save_path retries w :
  exists n,
    accounts url n w (snd (download_image self url save_path retries w)) /\
    (n <= 1 + Z.to_nat (max_retries self - Z.of_nat retries))%nat /\
    (fst (download_image self url save_path retries w) = false ->
     n = (1 + Z.to_nat (max_retries self - Z.of_nat retries))%nat).
Proof.
  remember (Z.to_nat (max_retries self - Z.of_nat retries)) as m eqn:Hm.
  revert retries w Hm. induction m as [|m IH]; intros retries w Hm;
    rewrite download_image_eq;
    destruct (download_try url save_path w) as [[result|] w1] eqn:Et;
    apply download_try_accounts in Et as (n1 & Ha1 & Hle1 & Hnone1 & Hr1).
  - exists n1. cbn [fst snd]. split; [exact Ha1|]. split; [lia|].
    intros ->. congruence.
  - destruct (Z.ltb_spec (Z.of_nat retries) (max_retries self)) as [Hlt|Hge]; [lia|].
    exists n1. cbn [fst snd]. split; [exact Ha1|]. specialize (Hnone1 eq_refl). lia.
  - exists n1. cbn [fst snd]. split; [exact Ha1|]. split; [lia|].
    intros ->. congruence.
  - destruct (Z.ltb_spec (Z.of_nat retries) (max_retries self)) as [Hlt|Hge]; [|lia].
    destruct (IH (S retries) (emit (Sleep (1000 * 2 ^ Z.of_nat retries)) w1))
      as (n2 & Ha2 & Hle2 & Hfalse2); [lia|].
    specialize (Hnone1 eq_refl). subst n1.
    exists (1 + (0 + n2))%nat. split.
    { eapply accounts_trans; [exact Ha1|].
      eapply accounts_trans; [|exact Ha2]. apply accounts_quiet. discriminate. }
    split; [lia|]. intros Hf. specialize (Hfalse2 Hf). lia.
Qed.

Lemma retry_or_stop_accounts t retries w :
  exists n,
    accounts (task_url t) n w (snd (retry_or_stop self t retries w)) /\
    (n <= Z.to_nat (max_retries self - Z.of_nat retries))%nat /\
    (fst (retry_or_stop self t retries w) = false ->
     n = Z.to_nat (max_retries self - Z.of_nat retries)).
Proof.
  unfold retry_or_stop.
  destruct (Z.ltb_spec (Z.of_nat retries) (max_retries self)) as [Hlt|Hge].
  - destruct (download_image_accounts (task_url t) (task_local_path t) (S retries)
                (emit (Sleep (1000 * 2 ^ Z.of_nat retries)) w))
      as (n & Ha & Hle & Hfalse).
    exists (0 + n)%nat. split.
    { eapply accounts_trans; [|exact Ha]. apply accounts_quiet. discriminate. }
    split; [lia|]. intros Hf. specialize (Hfalse Hf). lia.
  - exists 0%nat. cbn [fst snd]. split; [apply accounts_refl|]. lia.
Qed.

(** What a thread that goes on to its end adds to the requests. *)
Lemma finish_accounts t ph w :
  exists n,
    accounts (task_url t) n w (snd (finish self t ph w)) /\
    (n <= requests_left self ph)%nat /\
    (requests_left self ph + requests_spared self ph <=
     n + requests_spared self (Finished (fst (finish self t ph w))))%nat.
Proof.
  destruct ph as [|retries|retries|retries image_data|success]; simpl.
  - destruct (download_image_accounts (task_url t) (task_local_path t) 0 w)
      as (n & Ha & Hle & Hfalse).
    exists n. split; [exact Ha|]. split; [lia|].
    destruct (fst (download_image self _ _ 0 w)); [lia|].
    specialize (Hfalse eq_refl). lia.
  - destruct (download_image_accounts (task_url t) (task_local_path t) retries w)
      as (n & Ha & Hle & Hfalse).
    exists n. split; [exact Ha|]. split; [lia|].
    destruct (fst (download_image self _ _ retries w)); [lia|].
    specialize (Hfalse eq_refl). lia.
  - pose proof (download_request_accounts (task_url t) w) as Hr.
    destruct (download_request (task_url t) w) as [[image_data|] w1]; simpl in Hr.
    + destruct (download_store (task_local_path t) image_data w1) as [[b|] w2] eqn:Ed;
        apply (download_store_accounts (task_url t)) in Ed as [Hd Hb].
      * exists (1 + 0)%nat. split; [eapply accounts_trans; eassumption|].
        destruct b; [|congruence]. cbn [fst]. lia.
      * destruct (retry_or_stop_accounts t retries w2) as (n & Ha & Hle & Hfalse).
        exists (1 + (0 + n))%nat. split.
        { eapply accounts_trans; [exact Hr|]. eapply accounts_trans; eassumption. }
        split; [lia|].
        destruct (fst (retry_or_stop self t retries w2)); [lia|].
        specialize (Hfalse eq_refl). lia.
    + destruct (retry_or_stop_accounts t retries w1) as (n & Ha & Hle & Hfalse).
      exists (1 + n)%nat. split; [eapply accounts_trans; eassumption|].
      split; [lia|].
      destruct (fst (retry_or_stop self t retries w1)); [lia|].
      specialize (Hfalse eq_refl). lia.
  - destruct (download_store (task_local_path t) image_data w) as [[b|] w2] eqn:Ed;
      apply (download_store_accounts (task_url t)) in Ed as [Hd Hb].
    + exists 0%nat. split; [exact Hd|]. destruct b; [|congruence]. cbn [fst]. lia.
    + destruct (retry_or_stop_accounts t retries w2) as (n & Ha & Hle & Hfalse).
      exists (0 + n)%nat. split; [eapply accounts_trans; eassumption|].
      split; [lia|].
      destruct (fst (retry_or_stop self t retries w2)); [lia|].
      specialize (Hfalse eq_refl). lia.
  - exists 0%nat. split; [apply accounts_refl|]. destruct success; simpl; lia.
Qed.

(** Over a schedule the requests made and those that the threads have
    before them never add up to more, and with those that were spared
    never to less. *)
Lemma run_schedule_requests u schedule threads w :
  let threads' := fst (run_schedule self schedule threads w) in
  let w' := snd (run_schedule self schedule threads w) in
  (requests_to u (trace w') + total (for_url u (requests_left self)) threads' <=
   requests_to u (trace w) + total (for_url u (requests_left self)) threads)%nat /\
  (requests_to u (trace w) +
     total (for_url u (requests_owed self)) threads <=
   requests_to u (trace w') +
     total (for_url u (requests_owed self)) threads')%nat.
Proof.
  cbv zeta.
  apply (run_schedule_invariant self (fun threads' w' =>
    (requests_to u (trace w') + total (for_url u (requests_left self)) threads' <=
     requests_to u (trace w) + total (for_url u (requests_left self)) threads)%nat /\
    (requests_to u (trace w) +
       total (for_url u (requests_owed self)) threads <=
     requests_to u (trace w') +
       total (for_url u (requests_owed self))
         threads')%nat)); [|lia].
  intros i threads0 w0 t ph ph' w1 [Hup Hlow] Hi Hs.
  apply thread_step_accounts in Hs as (n & Ha & Hle & Hge).
  pose proof (total_insert (for_url u (requests_left self)) threads0 i (t, ph) (t, ph') Hi)
    as Hup1.
  pose proof (total_insert
                (for_url u (requests_owed self))
                threads0 i (t, ph) (t, ph') Hi) as Hlow1.
  assert (Hf : forall f ph0,
            for_url u f (t, ph0) = if str_eqb u (task_url t) then f ph0 else 0%nat)
    by reflexivity.
  rewrite (Ha u). rewrite !Hf in Hup1, Hlow1.
  change (requests_owed self ph) with (requests_left self ph + requests_spared self ph)%nat
    in Hlow1.
  change (requests_owed self ph') with (requests_left self ph' + requests_spared self ph')%nat
    in Hlow1.
  destruct (str_eqb u (task_url t)); lia.
Qed.

Lemma drain_requests u threads : forall w,
  let results := fst (drain self threads w) in
  let w' := snd (drain self threads w) in
  (requests_to u (trace w') <=
   requests_to u (trace w) + total (for_url u (requests_left self)) threads)%nat /\
  (requests_to u (trace w) + total (for_url u (requests_owed self)) threads <=
   requests_to u (trace w') +
     successes_to u (map fst threads) results * (1 + Z.to_nat (max_retries self)))%nat.
Proof.
  cbv zeta. induction threads as [|[t ph] threads IH]; intros w.
  { simpl. unfold total, successes_to. simpl. lia. }
  cbn [drain].
  destruct (finish_accounts t ph w) as (n & Ha & Hle & Hge).
  destruct (finish self t ph w) as [success w1]. cbn [fst snd] in Ha, Hge.
  specialize (IH w1). destruct (drain self threads w1) as [others w2].
  cbn [fst snd map] in IH |- *. destruct IH as [Hup Hlow].
  rewrite !total_cons, successes_to_cons. unfold for_url at 1 3. cbn [fst snd].
  change (requests_owed self ph)
    with (requests_left self ph + requests_spared self ph)%nat.
  rewrite (Ha u) in Hup, Hlow.
  destruct (str_eqb u (task_url t)); cbn [andb].
  - destruct success; cbn [requests_spared] in *; lia.
  - lia.
Qed.

Lemma total_queued u tasks :
  total (for_url u (requests_left self)) (queued tasks) =
    (calls_to u tasks * (1 + Z.to_nat (max_retries self)))%nat /\
  total (for_url u (requests_owed self)) (queued tasks) =
    (calls_to u tasks * (1 + Z.to_nat (max_retries self)))%nat.
Proof.
  induction tasks as [|t tasks [IH1 IH2]]; [split; reflexivity|].
  change (queued (t :: tasks)) with ((t, Queued) :: queued tasks).
  rewrite !total_cons, calls_to_cons, IH1, IH2. unfold for_url at 1 2. cbn [fst snd].
  change (requests_owed self Queued) with (1 + Z.to_nat (max_retries self) + 0)%nat.
  destruct (str_eqb u (task_url t)); cbn [requests_left]; lia.
Qed.

(** The requests of the pool, whatever the order of the steps: for each
    url at most as many as its calls have tries, and all of them but for
    the calls that returned [True]. *)
Lemma run_pool_requests u tasks w :
  let results := fst (run_pool self tasks w) in
  let w' := snd (run_pool self tasks w) in
  (requests_to u (trace w') <=
   requests_to u (trace w) + calls_to u tasks * (1 + Z.to_nat (max_retries self)))%nat /\
  (requests_to u (trace w) + calls_to u tasks * (1 + Z.to_nat (max_retries self)) <=
   requests_to u (trace w') +
     successes_to u tasks results * (1 + Z.to_nat (max_retries self)))%nat.
Proof.
  cbv zeta. unfold run_pool.
  pose proof (run_schedule_requests u (interleaving (moment w)) (queued tasks) w)
    as [Hup Hlow].
  pose proof (run_schedule_tasks self (interleaving (moment w)) (queued tasks) w) as Ht.
  destruct (run_schedule self _ (queued tasks) w) as [threads w1].
  cbn [fst snd] in Hup, Hlow, Ht.
  assert (Hq : map fst (queued tasks) = tasks).
  { unfold queued. rewrite map_map. apply map_id. }
  rewrite Hq in Ht.
  destruct (total_queued u tasks) as [Hq1 Hq2]. rewrite Hq1 in Hup. rewrite Hq2 in Hlow.
  pose proof (drain_requests u threads w1) as [Hup2 Hlow2]. rewrite Ht in Hlow2.
  lia.
Qed.

End PoolRequests.
(** ** The claims about the coordinator *)

Lemma dict_set_keys {V} k (v : V) d :
  (In k (map fst d) /\ map fst (dict_set k v d) = map fst d) \/
  (~ In k (map fst d) /\ map fst (dict_set k v d) = map fst d ++ [k]).
Proof.
  induction d as [|[k' v'] d IH]; simpl.
  - right. auto.
  - destruct (str_eqb k' k) eqn:E; simpl.
    { apply str_eqb_eq in E. left. auto. }
    destruct IH as [[Hin IH]|[Hnot IH]]; rewrite IH; [left; auto|].
    right. split; [|reflexivity].
    intros [Heq|Hin]; [|contradiction]. subst. rewrite str_eqb_refl in E. discriminate.
Qed.

Lemma dict_set_NoDup {V} k (v : V) d :
  NoDup (map fst d) -> NoDup (map fst (dict_set k v d)).
Proof.
  intros Hd. destruct (dict_set_keys k v d) as [[_ ->]|[Hnot ->]]; [exact Hd|].
  apply NoDup_app. split; [exact Hd|]. split.
  - intros x Hx Hk. apply list_elem_of_singleton in Hk. subst x.
    apply list_elem_of_In in Hx. contradiction.
  - apply NoDup_singleton.
Qed.

Lemma dict_set_key_in {V} k (v : V) d k' :
  k' = k \/ In k' (map fst d) -> In k' (map fst (dict_set k v d)).
Proof.
  intros Hk. destruct (dict_set_keys k v d) as [[Hin ->]|[Hnot ->]].
  - destruct Hk as [->|Hk]; assumption.
  - apply in_or_app. destruct Hk as [->|Hk]; [right; left; reflexivity|left; exact Hk].
Qed.

Lemma dict_set_in {V} k (v : V) d k' v' :
  In (k', v') (dict_set k v d) -> (k' = k /\ v' = v) \/ In (k', v') d.
Proof.
  induction d as [|[k0 v0] d IH]; simpl.
  - intros [[= <- <-]|[]]. auto.
  - destruct (str_eqb k0 k) eqn:E.
    + apply str_eqb_eq in E. subst k0. intros [[= <- <-]|Hin]; auto.
    + intros [Heq|Hin]; [auto|]. destruct (IH Hin); auto.
Qed.

Lemma parent_path_join p name : parent (path_join p name) = p.
Proof. apply removelast_last. Qed.

Section CoordinatorFacts.
Context `{PyLib} `{Outside}.
Variable self : MarkdownImageDownloader.

(** *** The submit loop *)

Lemma submit_all_complete images_folder image_urls :
  forallb urlparse_ok (map fst image_urls) = true ->
  submit_all images_folder image_urls =
    (map (fun r => {| task_url := fst r;
                      task_original_text := snd r;
                      task_local_path :=
                        path_join images_folder (generate_filename (fst r) None) |})
       image_urls, true).
Proof.
  induction image_urls as [|[url text] rest IH]; intros Hok; [reflexivity|].
  cbn [map forallb fst] in Hok. apply andb_true_iff in Hok as [Hurl Hrest].
  cbn [submit_all]. rewrite Hurl, (IH Hrest). reflexivity.
Qed.

Lemma submit_all_lookup images_folder image_urls : forall i t,
  fst (submit_all images_folder image_urls) !! i = Some t ->
  exists url original_text,
    image_urls !! i = Some (url, original_text) /\
    t = {| task_url := url;
           task_original_text := original_text;
           task_local_path := path_join images_folder (generate_filename url None) |}.
Proof.
  induction image_urls as [|[url text] rest IH]; intros i t Hi; [discriminate|].
  cbn [submit_all] in Hi. destruct (urlparse_ok url); [|discriminate].
  destruct (submit_all images_folder rest) as [submitted complete].
  cbn [fst] in Hi, IH. destruct i as [|i].
  - injection Hi as <-. exists url, text. auto.
  - apply IH in Hi as (url' & text' & Hi & ->). exists url', text'. auto.
Qed.

(** *** The replacement map *)

Lemma collect_NoDup tasks results : NoDup (map fst (collect tasks results)).
Proof.
  unfold collect. generalize (as_completed (length tasks)). intros order.
  assert (Hgen : forall d : dict str, NoDup (map fst d) ->
    NoDup (map fst (fold_left (fun url_replacements i =>
      match tasks !! i, results !! i with
      | Some t, Some true =>
          dict_set (task_original_text t)
            (L "images/" ++ path_name (task_local_path t)) url_replacements
      | _, _ => url_replacements
      end) order d))).
  { induction order as [|i order IH]; intros d Hd; simpl; [exact Hd|].
    apply IH. destruct (tasks !! i) as [t|]; [|exact Hd].
    destruct (results !! i) as [[]|]; [|exact Hd|exact Hd].
    apply dict_set_NoDup. exact Hd. }
  apply Hgen. apply NoDup_nil_2.
Qed.

(** Every entry of the replacement map comes from a call that returned
    [True]. *)
Lemma collect_inv tasks results original_text relative_path :
  In (original_text, relative_path) (collect tasks results) ->
  exists i t,
    tasks !! i = Some t /\ results !! i = Some true /\
    task_original_text t = original_text /\
    relative_path = L "images/" ++ path_name (task_local_path t).
Proof.
  unfold collect. generalize (as_completed (length tasks)). intros order.
  assert (Hgen : forall d : dict str,
    (forall k v, In (k, v) d ->
       exists i t, tasks !! i = Some t /\ results !! i = Some true /\
         task_original_text t = k /\ v = L "images/" ++ path_name (task_local_path t)) ->
    forall k v,
      In (k, v) (fold_left (fun url_replacements i =>
        match tasks !! i, results !! i with
        | Some t, Some true =>
            dict_set (task_original_text t)
              (L "images/" ++ path_name (task_local_path t)) url_replacements
        | _, _ => url_replacements
        end) order d) ->
      exists i t, tasks !! i = Some t /\ results !! i = Some true /\
        task_original_text t = k /\ v = L "images/" ++ path_name (task_local_path t)).
  { induction order as [|i order IH]; intros d Hd k v; simpl; [apply Hd|].
    apply IH. destruct (tasks !! i) as [t|] eqn:Et; [|exact Hd].
    destruct (results !! i) as [[]|] eqn:Er; [|exact Hd|exact Hd].
    intros k' v' Hin. apply dict_set_in in Hin as [[-> ->]|Hin]; [|apply Hd, Hin].
    exists i, t. auto. }
  apply Hgen. intros k v [].
Qed.

(** Every call that returned [True] has the matched text of its reference
    among the keys of the replacement map. *)
Lemma collect_complete tasks results i t :
  tasks !! i = Some t -> results !! i = Some true ->
  In (task_original_text t) (map fst (collect tasks results)).
Proof.
  intros Hi Hr. unfold collect.
  assert (Hin : In i (as_completed (length tasks))).
  { eapply Permutation_in; [symmetry; apply as_completed_perm|].
    apply in_seq. apply lookup_lt_Some in Hi. lia. }
  revert Hin. generalize (as_completed (length tasks)). intros order Hin.
  assert (Hgen : forall d : dict str,
    In i order \/ In (task_original_text t) (map fst d) ->
    In (task_original_text t) (map fst (fold_left (fun url_replacements j =>
      match tasks !! j, results !! j with
      | Some t', Some true =>
          dict_set (task_original_text t')
            (L "images/" ++ path_name (task_local_path t')) url_replacements
      | _, _ => url_replacements
      end) order d))).
  { clear Hin. induction order as [|j order IH]; intros d Hd; simpl.
    { destruct Hd as [[]|Hd]. exact Hd. }
    apply IH. destruct Hd as [[->|Hlater]|Hd].
    - right. rewrite Hi, Hr. apply dict_set_key_in. left. reflexivity.
    - left. exact Hlater.
    - right. destruct (tasks !! j) as [t'|]; [|exact Hd].
      destruct (results !! j) as [[]|]; [|exact Hd|exact Hd].
      apply dict_set_key_in. right. exact Hd. }
  apply Hgen. left. exact Hin.
Qed.

(** *** What [process_markdown_file] does to the world *)

Lemma update_document_world md_file content url_replacements w :
  snd (update_document md_file content url_replacements w) = w \/
  exists data,
    snd (update_document md_file content url_replacements w) =
      put_file md_file data (emit (Open md_file) w).
Proof.
  unfold update_document. destruct url_replacements as [|entry entries]; [auto|].
  destruct (encode_text _) as [data|].
  - destruct (write_file md_file data w) as [b w3] eqn:Ew.
    apply write_file_cases in Ew as [[-> ->]|(_ & _ & n & -> & _)]; [auto|].
    right. eexists. destruct b; reflexivity.
  - destruct (write_file md_file [] w) as [b w3] eqn:Ew.
    apply write_file_cases in Ew as [[-> ->]|(_ & _ & n & -> & _)]; [auto|].
    right. eexists. reflexivity.
Qed.

Lemma download_and_update_world md_file content images_folder image_urls w :
  exists wt,
    keeps w wt /\
    (snd (download_and_update self md_file content images_folder image_urls w) = wt \/
     exists data,
       snd (download_and_update self md_file content images_folder image_urls w) =
         put_file md_file data (emit (Open md_file) wt)).
Proof.
  unfold download_and_update.
  destruct (max_workers self <=? 0); [exists w; split; [apply keeps_refl|auto]|].
  destruct (submit_all images_folder image_urls) as [future_to_url complete].
  pose proof (run_pool_keeps self future_to_url w) as Hk.
  destruct (run_pool self future_to_url w) as [results w2]. cbn [snd] in Hk.
  exists w2. split; [exact Hk|].
  destruct complete; [apply update_document_world|auto].
Qed.

(** The steps up to the end of the downloads keep every file, and the
    last one may write the document. *)
Lemma process_markdown_file_world md_file w :
  exists wt,
    keeps w wt /\
    (snd (process_markdown_file self md_file w) = wt \/
     exists data,
       snd (process_markdown_file self md_file w) =
         put_file md_file data (emit (Open md_file) wt)).
Proof.
  unfold process_markdown_file.
  destruct (read_file w md_file) as [content|];
    [|exists w; split; [apply keeps_refl|left; reflexivity]].
  destruct (extract_image_urls content) as [|ref refs] eqn:Erefs;
    [exists w; split; [apply keeps_refl|left; reflexivity]|].
  destruct (mkdir _ w) as [w1|] eqn:Em;
    [|exists w; split; [apply keeps_refl|left; reflexivity]].
  apply mkdir_keeps in Em.
  destruct (download_and_update_world md_file content
              (path_join (parent md_file) (L "images")) (ref :: refs) w1)
    as (wt & Hk & Hend).
  exists wt. split; [eapply keeps_trans; eassumption|exact Hend].
Qed.

(** A file that is there is never written again by a call that starts
    after it: a fetch whose destination exists returns [True] at once, with
    no request, no wait and no write; [download_image] leaves every file of
    the world with its content and does not open it, whatever its
    arguments, and so does [process_markdown_file], whatever the order in
    which the threads of its pool take their steps, for every file but the
    document that it rewrites. *)
Theorem existing_file_is_never_overwritten :
  (forall url save_path retries w,
     path_exists w save_path = true ->
     download_image self url save_path retries w = (true, w)) /\
  (forall url save_path retries w q data,
     files w !! q = Some data ->
     let w' := snd (download_image self url save_path retries w) in
     files w' !! q = Some data /\
     exists added, trace w' = trace w ++ added /\ ~ In (Open q) added) /\
  (forall md_file w q data,
     q <> md_file ->
     files w !! q = Some data ->
     let w' := snd (process_markdown_file self md_file w) in
     files w' !! q = Some data /\
     exists added, trace w' = trace w ++ added /\ ~ In (Open q) added).
Proof.
  split; [|split].
  - intros url save_path retries w Hex.
    rewrite download_image_eq. unfold download_try. rewrite Hex. reflexivity.
  - intros url save_path retries w q data Hq w'.
    destruct (download_image_keeps self url save_path retries w)
      as (Hf & _ & added & Ht & Ho).
    split; [apply Hf, Hq|]. exists added. split; [exact Ht|].
    intros Hin. apply Ho in Hin. congruence.
  - intros md_file w q data Hne Hq w'. subst w'.
    destruct (process_markdown_file_world md_file w)
      as (wt & (Hf & _ & added & Ht & Ho) & [-> | [d ->]]).
    + split; [apply Hf, Hq|]. exists added. split; [exact Ht|].
      intros Hin. apply Ho in Hin. congruence.
    + simpl. rewrite lookup_insert_ne by congruence.
      split; [apply Hf, Hq|]. exists (added ++ [Open md_file]).
      split; [rewrite Ht, app_assoc; reflexivity|].
      intros Hin. apply in_app_or in Hin as [Hin|[[= Heq]|[]]].
      * apply Ho in Hin. congruence.
      * congruence.
Qed.

(** C5 (amended): when [urlparse] accepts every url and the pool has a
    worker, the coordinator submits one call of [download_image] for every
    extracted reference, in the order of extraction, also when several
    references have the same url, and the pool runs every one of them to
    its result.  Whatever the order in which the threads take their steps,
    the requests to a url are at most as many as the tries of the calls
    for it, and all of these but for the tries of its calls that returned
    [True]; so when every call returns [False], a url with [n] references
    is requested [n] times the number of tries.  What is free of
    duplicates is the replacement map: its keys are the matched texts of
    the calls that returned [True], each of them once, and the value of a
    key is images/ and the name generated for the url of such a call. *)
Theorem one_fetch_per_reference md_file content :
  let image_urls := extract_image_urls content in
  let images_folder := path_join (parent md_file) (L "images") in
  let tries := (1 + Z.to_nat (max_retries self))%nat in
  forallb urlparse_ok (map fst image_urls) = true ->
  0 < max_workers self ->
  exists future_to_url,
    submit_all images_folder image_urls = (future_to_url, true) /\
    map task_url future_to_url = map fst image_urls /\
    map task_original_text future_to_url = map snd image_urls /\
    forall w,
      let results := fst (run_pool self future_to_url w) in
      let w' := snd (run_pool self future_to_url w) in
      download_and_update self md_file content images_folder image_urls w =
        update_document md_file content (collect future_to_url results) w' /\
      length results = length image_urls /\
      (exists added,
         trace w' = trace w ++ added /\
         forall url,
           (requests_to url added <= calls_to url future_to_url * tries)%nat /\
           (calls_to url future_to_url * tries <=
            requests_to url added + successes_to url future_to_url results * tries)%nat /\
           (Forall (eq false) results ->
            requests_to url added = (calls_to url future_to_url * tries)%nat)) /\
      NoDup (map fst (collect future_to_url results)) /\
      (forall original_text,
         In original_text (map fst (collect future_to_url results)) <->
         exists i t,
           future_to_url !! i = Some t /\ results !! i = Some true /\
           task_original_text t = original_text) /\
      (forall original_text relative_path,
         In (original_text, relative_path) (collect future_to_url results) ->
         exists i url,
           image_urls !! i = Some (url, original_text) /\
           results !! i = Some true /\
           relative_path = L "images/" ++ generate_filename url None).
Proof.
  intros image_urls images_folder tries Hok Hworkers.
  pose proof (submit_all_complete images_folder image_urls Hok) as Hsub.
  remember (fst (submit_all images_folder image_urls)) as future_to_url eqn:Hfut.
  rewrite Hsub in Hfut. cbn [fst] in Hfut.
  exists future_to_url. split; [rewrite Hsub, Hfut; reflexivity|].
  assert (Hsub' : submit_all images_folder image_urls = (future_to_url, true))
    by (rewrite Hsub, Hfut; reflexivity).
  assert (Hlen : length future_to_url = length image_urls)
    by (rewrite Hfut; apply List.length_map).
  split; [rewrite Hfut, map_map; reflexivity|].
  split; [rewrite Hfut, map_map; reflexivity|].
  clear Hsub Hfut. rename Hsub' into Hsub.
  assert (Hlookup : forall i t, future_to_url !! i = Some t ->
            exists url original_text,
              image_urls !! i = Some (url, original_text) /\
              t = {| task_url := url;
                     task_original_text := original_text;
                     task_local_path :=
                       path_join images_folder (generate_filename url None) |}).
  { intros i t Hi. apply (submit_all_lookup images_folder image_urls).
    rewrite Hsub. exact Hi. }
  intros w results w'. split; [|split; [|split; [|split; [|split]]]].
  - unfold download_and_update.
    destruct (Z.leb_spec (max_workers self) 0) as [Hle|_]; [lia|].
    rewrite Hsub. subst results w'.
    destruct (run_pool self future_to_url w) as [rs w2]. reflexivity.
  - subst results. rewrite run_pool_length. exact Hlen.
  - destruct (run_pool_keeps self future_to_url w) as (_ & _ & added & Ht & _).
    exists added. split; [exact Ht|]. intros url.
    set (rs := fst (run_pool self future_to_url w)) in *.
    pose proof (run_pool_requests self url future_to_url w) as [Hup Hlow].
    cbv zeta in Hup, Hlow. subst results w'.
    rewrite Ht, requests_to_app in Hup, Hlow.
    fold tries in Hup, Hlow. fold rs in Hlow. clearbody tries rs.
    split; [lia|]. split; [lia|].
    intros Hall.
    assert (Hnone : successes_to url future_to_url rs = 0%nat).
    { unfold successes_to. clear -Hall. revert rs Hall.
      induction future_to_url as [|t ts IH]; intros rs Hall; [reflexivity|].
      destruct rs as [|b rs]; [reflexivity|].
      inversion Hall as [|b' rs' Hb Hrs]; subst. cbn [combine List.filter fst snd].
      rewrite andb_false_r. apply IH. exact Hrs. }
    rewrite Hnone in Hlow. lia.
  - apply collect_NoDup.
  - intros original_text. split.
    + intros Hin. apply in_map_iff in Hin as ([k v] & <- & Hin).
      apply collect_inv in Hin as (i & t & Hi & Hr & Hk & _). exists i, t. auto.
    + intros (i & t & Hi & Hr & <-). exact (collect_complete _ _ i t Hi Hr).
  - intros original_text relative_path Hin.
    apply collect_inv in Hin as (i & t & Hi & Hr & <- & ->).
    apply Hlookup in Hi as (url & text & Href & ->).
    exists i, url. cbn [task_original_text task_local_path].
    split; [exact Href|]. split; [exact Hr|].
    unfold path_name, path_join. rewrite last_last. reflexivity.
Qed.

(** C6 (amended): the [images] folder beside a document is made as soon
    as the document is read and has a qualifying remote reference: before
    any request and any write of the call, which all come after, and
    whether or not a download succeeds; the folder is there at the end.  A
    document that cannot be read or has no such reference leaves the world
    as it is, with no folder made and the text untouched, so a folder that
    appears shows a reference, not a download. *)
Theorem images_folder_made_when_references_found md_file w :
  let images_folder := path_join (parent md_file) (L "images") in
  let w' := snd (process_markdown_file self md_file w) in
  (read_file w md_file = None -> process_markdown_file self md_file w = ([], w)) /\
  (forall content,
     read_file w md_file = Some content ->
     (extract_image_urls content = [] ->
        process_markdown_file self md_file w = ([], w)) /\
     (extract_image_urls content <> [] ->
        is_file w images_folder = false ->
        is_dir w (parent md_file) = true ->
        exists w1,
          mkdir images_folder w = Some w1 /\
          is_dir w1 images_folder = true /\
          files w1 = files w /\ trace w1 = trace w /\
          process_markdown_file self md_file w =
            download_and_update self md_file content images_folder
              (extract_image_urls content) w1 /\
          (exists added, trace w' = trace w1 ++ added) /\
          is_dir w' images_folder = true) /\
     (is_dir w' images_folder = true ->
        is_dir w images_folder = true \/ extract_image_urls content <> [])).
Proof.
  intros images_folder w'. subst w' images_folder. split.
  { intros Hread. unfold process_markdown_file. rewrite Hread. reflexivity. }
  intros content Hread. unfold process_markdown_file. rewrite Hread.
  destruct (extract_image_urls content) as [|ref refs] eqn:Erefs.
  { split; [reflexivity|]. split; [congruence|]. simpl. auto. }
  split; [discriminate|]. split; [|right; discriminate].
  intros _ Hfile Hparent.
  assert (Hm : exists w1, mkdir (path_join (parent md_file) (L "images")) w = Some w1 /\
                          is_dir w1 (path_join (parent md_file) (L "images")) = true /\
                          files w1 = files w /\ trace w1 = trace w).
  { unfold mkdir. destruct (is_dir w (path_join _ _)) eqn:Ed; [eauto|].
    rewrite Hfile, parent_path_join, Hparent.
    eexists. split; [reflexivity|]. split; [apply is_dir_add_dir_same|]. auto. }
  destruct Hm as (w1 & -> & Hd1 & Hf1 & Ht1).
  exists w1. split; [reflexivity|]. split; [exact Hd1|].
  split; [exact Hf1|]. split; [exact Ht1|]. split; [reflexivity|].
  destruct (download_and_update_world md_file content
              (path_join (parent md_file) (L "images")) (ref :: refs) w1)
    as (wt & (_ & Hd & added & Ht & _) & [-> | [d ->]]).
  - split; [eauto|]. apply Hd, Hd1.
  - split.
    + exists (added ++ [Open md_file]). simpl. rewrite Ht, app_assoc. reflexivity.
    + specialize (Hd _ Hd1). destruct (path_join _ _); [reflexivity|exact Hd].
Qed.

End CoordinatorFacts.
(** * Further properties *)

(** ** What a match has read *)

Lemma chr_is_eq c x : chr_is c x = true -> x = c.
Proof. unfold chr_is. intros Heq. apply chr_eqb_eq in Heq. congruence. Qed.

(** A repetition that matched took a run of its characters, at least [min]
    of them with those taken before, and the rest of the pattern matched
    after the run. *)
Lemma greedy_inv p min capture k : forall s taken gs rest,
  greedy p min capture k taken s = Some (gs, rest) ->
  exists run s' gs',
    s = run ++ s' /\ forallb p run = true /\
    (min <= length (taken ++ run))%nat /\
    k s' = Some (gs', rest) /\
    gs = (if capture then (taken ++ run) :: gs' else gs').
Proof.
  assert (Hstop : forall s taken gs rest,
    (if (min <=? length taken)%nat
     then match k s with
          | Some (gs', rest') => Some (if capture then taken :: gs' else gs', rest')
          | None => None
          end
     else None) = Some (gs, rest) ->
    exists run s' gs',
      s = run ++ s' /\ forallb p run = true /\
      (min <= length (taken ++ run))%nat /\
      k s' = Some (gs', rest) /\
      gs = (if capture then (taken ++ run) :: gs' else gs')).
  { intros s taken gs rest Hs.
    destruct (Nat.leb_spec min (length taken)) as [Hmin|]; [|discriminate].
    destruct (k s) as [[gs' rest']|] eqn:Ek; [|discriminate].
    injection Hs as <- <-. exists [], s, gs'. rewrite app_nil_r. auto. }
  induction s as [|c s IH]; intros taken gs rest Hg; simpl in Hg.
  - apply Hstop. exact Hg.
  - destruct (p c) eqn:Epc; [|apply Hstop; exact Hg].
    destruct (greedy p min capture k (taken ++ [c]) s) as [r|] eqn:Eg;
      [|apply Hstop; exact Hg].
    injection Hg as ->. apply IH in Eg as (run & s' & gs' & -> & Hrun & Hmin & Hk & ->).
    exists (c :: run), s', gs'. rewrite <- app_assoc in *. simpl in *.
    rewrite Epc. auto.
Qed.

Lemma match_here_lit_inv t re s r :
  match_here (lit t ++ re) s = Some r ->
  exists s', s = t ++ s' /\ match_here re s' = Some r.
Proof.
  revert s. induction t as [|c t IH]; intros s Hm; simpl in Hm.
  - exists s. auto.
  - destruct s as [|x s]; [discriminate|].
    destruct (chr_is c x) eqn:Ec; [|discriminate].
    apply chr_is_eq in Ec. subst x.
    apply IH in Hm as (s' & -> & Hm). exists s'. auto.
Qed.

Lemma match_here_one_inv p re s r :
  match_here (One p :: re) s = Some r ->
  exists c s', s = c :: s' /\ p c = true /\ match_here re s' = Some r.
Proof.
  simpl. destruct s as [|c s]; [discriminate|].
  destruct (p c) eqn:Ec; [|discriminate]. intros Hm. exists c, s. auto.
Qed.

Lemma match_here_many_inv capture min p re s gs rest :
  match_here (Many capture min p :: re) s = Some (gs, rest) ->
  exists run s' gs',
    s = run ++ s' /\ forallb p run = true /\ (min <= length run)%nat /\
    match_here re s' = Some (gs', rest) /\
    gs = (if capture then run :: gs' else gs').
Proof.
  intros Hm. change (greedy p min capture (match_here re) [] s = Some (gs, rest)) in Hm.
  exact (greedy_inv p min capture (match_here re) s [] gs rest Hm).
Qed.

(** What is left after a match is the end of what was given. *)
Lemma match_here_rest re : forall s gs rest,
  match_here re s = Some (gs, rest) -> exists text, s = text ++ rest.
Proof.
  induction re as [|[p|capture min p] re IH]; intros s gs rest Hm.
  - injection Hm as <- <-. exists []. reflexivity.
  - apply match_here_one_inv in Hm as (c & s' & -> & _ & Hm).
    apply IH in Hm as (text & ->). exists (c :: text). reflexivity.
  - apply match_here_many_inv in Hm as (run & s' & gs' & -> & _ & _ & Hm & _).
    apply IH in Hm as (text & ->). exists (run ++ text). apply app_assoc.
Qed.

(** Every element of [findall] is a match at some place of the text. *)
Lemma findall_from_inv re gs : forall s skip,
  In gs (findall_from re skip s) ->
  exists before from rest, s = before ++ from /\ match_here re from = Some (gs, rest).
Proof.
  induction s as [|c s IH]; intros skip Hin; simpl in Hin; [destruct Hin|].
  assert (Hlater : forall k, In gs (findall_from re k s) ->
    exists before from rest,
      c :: s = before ++ from /\ match_here re from = Some (gs, rest)).
  { intros k Hk. apply IH in Hk as (before & from & rest & -> & Hm).
    exists (c :: before), from, rest. auto. }
  destruct skip as [|k]; [|eapply Hlater; exact Hin].
  destruct (match_here re (c :: s)) as [[gs0 rest]|] eqn:Em;
    [|eapply Hlater; exact Hin].
  destruct Hin as [<-|Hin]; [|eapply Hlater; exact Hin].
  exists [], (c :: s), rest. auto.
Qed.

Lemma re_search_inv re : forall s group0 gs,
  re_search re s = Some (group0, gs) ->
  exists before from rest,
    s = before ++ from /\ match_here re from = Some (gs, rest) /\
    group0 = take (length from - length rest) from.
Proof.
  induction s as [|c s IH]; intros group0 gs Hs; simpl in Hs.
  - destruct (match_here re []) as [[gs0 rest]|] eqn:Em; [|discriminate].
    injection Hs as <- <-. exists [], [], rest. auto.
  - destruct (match_here re (c :: s)) as [[gs0 rest]|] eqn:Em.
    + injection Hs as <- <-. exists [], (c :: s), rest. auto.
    + apply IH in Hs as (before & from & rest & -> & Hm & ->).
      exists (c :: before), from, rest. auto.
Qed.

Lemma take_consumed (text rest : str) :
  take (length (text ++ rest) - length rest) (text ++ rest) = text.
Proof.
  rewrite length_app. replace (length text + length rest - length rest)%nat
    with (length text) by lia.
  apply take_app_length.
Qed.

(** A match of [pattern1] read an exclamation mark, an alt text in
    brackets and a url in parentheses, and nothing else. *)
Lemma pattern1_inv s gs rest :
  match_here pattern1 s = Some (gs, rest) ->
  exists alt url,
    gs = [alt; url] /\
    s = L "![" ++ alt ++ L "](" ++ url ++ L ")" ++ rest /\
    forallb (none_of "]") alt = true /\
    url <> [] /\ forallb (none_of ")") url = true.
Proof.
  unfold pattern1. intros Hm.
  apply match_here_one_inv in Hm as (c1 & s1 & -> & Hc1 & Hm). apply chr_is_eq in Hc1.
  apply match_here_one_inv in Hm as (c2 & s2 & -> & Hc2 & Hm). apply chr_is_eq in Hc2.
  apply match_here_many_inv in Hm as (alt & s3 & gs3 & -> & Halt & _ & Hm & ->).
  apply match_here_one_inv in Hm as (c3 & s4 & -> & Hc3 & Hm). apply chr_is_eq in Hc3.
  apply match_here_one_inv in Hm as (c4 & s5 & -> & Hc4 & Hm). apply chr_is_eq in Hc4.
  apply match_here_many_inv in Hm as (url & s6 & gs6 & -> & Hurl & Hmin & Hm & ->).
  apply match_here_one_inv in Hm as (c5 & s7 & -> & Hc5 & Hm). apply chr_is_eq in Hc5.
  injection Hm as <- <-. subst.
  exists alt, url. split; [reflexivity|]. split; [reflexivity|].
  split; [exact Halt|]. split; [|exact Hurl].
  destruct url; [simpl in Hmin; lia|discriminate].
Qed.

(** A match of [img_tag_pattern url] read one tag that holds the url as
    the quoted value of [src=]. *)
Lemma img_tag_pattern_inv url s gs rest :
  match_here (img_tag_pattern url) s = Some (gs, rest) ->
  exists inside q1 q2 more,
    s = (L "<img" ++ inside ++ L "src=" ++ q1 :: url ++ q2 :: more ++ L ">") ++ rest /\
    inside <> [] /\ forallb (none_of ">") inside = true /\
    is_quote q1 = true /\ is_quote q2 = true /\
    forallb (none_of ">") more = true.
Proof.
  unfold img_tag_pattern. intros Hm.
  apply match_here_lit_inv in Hm as (s1 & -> & Hm). cbn [app] in Hm.
  apply match_here_many_inv in Hm as (inside & s2 & gs2 & -> & Hinside & Hmin & Hm & _).
  apply match_here_lit_inv in Hm as (s3 & -> & Hm). cbn [app] in Hm.
  apply match_here_one_inv in Hm as (q1 & s4 & -> & Hq1 & Hm).
  apply match_here_lit_inv in Hm as (s5 & -> & Hm).
  apply match_here_one_inv in Hm as (q2 & s6 & -> & Hq2 & Hm).
  apply match_here_many_inv in Hm as (more & s7 & gs7 & -> & Hmore & _ & Hm & _).
  apply match_here_one_inv in Hm as (c & s8 & -> & Hc & Hm). apply chr_is_eq in Hc.
  injection Hm as _ <-. subst c.
  exists inside, q1, q2, more. split.
  { cbn [L list_ascii_of_string app]. rewrite <- !app_assoc. cbn [app].
    rewrite <- !app_assoc. cbn [app]. rewrite <- !app_assoc. reflexivity. }
  split; [destruct inside; [simpl in Hmin; lia|discriminate]|]. auto.
Qed.

(** ** extract_image_urls *)

(** The new text of the bracket form. *)
Lemma rewritten_bracket_form alt url local_path :
  forallb (none_of "]") alt = true ->
  url <> [] -> forallb (none_of ")") url = true ->
  new_text_for (L "![" ++ alt ++ L "](" ++ url ++ L ")") local_path =
    Some (L "![" ++ alt ++ L "](" ++ local_path ++ L ")").
Proof.
  intros Halt Hne Hurl. unfold new_text_for.
  change (startswith (L "![") (L "![" ++ alt ++ L "](" ++ url ++ L ")")) with true.
  cbv iota. rewrite (alt_pattern_match alt url Halt Hne Hurl). reflexivity.
Qed.

(** Where a reference of the list comes from: a match of [pattern1]
    somewhere in the text, or a match of [pattern2] for the url and the
    first tag of the text that holds the url. *)
Lemma extract_image_urls_inv content url original_text :
  In (url, original_text) (extract_image_urls content) ->
  is_remote url = true /\
  ((exists before from rest alt,
      content = before ++ from /\
      match_here pattern1 from = Some ([alt; url], rest) /\
      original_text = L "![" ++ alt ++ L "](" ++ url ++ L ")") \/
   (exists gs, re_search (img_tag_pattern url) content = Some (original_text, gs))).
Proof.
  unfold extract_image_urls. intros Hin. apply in_app_or in Hin as [Hin|Hin];
    apply in_flat_map in Hin as (m & Hm & Hin).
  - destruct m as [|alt [|u [|x m]]]; try (destruct Hin; fail).
    destruct (is_remote u) eqn:Er; [|destruct Hin].
    destruct Hin as [[= <- <-]|[]]. split; [exact Er|]. left.
    apply findall_from_inv in Hm as (before & from & rest & -> & Hm).
    exists before, from, rest, alt. auto.
  - destruct m as [|u [|x m]]; try (destruct Hin; fail).
    destruct (is_remote u) eqn:Er; [|destruct Hin].
    destruct (re_search (img_tag_pattern u) content) as [[group0 gs]|] eqn:Es;
      [|destruct Hin].
    destruct Hin as [[= <- <-]|[]]. split; [exact Er|]. right. exists gs. exact Es.
Qed.

(** Only absolute http and https urls are extracted: a reference to a
    local or relative path is never in the list. *)
Theorem extracted_urls_are_remote content url original_text :
  In (url, original_text) (extract_image_urls content) ->
  startswith (L "http://") url = true \/ startswith (L "https://") url = true.
Proof.
  intros Hin. apply extract_image_urls_inv in Hin as [Hr _].
  unfold is_remote in Hr. apply orb_true_iff in Hr. exact Hr.
Qed.

(** The matched text of every reference is a piece of the document, so
    [str.replace] finds it there. *)
Theorem extracted_text_occurs_in_document content url original_text :
  In (url, original_text) (extract_image_urls content) ->
  exists before after, content = before ++ original_text ++ after.
Proof.
  intros Hin.
  apply extract_image_urls_inv in Hin
    as [_ [(before & from & rest & alt & -> & Hm & ->)|[gs Hs]]].
  - apply pattern1_inv in Hm as (alt' & url' & [= <- <-] & -> & _).
    exists before, rest. rewrite <- !app_assoc. reflexivity.
  - apply re_search_inv in Hs as (before & from & rest & -> & Hm & ->).
    apply match_here_rest in Hm as (text & ->).
    exists before, rest. rewrite take_consumed. reflexivity.
Qed.

(** A match of [pattern2] read a url of at least one character, none of
    them a quote or >. *)
Lemma pattern2_inv s gs rest :
  match_here pattern2 s = Some (gs, rest) ->
  exists url, gs = [url] /\ url <> [] /\ forallb is_value_char url = true.
Proof.
  unfold pattern2. intros Hm.
  apply match_here_lit_inv in Hm as (s1 & -> & Hm). cbn [app] in Hm.
  apply match_here_many_inv in Hm as (inside & s2 & gs2 & -> & _ & _ & Hm & Hgs2).
  apply match_here_lit_inv in Hm as (s3 & -> & Hm). cbn [app] in Hm.
  apply match_here_one_inv in Hm as (q1 & s4 & -> & _ & Hm).
  apply match_here_many_inv in Hm as (url & s5 & gs5 & -> & Hurl & Hmin & Hm & Hgs5).
  apply match_here_one_inv in Hm as (q2 & s6 & -> & _ & Hm).
  apply match_here_many_inv in Hm as (more & s7 & gs7 & -> & _ & _ & Hm & Hgs7).
  apply match_here_one_inv in Hm as (c & s8 & -> & _ & Hm).
  injection Hm as <- _. cbv iota in Hgs2, Hgs5, Hgs7. subst.
  exists url. split; [reflexivity|]. split; [|exact Hurl].
  destruct url; [simpl in Hmin; lia|discriminate].
Qed.

(** A reference of the tag form: its url was read by [pattern2], and its
    text is the first match of the pattern of the tag with this url. *)
Lemma extract_image_urls_tag_inv content url original_text :
  In (url, original_text) (extract_image_urls content) ->
  (exists before from rest alt,
     content = before ++ from /\
     match_here pattern1 from = Some ([alt; url], rest) /\
     original_text = L "![" ++ alt ++ L "](" ++ url ++ L ")") \/
  (url <> [] /\ forallb is_value_char url = true /\
   exists gs, re_search (img_tag_pattern url) content = Some (original_text, gs)).
Proof.
  unfold extract_image_urls. intros Hin. apply in_app_or in Hin as [Hin|Hin];
    apply in_flat_map in Hin as (m & Hm & Hin).
  - destruct m as [|alt [|u [|x m]]]; try (destruct Hin; fail).
    destruct (is_remote u) eqn:Er; [|destruct Hin].
    destruct Hin as [[= <- <-]|[]]. left.
    apply findall_from_inv in Hm as (before & from & rest & -> & Hm).
    exists before, from, rest, alt. auto.
  - apply findall_from_inv in Hm as (before & from & rest & _ & Hm).
    apply pattern2_inv in Hm as (u & -> & Hne & Hchars).
    destruct (is_remote u) eqn:Er; [|destruct Hin].
    destruct (re_search (img_tag_pattern u) content) as [[group0 gs]|] eqn:Es;
      [|destruct Hin].
    destruct Hin as [[= <- <-]|[]]. right. split; [exact Hne|].
    split; [exact Hchars|]. exists gs. exact Es.
Qed.

Lemma quote_is_not_closing c : is_quote c = true -> none_of ">" c = true.
Proof.
  unfold is_quote. intros Hq. apply orb_true_iff in Hq as [Hq|Hq];
    apply chr_eqb_eq in Hq; subst c; reflexivity.
Qed.

Lemma value_char_is_not_closing c : is_value_char c = true -> none_of ">" c = true.
Proof.
  unfold is_value_char, none_of. intros Hv. apply negb_true_iff in Hv.
  apply orb_false_iff in Hv as [_ Hv]. cbn [L list_ascii_of_string chr_in existsb].
  unfold chr_in. cbn [existsb]. rewrite Hv. reflexivity.
Qed.

(** The two shapes of a matched text: the bracket form with its alt text
    and its url, or one whole tag that holds the url as the quoted value
    of [src=]; the tag goes from <img to the first >: no character of it
    before the last is a >, the url has at least one character, and none
    of them is a quote. *)
Theorem extracted_reference_shape content url original_text :
  In (url, original_text) (extract_image_urls content) ->
  (exists alt,
     original_text = L "![" ++ alt ++ L "](" ++ url ++ L ")" /\
     forallb (none_of "]") alt = true /\
     url <> [] /\ forallb (none_of ")") url = true) \/
  (exists inside q1 q2 more,
     original_text = L "<img" ++ inside ++ L "src=" ++ q1 :: url ++ q2 :: more ++ L ">" /\
     inside <> [] /\ forallb (none_of ">") inside = true /\
     is_quote q1 = true /\ is_quote q2 = true /\
     forallb (none_of ">") more = true /\
     url <> [] /\ forallb is_value_char url = true /\
     forallb (none_of ">")
       (L "<img" ++ inside ++ L "src=" ++ q1 :: url ++ q2 :: more) = true).
Proof.
  intros Hin.
  apply extract_image_urls_tag_inv in Hin
    as [(before & from & rest & alt & -> & Hm & ->)|(Hne & Hchars & gs & Hs)].
  - left. apply pattern1_inv in Hm as (alt' & url' & [= <- <-] & _ & Halt & Hne & Hurl).
    exists alt. auto.
  - right. apply re_search_inv in Hs as (before & from & rest & -> & Hm & ->).
    apply img_tag_pattern_inv in Hm
      as (inside & q1 & q2 & more & -> & Hinside & Hin1 & Hq1 & Hq2 & Hmore).
    exists inside, q1, q2, more. rewrite take_consumed.
    repeat (split; [assumption || reflexivity|]).
    rewrite !forallb_app. cbn [forallb]. rewrite forallb_app.
    change (forallb (none_of ">") (q2 :: more))
      with (none_of ">" q2 && forallb (none_of ">") more).
    rewrite Hin1, Hmore, (quote_is_not_closing _ Hq1), (quote_is_not_closing _ Hq2).
    rewrite (forallb_impl _ _ _ value_char_is_not_closing Hchars). reflexivity.
Qed.

(** Whatever the tag was, the new one starts with [src] and the local
    path. *)
Lemma new_img_tag_starts_with_src original_text local_path :
  exists others,
    new_img_tag original_text local_path =
      L "<img src=" ++ [dquote] ++ local_path ++ [dquote] ++ others ++ L ">".
Proof.
  unfold new_img_tag. rewrite join_cons.
  match goal with
  | |- context [render_attr _ _ ++ flat_map ?f ?l] => exists (flat_map f l)
  end.
  unfold render_attr. cbn [L list_ascii_of_string app].
  rewrite <- !app_assoc. reflexivity.
Qed.

Lemma startswith_prefix p s : startswith p (p ++ s) = true.
Proof.
  induction p as [|c p IH]; simpl; [reflexivity|]. rewrite chr_eqb_refl. exact IH.
Qed.

(** Every extracted reference gets a new text when its download succeeds:
    the bracket form with the same alt text and the local path, or a tag
    that starts with [src] and the local path. *)
Theorem extracted_reference_is_rewritten content url original_text local_path :
  In (url, original_text) (extract_image_urls content) ->
  (exists alt,
     original_text = L "![" ++ alt ++ L "](" ++ url ++ L ")" /\
     new_text_for original_text local_path =
       Some (L "![" ++ alt ++ L "](" ++ local_path ++ L ")")) \/
  (exists others,
     startswith (L "<img") original_text = true /\
     new_text_for original_text local_path =
       Some (L "<img src=" ++ [dquote] ++ local_path ++ [dquote] ++ others ++ L ">")).
Proof.
  intros Hin.
  apply extract_image_urls_inv in Hin
    as [_ [(before & from & rest & alt & -> & Hm & ->)|[gs Hs]]].
  - left. apply pattern1_inv in Hm as (alt' & url' & [= <- <-] & _ & Halt & Hne & Hurl).
    exists alt. split; [reflexivity|].
    apply rewritten_bracket_form; assumption.
  - right. apply re_search_inv in Hs as (before & from & rest & -> & Hm & ->).
    apply img_tag_pattern_inv in Hm as (inside & q1 & q2 & more & -> & _).
    rewrite take_consumed. unfold new_text_for.
    change (startswith (L "![") (L "<img" ++ _)) with false. cbv iota.
    destruct (new_img_tag_starts_with_src
                (L "<img" ++ inside ++ L "src=" ++ q1 :: url ++ q2 :: more ++ L ">")
                local_path) as [others ->].
    exists others. split; [apply startswith_prefix|reflexivity].
Qed.

Lemma pattern1_match alt url rest :
  forallb (none_of "]") alt = true ->
  url <> [] -> forallb (none_of ")") url = true ->
  match_here pattern1 (L "![" ++ alt ++ L "](" ++ url ++ L ")" ++ rest) =
    Some ([alt; url], rest).
Proof.
  intros Halt Hne Hurl. unfold pattern1.
  cbn [L list_ascii_of_string app match_here].
  change (chr_is "!" "!") with true. change (chr_is "[" "[") with true. cbv iota.
  rewrite greedy_run; [|exact Halt| |reflexivity].
  2:{ intros c s Hc. cbn [match_here]. rewrite (not_closing_bracket c Hc). reflexivity. }
  cbn [app length Nat.leb match_here].
  change (chr_is "]" "]") with true. change (chr_is "(" "(") with true. cbv iota.
  rewrite greedy_run; [|exact Hurl| |reflexivity].
  2:{ intros c s Hc. cbn [match_here]. rewrite (not_closing_paren c Hc). reflexivity. }
  rewrite app_nil_l, (nonempty_length url Hne). cbn [match_here].
  change (chr_is ")" ")") with true. reflexivity.
Qed.

Lemma findall_pattern1_skips before s :
  forallb (none_of "!") before = true ->
  findall_from pattern1 0 (before ++ s) = findall_from pattern1 0 s.
Proof.
  induction before as [|c before IH]; cbn [app forallb]; [reflexivity|].
  intros Hall. apply andb_true_iff in Hall as [Hc Hbefore].
  rewrite <- (IH Hbefore). apply findall_from_no_match.
  unfold pattern1. cbn [match_here].
  replace (chr_is "!" c) with false; [reflexivity|].
  revert Hc. clear. destruct c as [[] [] [] [] [] [] [] []]; vm_compute; congruence.
Qed.

(** A bracket reference to a remote url is extracted when no exclamation
    mark comes before it in the document: its alt text may be any text
    without a closing bracket, its url any text without a closing
    parenthesis, and what follows it does not matter. *)
Theorem bracket_reference_is_extracted before alt url after :
  forallb (none_of "!") before = true ->
  forallb (none_of "]") alt = true ->
  forallb (none_of ")") url = true ->
  is_remote url = true ->
  In (url, L "![" ++ alt ++ L "](" ++ url ++ L ")")
     (extract_image_urls (before ++ (L "![" ++ alt ++ L "](" ++ url ++ L ")") ++ after)).
Proof.
  intros Hbefore Halt Hurl Hremote.
  assert (Hne : url <> []) by (intros ->; discriminate Hremote).
  unfold extract_image_urls. apply in_or_app. left.
  apply in_flat_map. exists [alt; url]. split.
  - unfold findall. rewrite (findall_pattern1_skips _ _ Hbefore).
    pose proof (pattern1_match alt url after Halt Hne Hurl) as Hm.
    rewrite <- !app_assoc. cbn [L list_ascii_of_string app] in Hm |- *.
    erewrite findall_from_match; [left; reflexivity|exact Hm|].
    instantiate (1 := "["%char :: alt ++ "]"%char :: "("%char :: url ++ [")"%char]).
    cbn [app]. rewrite <- !app_assoc. cbn [app]. rewrite <- !app_assoc. reflexivity.
  - rewrite Hremote. left. reflexivity.
Qed.

(** The links that the program writes are not found again: no extracted
    url starts with images/. *)
Theorem local_links_are_not_extracted content :
  forallb (fun ref => negb (startswith (L "images/") (fst ref)))
    (extract_image_urls content) = true.
Proof.
  apply forallb_forall. intros [url original_text] Hin.
  apply extract_image_urls_inv in Hin as [Hr _]. cbn [fst].
  destruct url as [|c url]; [discriminate|].
  destruct (chr_eqb "i" c) eqn:Ec.
  - apply chr_eqb_eq in Ec. subst c. discriminate Hr.
  - cbn [L list_ascii_of_string startswith]. rewrite Ec. reflexivity.
Qed.

(** ** The names, again *)

Lemma sanitize_chr_spec c :
  sanitize_chr illegal_chars c = if chr_in c illegal_chars then "_"%char else c.
Proof. destruct c as [[] [] [] [] [] [] [] []]; vm_compute; reflexivity. Qed.

Section MoreNameFacts.
Context `{PyLib}.

(** [sanitize_filename] never makes a name longer; on a name of at most 100
    characters it puts an underscore in the place of every illegal
    character and leaves the other characters where they are, so a name
    without illegal characters comes back as it is. *)
Theorem sanitize_filename_replaces_illegal_chars filename :
  (length (sanitize_filename filename) <= length filename)%nat /\
  ((length filename <= 100)%nat ->
   sanitize_filename filename =
     map (fun c => if chr_in c illegal_chars then "_"%char else c) filename) /\
  ((length filename <= 100)%nat -> filesystem_safe filename = true ->
   sanitize_filename filename = filename).
Proof.
  assert (Hmap : map (sanitize_chr illegal_chars) filename =
                 map (fun c => if chr_in c illegal_chars then "_"%char else c) filename).
  { apply map_ext. intros c. apply sanitize_chr_spec. }
  assert (Hshort : (length filename <= 100)%nat ->
            sanitize_filename filename =
              map (fun c => if chr_in c illegal_chars then "_"%char else c) filename).
  { intros Hlen. unfold sanitize_filename. rewrite replace_all_map, length_map.
    destruct (Nat.ltb_spec 100 (length filename)); [lia|exact Hmap]. }
  split; [|split].
  - unfold sanitize_filename. rewrite replace_all_map.
    pose proof (splitext_join (map (sanitize_chr illegal_chars) filename)) as Hj.
    destruct (100 <? length _)%nat; [|rewrite length_map; lia].
    destruct (splitext _) as [name ext]. simpl in Hj.
    apply (f_equal length) in Hj. rewrite length_app, length_map in Hj.
    rewrite length_app, length_take. lia.
  - exact Hshort.
  - intros Hlen Hsafe. rewrite (Hshort Hlen).
    unfold filesystem_safe in Hsafe. rewrite forallb_forall in Hsafe.
    rewrite <- (map_id filename) at 2. apply map_ext_in. intros c Hin.
    specialize (Hsafe c Hin). apply negb_true_iff in Hsafe. rewrite Hsafe. reflexivity.
Qed.

(** [get_image_extension] always answers with one of the seven known
    extensions.  A known extension in the url wins over the content type;
    without one, the answer is among .jpg, .png, .gif, .webp and .svg
    (never .bmp or .jpeg), it is .jpg when there is no content type, and
    otherwise it is the first of jpeg or jpg, png, gif, webp and svg that
    the whole content type holds, .jpg when it holds none. *)
Theorem get_image_extension_cases url content_type :
  let ext := lower (snd (splitext (url_path url))) in
  In (get_image_extension url content_type) image_exts /\
  (is_image_ext ext = true -> get_image_extension url content_type = ext) /\
  (is_image_ext ext = false ->
   In (get_image_extension url content_type)
      [L ".jpg"; L ".png"; L ".gif"; L ".webp"; L ".svg"]) /\
  (is_image_ext ext = false -> content_type = None \/ content_type = Some [] ->
   get_image_extension url content_type = L ".jpg") /\
  (is_image_ext ext = false ->
   forall ct, content_type = Some ct ->
   get_image_extension url content_type =
     if contains (L "jpeg") ct || contains (L "jpg") ct then L ".jpg"
     else if contains (L "png") ct then L ".png"
     else if contains (L "gif") ct then L ".gif"
     else if contains (L "webp") ct then L ".webp"
     else if contains (L "svg") ct then L ".svg"
     else L ".jpg").
Proof.
  intros ext. subst ext.
  split; [apply image_ext_cases, get_image_extension_known|].
  unfold get_image_extension. destruct (splitext (url_path url)) as [root ext].
  cbn [snd]. destruct (is_image_ext (lower ext)) eqn:E.
  - split; [reflexivity|]. split; [discriminate|]. split; discriminate.
  - split; [discriminate|]. split; [|split].
    + intros _. destruct content_type as [[|c ct]|]; simpl; auto.
      repeat (match goal with |- context [if ?b then _ else _] => destruct b end;
              simpl; auto 10).
    + intros _ [->| ->]; reflexivity.
    + intros _ ct ->. destruct ct as [|c ct]; reflexivity.
Qed.

(** Every generated name ends in one of the seven known extensions. *)
Theorem generate_filename_has_image_extension url content_type :
  exists stem ext,
    generate_filename url content_type = stem ++ ext /\ In ext image_exts.
Proof.
  destruct (generate_filename_shape url content_type)
    as (stem & ext & Heq & _ & _ & Hext).
  exists (stem ++ L "_" ++ take 12 (md5_hexdigest url)), ext.
  split; [rewrite Heq, <- !app_assoc; reflexivity|].
  apply image_ext_cases, Hext.
Qed.

(** ** compress_image, again *)

Lemma try_qualities_found_fits img limit qualities data :
  try_qualities img limit qualities = Some (Some data) ->
  exists q, In q qualities /\ save_jpeg img q = Some data /\
            Z.of_nat (length data) <= limit.
Proof.
  induction qualities as [|q qs IH]; simpl; [discriminate|].
  destruct (save_jpeg img q) as [d|] eqn:Eq; [|discriminate].
  destruct (Z.leb_spec (Z.of_nat (length d)) limit) as [Hfit|].
  - intros [= <-]. exists q. auto.
  - intros Hrest. destruct (IH Hrest) as (q' & Hin & Hs & Hf). exists q'. auto.
Qed.

(** What [compress_image] returns is the payload itself, or an encoding of
    the decoded image that fits the budget at one of the qualities from 85
    to 25, or the encoding at quality 20; it is the payload itself whenever
    the payload fits the budget or cannot be decoded. *)
Theorem compress_image_cases image_data max_size_kb :
  (compress_image image_data max_size_kb = image_data \/
   exists img0 img q,
     Image_open image_data = Some img0 /\ flatten_alpha img0 = Some img /\
     save_jpeg img q = Some (compress_image image_data max_size_kb) /\
     (q = 20 \/
      In q quality_levels /\
      Z.of_nat (length (compress_image image_data max_size_kb)) <= max_size_kb * 1024)) /\
  (Z.of_nat (length image_data) <= max_size_kb * 1024 ->
   compress_image image_data max_size_kb = image_data) /\
  (Image_open image_data = None ->
   compress_image image_data max_size_kb = image_data).
Proof.
  split; [|split].
  - destruct (Z.leb_spec (Z.of_nat (length image_data)) (max_size_kb * 1024)) as [Hfit|Hlarge].
    { left. unfold compress_image, compress_image_try.
      apply Z.leb_le in Hfit. rewrite Hfit. reflexivity. }
    destruct (Image_open image_data) as [img0|] eqn:Eo.
    2:{ left. unfold compress_image, compress_image_try.
        apply Z.leb_gt in Hlarge. rewrite Hlarge, Eo. reflexivity. }
    destruct (flatten_alpha img0) as [img|] eqn:Ef.
    2:{ left. unfold compress_image, compress_image_try.
        apply Z.leb_gt in Hlarge. rewrite Hlarge, Eo. cbn [mbind option_bind].
        rewrite Ef. reflexivity. }
    unfold compress_image. rewrite (compress_image_try_large _ _ _ _ Hlarge Eo Ef).
    destruct (try_qualities img (max_size_kb * 1024) quality_levels)
      as [[data|]|] eqn:Et; [| |left; reflexivity].
    + right. apply try_qualities_found_fits in Et as (q & Hin & Hs & Hfit).
      exists img0, img, q. auto 10.
    + destruct (save_jpeg img 20) as [data|] eqn:E20; [|left; reflexivity].
      right. exists img0, img, 20. auto 10.
  - intros Hfit. unfold compress_image, compress_image_try.
    apply Z.leb_le in Hfit. rewrite Hfit. reflexivity.
  - intros Hopen. unfold compress_image, compress_image_try.
    destruct (_ <=? _); [reflexivity|]. rewrite Hopen. reflexivity.
Qed.

End MoreNameFacts.

(** ** download_image, again *)

Lemma is_file_true_iff w p : is_file w p = true <-> is_Some (files w !! p).
Proof. unfold is_file. apply bool_decide_eq_true. Qed.

Section MoreFetcherFacts.
Context `{PyLib} `{Outside}.
Variable self : MarkdownImageDownloader.

Lemma is_file_put_file p data w : is_file (put_file p data w) p = true.
Proof.
  unfold is_file, put_file. simpl. apply bool_decide_eq_true.
  rewrite lookup_insert_eq. eauto.
Qed.

Lemma is_dir_add_dir_inv p q w :
  is_dir (add_dir p w) q = true -> q = p \/ is_dir w q = true.
Proof.
  destruct q as [|c q]; [auto|]. unfold is_dir. simpl.
  rewrite !bool_decide_eq_true. set_solver.
Qed.

(** The directories that [mkdir_parents_rev] makes are no deeper than
    its argument. *)
Lemma mkdir_parents_rev_dirs rp w w' q :
  mkdir_parents_rev rp w = Some w' ->
  is_dir w' q = true -> is_dir w q = true \/ (length q <= length rp)%nat.
Proof.
  revert w'. induction rp as [|c rp IH]; intros w' Hm Hq; simpl in Hm.
  - injection Hm as <-. auto.
  - destruct (is_dir w (rev rp ++ [c])); [injection Hm as <-; auto|].
    destruct (is_file w (rev rp ++ [c])); [discriminate|].
    destruct (mkdir_parents_rev rp w) as [w1|]; [|discriminate]. simpl in Hm.
    destruct (is_dir w1 (rev rp)); [|discriminate]. injection Hm as <-.
    apply is_dir_add_dir_inv in Hq as [->|Hq].
    + right. rewrite length_app, length_rev. simpl. lia.
    + destruct (IH w1 eq_refl Hq); [auto|right; simpl; lia].
Qed.

Lemma mkdir_parents_not_the_path p w w' :
  mkdir_parents (parent p) w = Some w' ->
  path_exists w p = false -> path_exists w' p = false.
Proof.
  intros Hm Hex. pose proof (mkdir_parents_files _ _ _ Hm) as Hfiles.
  unfold path_exists in *. apply orb_false_iff in Hex as [Hf Hd].
  apply orb_false_iff. split.
  - unfold is_file in *. rewrite Hfiles. exact Hf.
  - destruct (is_dir w' p) eqn:Ed; [|reflexivity].
    apply (mkdir_parents_rev_dirs _ _ _ p Hm) in Ed as [Ed|Hlen]; [congruence|].
    destruct p as [|c p] using rev_ind; [discriminate|].
    unfold parent in Hlen. rewrite removelast_last, length_rev, length_app in Hlen.
    simpl in Hlen. lia.
Qed.

(** What one try adds to the trace, and with which outcome. *)
Lemma download_try_added url save_path w r w' :
  download_try url save_path w = (r, w') ->
  exists added, trace w' = trace w ++ added /\
    ((added = [] /\ r = Some true /\ w' = w /\ path_exists w save_path = true) \/
     (added = [Sleep 500; Get url] /\ r = None /\
      path_exists w' save_path = false) \/
     (added = [Sleep 500; Get url; Open save_path] /\ r <> Some false /\
      is_file w' save_path = true)).
Proof.
  intros Ht. apply download_try_cases in Ht as [(Hex & -> & ->)|[Hex Ht]].
  { exists []. rewrite app_nil_r. auto 10. }
  cbv zeta in Ht.
  destruct Ht as [[-> ->]|(response & w2 & b & _ & _ & _ & Hm & Hw & ->)].
  { exists [Sleep 500; Get url]. simpl. rewrite <- app_assoc. auto 10. }
  pose proof (mkdir_parents_trace _ _ _ Hm) as Htr.
  apply write_file_cases in Hw as [[-> ->]|(_ & _ & n & -> & _)].
  - exists [Sleep 500; Get url]. rewrite Htr. simpl. rewrite <- app_assoc.
    split; [reflexivity|]. right. left. split; [reflexivity|]. split; [reflexivity|].
    apply (mkdir_parents_not_the_path _ _ _ Hm). exact Hex.
  - exists [Sleep 500; Get url; Open save_path]. simpl. rewrite Htr. simpl.
    rewrite <- !app_assoc. split; [reflexivity|]. right. right.
    split; [reflexivity|]. split; [destruct b; discriminate|].
    apply (is_file_put_file save_path _ (emit (Open save_path) w2)).
Qed.


(** When [download_image] returns [True], the destination exists; and when
    it was not there before the call, it was opened for writing during
    the call. *)
Theorem downloaded_file_exists url save_path retries w :
  fst (download_image self url save_path retries w) = true ->
  exists added,
    trace (snd (download_image self url save_path retries w)) = trace w ++ added /\
    path_exists (snd (download_image self url save_path retries w)) save_path = true /\
    (path_exists w save_path = false -> In (Open save_path) added).
Proof.
  remember (Z.to_nat (max_retries self - Z.of_nat retries)) as m eqn:Hm.
  revert retries w Hm. induction m as [|m IH]; intros retries w Hm;
    rewrite download_image_eq;
    destruct (download_try url save_path w) as [[result|] w1] eqn:Et;
    apply download_try_added in Et as (a1 & Ht1 & Hcases).
  1,3: (intros _; exists a1; cbn [snd]; split; [exact Ht1|];
        destruct Hcases as [(-> & _ & -> & Hex)|[(_ & Hr & _)|(-> & _ & Hf)]];
        [split; [exact Hex|congruence]
        |discriminate
        |split; [unfold path_exists; rewrite Hf; reflexivity|simpl; auto]]).
  - destruct (Z.ltb_spec (Z.of_nat retries) (max_retries self)); [lia|discriminate].
  - destruct (Z.ltb_spec (Z.of_nat retries) (max_retries self)); [|discriminate].
    intros Htrue.
    destruct (IH (S retries) (emit (Sleep (1000 * 2 ^ Z.of_nat retries)) w1)
                ltac:(lia) Htrue) as (a2 & Ht2 & Hex2 & Hopen2).
    exists (a1 ++ Sleep (1000 * 2 ^ Z.of_nat retries) :: a2).
    split; [rewrite Ht2; simpl; rewrite Ht1, <- !app_assoc; reflexivity|].
    split; [exact Hex2|]. intros _. apply in_or_app.
    destruct Hcases as [(_ & Hr & _)|[(_ & _ & Hno)|(-> & _)]]; [discriminate| |].
    + right. right. apply Hopen2. exact Hno.
    + left. simpl. auto.
Qed.

(** Every request of a call of [download_image] goes to its url, and comes
    right after a sleep of half a second. *)
Theorem requests_are_delayed_and_to_the_url url save_path retries w :
  exists added,
    trace (snd (download_image self url save_path retries w)) = trace w ++ added /\
    Forall (eq url) (gets added) /\
    requests_delayed false added = true.
Proof.
  remember (Z.to_nat (max_retries self - Z.of_nat retries)) as m eqn:Hm.
  revert retries w Hm. induction m as [|m IH]; intros retries w Hm;
    rewrite download_image_eq;
    destruct (download_try url save_path w) as [[result|] w1] eqn:Et;
    apply download_try_added in Et as (a1 & Ht1 & Hcases).
  1,3: (exists a1; cbn [snd]; split; [exact Ht1|];
        destruct Hcases as [(-> & _)|[(-> & _)|(-> & _)]]; simpl; auto).
  - destruct (Z.ltb_spec (Z.of_nat retries) (max_retries self)); [lia|].
    exists a1. cbn [snd]. split; [exact Ht1|].
    destruct Hcases as [(-> & _)|[(-> & _)|(-> & _)]]; simpl; auto.
  - destruct (Z.ltb_spec (Z.of_nat retries) (max_retries self)); [|lia].
    destruct (IH (S retries) (emit (Sleep (1000 * 2 ^ Z.of_nat retries)) w1))
      as (a2 & Ht2 & Hu2 & Hd2); [lia|].
    exists (a1 ++ Sleep (1000 * 2 ^ Z.of_nat retries) :: a2).
    split; [rewrite Ht2; simpl; rewrite Ht1, <- !app_assoc; reflexivity|].
    assert (Hb : (1000 * 2 ^ Z.of_nat retries =? 500) = false).
    { apply Z.eqb_neq.
      assert (0 < 2 ^ Z.of_nat retries) by (apply Z.pow_pos_nonneg; lia). lia. }
    destruct Hcases as [(_ & Hr & _)|[(-> & _)|(-> & _)]]; [discriminate| |];
      simpl; rewrite Hb; auto.
Qed.

(** A try that fails after it opened the destination leaves a file there,
    a prefix of what was to be stored; the next try finds that file and
    returns [True] at once, with no further request. *)
Theorem leftover_file_ends_the_retries url save_path retries w w1 :
  download_try url save_path w = (None, w1) ->
  is_file w1 save_path = true ->
  Z.of_nat retries < max_retries self ->
  download_image self url save_path retries w =
    (true, emit (Sleep (1000 * 2 ^ Z.of_nat retries)) w1) /\
  exists response n,
    session_get (moment (emit (Sleep 500) w)) url = Reply response /\
    files w1 !! save_path = Some (take n (stored_data response)).
Proof.
  intros Ht Hf Hlt. split.
  - rewrite download_image_eq, Ht. apply Z.ltb_lt in Hlt. rewrite Hlt.
    rewrite download_image_eq. unfold download_try.
    change (path_exists (emit (Sleep (1000 * 2 ^ Z.of_nat retries)) w1) save_path)
      with (path_exists w1 save_path).
    unfold path_exists. rewrite Hf. reflexivity.
  - apply download_try_cases in Ht as [(_ & Hr & _)|[Hex Ht]]; [discriminate|].
    cbv zeta in Ht. apply path_exists_false in Hex as [Hnone _].
    apply is_file_true_iff in Hf.
    destruct Ht as [[_ ->]|(response & w2 & b & Hget & _ & _ & Hm & Hw & _)].
    { simpl in Hf. rewrite Hnone in Hf. destruct Hf. discriminate. }
    apply mkdir_parents_files in Hm.
    apply write_file_cases in Hw as [[_ ->]|(_ & _ & n & -> & _)].
    { rewrite Hm in Hf. simpl in Hf. rewrite Hnone in Hf. destruct Hf. discriminate. }
    exists response, n. split; [exact Hget|]. simpl. apply lookup_insert_eq.
Qed.

End MoreFetcherFacts.

(** ** The coordinator and the driver, again *)


(** A text that holds [old] holds [new] after the replacement. *)
Lemma replace_occurrence old new before after :
  old <> [] ->
  exists before' after',
    replace old new (before ++ old ++ after) = before' ++ new ++ after'.
Proof.
  intros Hne. unfold replace. induction before as [|c before IH].
  - destruct old as [|c old]; [congruence|].
    change ([] ++ (c :: old) ++ after) with (c :: (old ++ after)).
    cbn [replace_from].
    change (c :: old ++ after) with ((c :: old) ++ after).
    rewrite startswith_prefix. eexists [], _. reflexivity.
  - change ((c :: before) ++ old ++ after) with (c :: (before ++ old ++ after)).
    cbn [replace_from].
    destruct (startswith old (c :: before ++ old ++ after)).
    + eexists [], _. reflexivity.
    + destruct IH as (b' & a' & ->). exists (c :: b'), a'. reflexivity.
Qed.

(** One step of the rewriting on an extracted reference: the document then
    holds the new text of the reference. *)
Theorem replacement_puts_the_new_text content url original_text local_path :
  In (url, original_text) (extract_image_urls content) ->
  exists new_text before after,
    new_text_for original_text local_path = Some new_text /\
    apply_replacement content (original_text, local_path) =
      before ++ new_text ++ after.
Proof.
  intros Hin.
  assert (Hnew : exists new_text,
            new_text_for original_text local_path = Some new_text /\
            original_text <> []).
  { pose proof Hin as Hshape.
    apply extract_image_urls_inv in Hshape
      as [_ [(before & from & rest & alt & -> & Hm & ->)|[gs Hs]]].
    - apply pattern1_inv in Hm as (alt' & url' & [= <- <-] & _ & Halt & Hne & Hurl).
      rewrite (rewritten_bracket_form alt url local_path Halt Hne Hurl).
      eexists. split; [reflexivity|discriminate].
    - apply re_search_inv in Hs as (before & from & rest & -> & Hm & ->).
      apply img_tag_pattern_inv in Hm as (inside & q1 & q2 & more & -> & _).
      rewrite take_consumed. unfold new_text_for.
      change (startswith (L "![") (L "<img" ++ _)) with false. cbv iota.
      eexists. split; [reflexivity|discriminate]. }
  destruct Hnew as (new_text & Hnew & Hne).
  assert (Hocc : exists before after, content = before ++ original_text ++ after).
  { apply extract_image_urls_inv in Hin
      as [_ [(before & from & rest & alt & -> & Hm & ->)|[gs Hs]]].
    - apply pattern1_inv in Hm as (alt' & url' & [= <- <-] & -> & _).
      exists before, rest. rewrite <- !app_assoc. reflexivity.
    - apply re_search_inv in Hs as (before & from & rest & -> & Hm & ->).
      apply match_here_rest in Hm as (text & ->).
      exists before, rest. rewrite take_consumed. reflexivity. }
  destruct Hocc as (before & after & ->).
  destruct (replace_occurrence original_text new_text before after Hne)
    as (before' & after' & Hrep).
  exists new_text, before', after'. split; [exact Hnew|].
  unfold apply_replacement. cbn [fst snd]. rewrite Hnew. exact Hrep.
Qed.

Section MoreCoordinatorFacts.
Context `{PyLib} `{Outside}.
Variable self : MarkdownImageDownloader.



(** *** What exists stays, whatever the order of the steps *)















(** *** A worker alone, and a url that cannot be parsed *)

Lemma thread_step_progress t ph w ph' w' :
  thread_step self t ph w = (ph', w') ->
  (steps_left self ph' < steps_left self ph)%nat \/ exists success, ph = Finished success.
Proof.
  intros Hs.
  destruct ph as [|retries|retries|retries image_data|success]; simpl in Hs.
  - injection Hs as <- <-. left. simpl. lia.
  - destruct (path_exists w (task_local_path t)); injection Hs as <- <-;
      left; simpl; lia.
  - destruct (download_request (task_url t) w) as [[image_data|] w1].
    + injection Hs as <- <-. left. simpl. lia.
    + unfold after_failure in Hs.
      destruct (Z.ltb_spec (Z.of_nat retries) (max_retries self));
        injection Hs as <- <-; left; simpl; lia.
  - destruct (download_store (task_local_path t) image_data w) as [[b|] w1].
    + injection Hs as <- <-. left. simpl. lia.
    + unfold after_failure in Hs.
      destruct (Z.ltb_spec (Z.of_nat retries) (max_retries self));
        injection Hs as <- <-; left; simpl; lia.
  - right. eauto.
Qed.

(** A worker that takes its steps with no other worker in between does
    what [download_image] does: after three steps for each try and two
    more it has returned, with the result and in the world of the call
    with [retries = 0]; and from wherever it is, it has returned after
    [steps_left] steps, with the result and in the world of [finish]. *)
Theorem worker_alone_runs_download_image t n :
  (forall ph w,
     (steps_left self ph <= n)%nat ->
     thread_steps self n t ph w =
       (Finished (fst (finish self t ph w)), snd (finish self t ph w))) /\
  (forall w,
     (3 * (1 + Z.to_nat (max_retries self)) + 2 <= n)%nat ->
     thread_steps self n t Queued w =
       (Finished (fst (download_image self (task_url t) (task_local_path t) 0 w)),
        snd (download_image self (task_url t) (task_local_path t) 0 w))).
Proof.
  assert (Hgen : forall ph w,
            (steps_left self ph <= n)%nat ->
            thread_steps self n t ph w =
              (Finished (fst (finish self t ph w)), snd (finish self t ph w))).
  { induction n as [|n IH]; intros ph w Hn.
    - destruct ph; simpl in Hn; try lia. reflexivity.
    - cbn [thread_steps]. rewrite (finish_step self t ph w).
      destruct (thread_step self t ph w) as [ph' w'] eqn:Es.
      apply IH.
      pose proof (thread_step_progress _ _ _ _ _ Es) as [Hlt|[success ->]]; [lia|].
      simpl in Es. injection Es as <- <-. simpl. lia. }
  split; [exact Hgen|]. intros w Hn. exact (Hgen Queued w Hn).
Qed.

Lemma submit_all_stops images_folder image_urls :
  forallb urlparse_ok (map fst image_urls) = false ->
  exists before url original_text after,
    image_urls = before ++ (url, original_text) :: after /\
    forallb urlparse_ok (map fst before) = true /\
    urlparse_ok url = false /\
    map task_url (fst (submit_all images_folder image_urls)) = map fst before /\
    snd (submit_all images_folder image_urls) = false.
Proof.
  induction image_urls as [|[url text] rest IH]; intros Hbad; [discriminate|].
  cbn [map forallb fst] in Hbad. cbn [submit_all].
  destruct (urlparse_ok url) eqn:Eurl.
  - destruct (IH Hbad) as (before & u & x & after & -> & Hok & Hu & Hmap & Hsnd).
    exists ((url, text) :: before), u, x, after. split; [reflexivity|].
    split; [cbn [map forallb fst]; rewrite Eurl; exact Hok|]. split; [exact Hu|].
    destruct (submit_all images_folder (before ++ (u, x) :: after)) as [submitted complete].
    cbn [fst snd map task_url] in *. rewrite Hmap. auto.
  - exists [], url, text, rest. auto.
Qed.

(** When [urlparse] raises on one of the urls, the document is given up:
    the calls for the references before that url are submitted and run,
    those for the later references are not, the map that comes back is
    empty, and the document is not written. *)
Theorem unparsable_url_abandons_the_document md_file content images_folder image_urls w :
  0 < max_workers self ->
  forallb urlparse_ok (map fst image_urls) = false ->
  exists before url original_text after,
    image_urls = before ++ (url, original_text) :: after /\
    forallb urlparse_ok (map fst before) = true /\
    urlparse_ok url = false /\
    map task_url (fst (submit_all images_folder image_urls)) = map fst before /\
    download_and_update self md_file content images_folder image_urls w =
      ([], snd (run_pool self (fst (submit_all images_folder image_urls)) w)) /\
    (forall data,
       files w !! md_file = Some data ->
       files (snd (download_and_update self md_file content images_folder image_urls w))
         !! md_file = Some data).
Proof.
  intros Hworkers Hbad.
  destruct (submit_all_stops images_folder image_urls Hbad)
    as (before & url & text & after & Heq & Hok & Hurl & Hmap & Hsnd).
  exists before, url, text, after.
  split; [exact Heq|]. split; [exact Hok|]. split; [exact Hurl|]. split; [exact Hmap|].
  assert (Hrun : download_and_update self md_file content images_folder image_urls w =
            ([], snd (run_pool self (fst (submit_all images_folder image_urls)) w))).
  { unfold download_and_update.
    destruct (Z.leb_spec (max_workers self) 0) as [Hle|_]; [lia|].
    destruct (submit_all images_folder image_urls) as [future_to_url complete].
    cbn [fst snd] in Hsnd |- *. subst complete.
    destruct (run_pool self future_to_url w) as [results w2]. reflexivity. }
  split; [exact Hrun|].
  intros data Hdata. rewrite Hrun. cbn [snd].
  destruct (run_pool_keeps self (fst (submit_all images_folder image_urls)) w) as (Hf & _).
  apply Hf, Hdata.
Qed.



(** When [process_markdown_file] returns replacements, the document on
    disk holds what a write in text mode makes of the text that was read,
    rewritten with exactly these replacements: the bytes of the file are
    those of the rewritten text, not those of the old file with the
    references replaced. *)
Theorem reported_replacements_are_written md_file w content :
  read_file w md_file = Some content ->
  fst (process_markdown_file self md_file w) <> [] ->
  exists data,
    encode_text (rewrite content (fst (process_markdown_file self md_file w))) =
      Some data /\
    files (snd (process_markdown_file self md_file w)) !! md_file = Some data.
Proof.
  intros Hread. unfold process_markdown_file. rewrite Hread.
  destruct (extract_image_urls content) as [|ref refs];
    [intros Hne; contradiction Hne; reflexivity|].
  destruct (mkdir _ w) as [w1|]; [|intros Hne; contradiction Hne; reflexivity].
  unfold download_and_update.
  destruct (max_workers self <=? 0); [intros Hne; contradiction Hne; reflexivity|].
  destruct (submit_all _ (ref :: refs)) as [future_to_url complete].
  destruct (run_pool self future_to_url w1) as [results w2].
  destruct complete; [|intros Hne; contradiction Hne; reflexivity].
  unfold update_document.
  destruct (collect _ results) as [|entry entries];
    [intros Hne; contradiction Hne; reflexivity|].
  destruct (encode_text _) as [data|] eqn:Eenc;
    [|intros Hne; contradiction Hne; reflexivity].
  destruct (write_file md_file data w2) as [b w3] eqn:Ew.
  destruct b; [|intros Hne; contradiction Hne; reflexivity]. intros _. cbn [fst snd].
  exists data. split; [exact Eenc|].
  apply write_file_cases in Ew as [[Hb _]|(_ & _ & n & -> & Hn)]; [discriminate|].
  rewrite (Hn eq_refl). unfold put_file. cbn [files]. apply lookup_insert_eq.
Qed.

(** [process_markdown_file] gives up with an empty map and no effect at
    all, not even a request, when the document cannot be read, and when a
    document with references has a regular file named images beside it or
    no folder around it. *)
Theorem process_markdown_file_gives_up md_file w :
  let images_folder := path_join (parent md_file) (L "images") in
  read_file w md_file = None \/
  (is_dir w images_folder = false /\
   (is_file w images_folder = true \/ is_dir w (parent md_file) = false)) ->
  process_markdown_file self md_file w = ([], w).
Proof.
  intros images_folder Hcases. subst images_folder. unfold process_markdown_file.
  destruct Hcases as [->|(Hd & Hblocked)]; [reflexivity|].
  destruct (read_file w md_file) as [content|]; [|reflexivity].
  destruct (extract_image_urls content) as [|ref refs]; [reflexivity|].
  unfold mkdir. rewrite Hd, parent_path_join.
  destruct Hblocked as [-> | ->]; [reflexivity|].
  destruct (is_file w _); reflexivity.
Qed.

(** [run] processes every document of the list, and leaves every file that
    is not one of the documents with the content it had. *)
Theorem run_keeps_the_other_files md_files w q data :
  ~ In q md_files ->
  files w !! q = Some data ->
  fst (fst (run self md_files w)) = length md_files /\
  files (snd (run self md_files w)) !! q = Some data.
Proof.
  intros Hnot Hq.
  assert (Hloop : forall files_left processed total w0,
    ~ In q files_left -> files w0 !! q = Some data ->
    fst (fst (process_files self files_left processed total w0)) =
      (processed + length files_left)%nat /\
    files (snd (process_files self files_left processed total w0)) !! q = Some data).
  { induction files_left as [|md rest IH]; intros processed total w0 Hn Hw0; simpl.
    - split; [lia|exact Hw0].
    - pose proof (process_markdown_file_world self md w0)
        as (wt & (Hf & _) & Hend).
      destruct (process_markdown_file self md w0) as [replacements w1]. simpl in Hend.
      assert (Hw1 : files w1 !! q = Some data).
      { destruct Hend as [->|[d ->]]; [apply Hf, Hw0|].
        simpl. rewrite lookup_insert_ne by (intros ->; apply Hn; left; reflexivity).
        apply Hf, Hw0. }
      destruct (IH (processed + 1)%nat (total + length replacements)%nat w1) as [Hc Hfile];
        [intros Hin; apply Hn; right; exact Hin|exact Hw1|].
      split; [rewrite Hc; lia|exact Hfile]. }
  unfold run. destruct md_files as [|md rest]; [auto|].
  apply (Hloop (md :: rest) 0%nat 0%nat w Hnot Hq).
Qed.

End MoreCoordinatorFacts.

Import Sample.

Lemma download_image_retry_bounded_witness :
  0 <= max_retries Sample.me /\
  exists n added,
    Z.of_nat n <= max_retries Sample.me /\
    trace (snd (download_image (H0 := Sample.unreachable) Sample.me
                  Sample.a_png Sample.a_png_path 0 (Sample.folder_with []))) =
      trace (Sample.folder_with []) ++ added /\
    backoffs added = map (fun k => 1000 * 2 ^ Z.of_nat k) (seq 0 n) /\
    (length (gets added) <= n + 1)%nat /\
    (fst (download_image (H0 := Sample.unreachable) Sample.me
            Sample.a_png Sample.a_png_path 0 (Sample.folder_with [])) = false ->
     Z.of_nat n = max_retries Sample.me).
Proof.
  assert (Hmax : 0 <= max_retries Sample.me) by (simpl; lia).
  split; [exact Hmax|].
  exact (proj2 (download_image_retry_bounded (H0 := Sample.unreachable) Sample.me
                  Sample.a_png Sample.a_png_path (Sample.folder_with []) Hmax)).
Defined.

Lemma small_payload_is_a_failure_witness :
  let w := Sample.folder_with [] in
  let w1 := emit (Get Sample.a_png) (emit (Sleep 500) w) in
  download_try (H0 := Sample.tiny_server) Sample.a_png Sample.a_png_path w = (None, w1) /\
  files w1 = files w /\ dirs w1 = dirs w /\
  download_image (H0 := Sample.tiny_server) Sample.me Sample.a_png Sample.a_png_path 0 w =
    download_image (H0 := Sample.tiny_server) Sample.me Sample.a_png Sample.a_png_path 1
      (emit (Sleep 1000) w1).
Proof.
  intros w w1.
  refine (small_payload_is_a_failure (H0 := Sample.tiny_server) Sample.me
            Sample.a_png Sample.a_png_path 0 w
            {| status_code := 200; content := repeat Byte.x41 50;
               content_type_header := Some (L "image/png") |} _ _ _).
  - reflexivity.
  - reflexivity.
  - simpl. lia.
Defined.

Lemma svg_is_not_recompressed_witness :
  let w := Sample.folder_with [] in
  let w' := snd (download_try (H0 := Sample.svg_server) Sample.a_png Sample.a_png_path w) in
  path_exists w Sample.a_png_path = false /\
  download_try (H0 := Sample.svg_server) Sample.a_png Sample.a_png_path w = (Some true, w') /\
  files w' !! Sample.a_png_path = Some (repeat Byte.x3c 200).
Proof.
  intros w w'.
  assert (Hex : path_exists w Sample.a_png_path = false) by (vm_compute; reflexivity).
  assert (Ht : download_try (H0 := Sample.svg_server) Sample.a_png Sample.a_png_path w
               = (Some true, w')) by (vm_compute; reflexivity).
  split; [exact Hex|]. split; [exact Ht|].
  destruct (svg_is_not_recompressed (H0 := Sample.svg_server)
              Sample.a_png Sample.a_png_path w w' Hex Ht) as (response & Hget & Hfile).
  eapply eq_trans; [exact Hfile|]. injection Hget as <-. reflexivity.
Defined.



(** A PNG of more than 500 kilobytes comes back as one of its encodings
    as JPEG, and [download_image] stores that encoding in a file whose
    name ends in .png. *)
Lemma compress_image_returns_jpeg_witness :
  500 * 1024 < Z.of_nat (length large_payload) /\
  (exists q, In q (quality_levels ++ [20]) /\
     sample_save_jpeg large_image q = Some (compress_image large_payload 500)) /\
  let save_path := path_join images (generate_filename a_png None) in
  let w' := snd (download_try (H0 := large_png_server) a_png save_path (folder_with [])) in
  path_name save_path = L "a_343a343a343a.png" /\
  files w' !! save_path = Some (compress_image large_payload 500) /\
  compress_image large_payload 500 <> large_payload.
Proof.
  assert (Hlarge : 500 * 1024 < Z.of_nat (length large_payload))
    by (vm_compute; reflexivity).
  assert (Hsave : forall q, In q (quality_levels ++ [20]) ->
            save_jpeg large_image q <> None).
  { intros q Hin. simpl in Hin.
    repeat (destruct Hin as [<-|Hin]; [vm_compute; discriminate|]). destruct Hin. }
  destruct (compress_image_returns_jpeg (H := lib) (H0 := large_png_server)
              large_payload 500 large_image Hlarge eq_refl) as (_ & Hflat & Hstored).
  destruct (Hflat large_image eq_refl) as (Hjpeg & _ & _).
  split; [exact Hlarge|]. split; [exact (Hjpeg Hsave)|].
  intros save_path w'.
  assert (Hdot : chr_in "." (basename (url_path a_png)) = true)
    by (vm_compute; reflexivity).
  assert (Hsplit : splitext (basename (url_path a_png)) = (L "a", L ".png"))
    by (vm_compute; reflexivity).
  assert (Hext : is_image_ext (lower (L ".png")) = true) by (vm_compute; reflexivity).
  assert (Hex : path_exists (folder_with []) save_path = false)
    by (vm_compute; reflexivity).
  assert (Ht : download_try (H0 := large_png_server) a_png save_path (folder_with []) =
               (Some true, w')) by (vm_compute; reflexivity).
  destruct (Hstored a_png images (folder_with []) w' (L "a") (L ".png")
              {| status_code := 200; content := large_payload;
                 content_type_header := Some (L "image/png") |}
              eq_refl Hdot Hsplit Hext Hex eq_refl eq_refl eq_refl Ht)
    as [Hname Hfile].
  split; [exact Hname|]. split; [exact Hfile|].
  intros Heq. apply (f_equal (hd Byte.x00)) in Heq. vm_compute in Heq. discriminate.
Defined.

(** C10, as stated, fails: the sample picture with a palette is over the
    budget and decodes, no JPEG encoding of it exists, and what comes back
    is the payload itself. *)
Lemma compress_image_keeps_what_it_cannot_encode :
  exists img,
    Image_open palette_payload = Some img /\
    1 * 1024 < Z.of_nat (length palette_payload) /\
    compress_image palette_payload 1 = palette_payload /\
    forall q, save_jpeg img q <> Some (compress_image palette_payload 1).
Proof.
  exists {| mode := Palette; detail := 16; pixels := repeat Byte.x00 2000 |}.
  repeat split; try (vm_compute; reflexivity).
  intros q. discriminate.
Qed.

Lemma generate_filename_deterministic_safe_bounded_witness :
  generate_filename a_png None = L "a_343a343a343a.png" /\
  generate_filename (L "http://x/a.png") None = generate_filename a_png None.
Proof.
  split; [vm_compute; reflexivity|].
  apply (proj1 (generate_filename_deterministic_safe_bounded a_png None));
    reflexivity.
Defined.

(** With the image of the reference in place, a fetch for it changes
    nothing, and processing the document leaves the image as it is. *)
Lemma existing_file_is_never_overwritten_witness :
  path_exists stocked_folder a_png_local = true /\
  download_image (H0 := svg_server) me a_png a_png_local 0 stocked_folder =
    (true, stocked_folder) /\
  md <> a_png_local /\
  files (snd (process_markdown_file (H0 := svg_server) me md stocked_folder))
    !! a_png_local = Some (repeat Byte.x41 120).
Proof.
  assert (Hex : path_exists stocked_folder a_png_local = true) by (vm_compute; reflexivity).
  assert (Hne : a_png_local <> md) by discriminate.
  destruct (existing_file_is_never_overwritten (H0 := svg_server) me) as (H1 & _ & H3).
  split; [exact Hex|]. split; [apply H1; exact Hex|]. split; [congruence|].
  apply (H3 md stocked_folder a_png_local (repeat Byte.x41 120) Hne).
  vm_compute. reflexivity.
Defined.

(** C4 fails in the code: [download_image] tests for the file and writes
    it later with nothing held in between (the lock made in [__init__] is
    never taken), so when a document has the same reference twice and the
    two workers take their steps in turn, both find no file and both make
    their request; the first writes the file, and the second opens the
    file that is there and writes it again, here with other bytes. *)
Theorem concurrent_fetches_write_the_file_twice :
  let w0 := folder_with two_references in
  exists w1 future_to_url,
    mkdir images w0 = Some w1 /\
    submit_all images (extract_image_urls two_references) = (future_to_url, true) /\
    map task_local_path future_to_url = [a_png_local; a_png_local] /\
    let before :=
      run_schedule (H0 := racing) me [0; 1; 0; 1; 0; 1; 0]%nat (queued future_to_url) w1 in
    let after := pool_step (H0 := racing) me 1 (fst before) (snd before) in
    map snd (fst before) =
      [Finished true; Storing 0 (repeat Byte.x42 120)] /\
    files (snd before) !! a_png_local = Some (repeat Byte.x41 120) /\
    files (snd after) !! a_png_local = Some (repeat Byte.x42 120) /\
    trace (snd after) = trace (snd before) ++ [Open a_png_local] /\
    let result := process_markdown_file (H0 := racing) me md w0 in
    gets (trace (snd result)) = [a_png; a_png] /\
    opens (trace (snd result)) = [a_png_local; a_png_local; md] /\
    files (snd result) !! a_png_local = Some (repeat Byte.x42 120).
Proof.
  eexists _, _. split; [vm_compute; reflexivity|].
  split; [vm_compute; reflexivity|].
  vm_compute. repeat split; reflexivity.
Qed.

(** C5, as stated, fails: a document with the same reference twice has the
    url submitted twice, and with the network down each of the two calls
    makes its four requests. *)
Lemma same_url_is_fetched_twice :
  let future_to_url := fst (submit_all images (extract_image_urls two_references)) in
  map task_url future_to_url = [a_png; a_png] /\
  ~ NoDup (map task_url future_to_url) /\
  gets (trace (snd (process_markdown_file (H0 := unreachable) me md
                      (folder_with two_references)))) = repeat a_png 8.
Proof.
  assert (Hurls : map task_url
                    (fst (submit_all images (extract_image_urls two_references)))
                  = [a_png; a_png]) by (vm_compute; reflexivity).
  cbv zeta. split; [exact Hurls|]. split.
  - rewrite Hurls. intros Hnd. apply NoDup_cons in Hnd as [Hnot _].
    apply Hnot. left.
  - vm_compute. reflexivity.
Qed.

(** The document with the same reference twice, with the network down:
    the url is submitted twice and requested eight times. *)
Lemma one_fetch_per_reference_witness :
  forallb urlparse_ok (map fst (extract_image_urls two_references)) = true /\
  0 < max_workers me /\
  exists future_to_url added,
    submit_all images (extract_image_urls two_references) = (future_to_url, true) /\
    map task_url future_to_url = [a_png; a_png] /\
    trace (snd (run_pool (H0 := unreachable) me future_to_url
                  (folder_with two_references))) =
      trace (folder_with two_references) ++ added /\
    requests_to a_png added = 8%nat.
Proof.
  assert (Hok : forallb urlparse_ok (map fst (extract_image_urls two_references)) = true)
    by (vm_compute; reflexivity).
  assert (Hworkers : 0 < max_workers me) by (simpl; lia).
  split; [exact Hok|]. split; [exact Hworkers|].
  destruct (one_fetch_per_reference (H0 := unreachable) me md two_references
              Hok Hworkers) as (future_to_url & Hsub & Hurls & _ & Hpool).
  destruct (Hpool (folder_with two_references))
    as (_ & _ & (added & Ht & Hreq) & _).
  destruct (Hreq a_png) as (_ & _ & Hall).
  exists future_to_url, added. split; [exact Hsub|].
  split; [rewrite Hurls; vm_compute; reflexivity|]. split; [exact Ht|].
  rewrite Hall.
  - vm_compute in Hsub. injection Hsub as <-. vm_compute. reflexivity.
  - vm_compute in Hsub. injection Hsub as <-. vm_compute.
    repeat constructor.
Defined.

(** With the network down, the folder is made before the first request,
    and it is there at the end; the empty document leaves the world as it
    is. *)
Lemma images_folder_made_when_references_found_witness :
  let w := folder_with one_reference in
  read_file w md = Some one_reference /\
  (exists w1, mkdir images w = Some w1 /\ is_dir w1 images = true /\ trace w1 = []) /\
  is_dir (snd (process_markdown_file (H0 := unreachable) me md w)) images = true /\
  process_markdown_file (H0 := unreachable) me md (folder_with []) =
    ([], folder_with []).
Proof.
  intros w.
  assert (Hread : read_file w md = Some one_reference) by (vm_compute; reflexivity).
  split; [exact Hread|].
  pose proof (images_folder_made_when_references_found (H0 := unreachable) me md w)
    as [_ Hsome].
  destruct (Hsome one_reference Hread) as (_ & Hmade & _).
  destruct Hmade as (w1 & Hm & Hd & _ & Ht & _ & _ & Hend);
    [vm_compute; discriminate|vm_compute; reflexivity|vm_compute; reflexivity|].
  split; [exists w1; auto|]. split; [exact Hend|].
  pose proof (images_folder_made_when_references_found (H0 := unreachable) me md
                (folder_with [])) as [_ Hempty].
  destruct (Hempty [] eq_refl) as (Hnone & _). exact (Hnone eq_refl).
Defined.

(** C6, as stated, fails: with the network down no reference of the
    document is downloaded, no file is written and the text stays as it
    is, and the folder is there all the same. *)
Lemma images_folder_made_without_a_download :
  let w := folder_with one_reference in
  let result := process_markdown_file (H0 := unreachable) me md w in
  fst result = [] /\
  files (snd result) = files w /\
  is_dir w images = false /\
  is_dir (snd result) images = true.
Proof. cbv zeta. repeat split; reflexivity. Qed.

(** The round trip of the tag form. *)
Lemma rewritten_reference_keeps_plain_attributes_witness :
  forallb plain_attribute cat_attrs = true /\
  plain_tail [] = true /\
  NoDup (map attr_name cat_attrs) /\
  new_text_for (tag_text cat_attrs []) local_a =
    Some (L "<img src=" ++ [dquote] ++ local_a ++ [dquote] ++
          L " alt=" ++ [dquote] ++ L "cat" ++ [dquote] ++
          L " title=" ++ [dquote] ++ L "t" ++ [dquote] ++ L ">") /\
  new_text_for (L "![cat](http://x/a.png)") local_a =
    Some (L "![cat](images/a_343a343a343a.png)").
Proof.
  assert (Hplain : forallb plain_attribute cat_attrs = true) by (vm_compute; reflexivity).
  assert (Hnd : NoDup (map attr_name cat_attrs)).
  { repeat (apply NoDup_cons_2;
            [rewrite list_elem_of_In; simpl; intuition discriminate|]).
    apply NoDup_nil_2. }
  destruct rewritten_reference_keeps_plain_attributes as [Htag Hbracket].
  split; [exact Hplain|]. split; [reflexivity|]. split; [exact Hnd|]. split.
  - exact (Htag cat_attrs [] local_a Hplain eq_refl Hnd).
  - apply (Hbracket (L "cat") (L "http://x/a.png") local_a);
      [reflexivity|discriminate|reflexivity].
Defined.

(** C1 fails in the code: the comment of the loop says that the other
    attributes of the tag are taken over, and the bracket form keeps an
    empty alt text, but an attribute of a tag with an empty value is not
    in the new tag, and an attribute with a hyphen in its name comes back
    under what follows the hyphen. *)
Lemma rewritten_tag_loses_attributes :
  new_text_for (tag_text empty_alt_attrs []) local_a <>
    Some (spec_tag_form empty_alt_attrs local_a) /\
  new_text_for (tag_text empty_alt_attrs []) local_a =
    Some (L "<img src=" ++ [dquote] ++ local_a ++ [dquote] ++ L ">") /\
  new_text_for (tag_text data_id_attrs []) local_a <>
    Some (spec_tag_form data_id_attrs local_a) /\
  new_text_for (tag_text data_id_attrs []) local_a =
    Some (L "<img src=" ++ [dquote] ++ local_a ++ [dquote] ++
          L " id=" ++ [dquote] ++ L "5" ++ [dquote] ++ L ">").
Proof.
  repeat split; vm_compute; try reflexivity; discriminate.
Qed.

(** The whole pipeline on a document with both forms: both images are
    stored under [images], and both references point there afterwards. *)
Example both_forms_are_rewritten :
  let result := process_markdown_file (H0 := png_server) me md (folder_with both_forms) in
  read_file (snd result) md =
    Some (L "Hi ![cat](images/a_343a343a343a.png) and <img src=" ++ [dquote] ++
          L "images/b_4bbb4bbb4bbb.png" ++ [dquote] ++ L " alt=" ++ [dquote] ++
          L "cat" ++ [dquote] ++ L " title=" ++ [dquote] ++ L "t" ++ [dquote] ++ L ">") /\
  is_file (snd result) [L "docs"; L "images"; L "a_343a343a343a.png"] = true /\
  is_file (snd result) [L "docs"; L "images"; L "b_4bbb4bbb4bbb.png"] = true /\
  gets (trace (snd result)) = [L "http://x/a.png"; L "http://x/b.png"].
Proof. vm_compute. repeat split; reflexivity. Qed.

(** ** The further properties on the samples *)

Lemma extracted_urls_are_remote_witness :
  In (a_png, one_reference) (extract_image_urls one_reference) /\
  (startswith (L "http://") a_png = true \/ startswith (L "https://") a_png = true).
Proof.
  assert (Hin : In (a_png, one_reference) (extract_image_urls one_reference))
    by (vm_compute; left; reflexivity).
  split; [exact Hin|].
  exact (extracted_urls_are_remote one_reference a_png one_reference Hin).
Defined.

Lemma extracted_text_occurs_in_document_witness :
  In (b_png, cat_tag) (extract_image_urls both_forms) /\
  exists before after, both_forms = before ++ cat_tag ++ after.
Proof.
  assert (Hin : In (b_png, cat_tag) (extract_image_urls both_forms))
    by (vm_compute; right; left; reflexivity).
  split; [exact Hin|].
  exact (extracted_text_occurs_in_document both_forms b_png cat_tag Hin).
Defined.

Lemma extracted_reference_shape_witness :
  In (b_png, cat_tag) (extract_image_urls both_forms) /\
  exists inside q1 q2 more,
    cat_tag = L "<img" ++ inside ++ L "src=" ++ q1 :: b_png ++ q2 :: more ++ L ">" /\
    forallb (none_of ">") (removelast cat_tag) = true.
Proof.
  assert (Hin : In (b_png, cat_tag) (extract_image_urls both_forms))
    by (vm_compute; right; left; reflexivity).
  split; [exact Hin|].
  destruct (extracted_reference_shape both_forms b_png cat_tag Hin)
    as [(alt & Habs & _)|(inside & q1 & q2 & more & Heq & _)]; [discriminate Habs|].
  exists inside, q1, q2, more. split; [exact Heq|reflexivity].
Defined.

Lemma extracted_reference_is_rewritten_witness :
  In (a_png, one_reference) (extract_image_urls both_forms) /\
  new_text_for one_reference local_a <> None.
Proof.
  assert (Hin : In (a_png, one_reference) (extract_image_urls both_forms))
    by (vm_compute; left; reflexivity).
  split; [exact Hin|].
  destruct (extracted_reference_is_rewritten both_forms a_png one_reference local_a Hin)
    as [(alt & _ & ->)|(others & _ & ->)]; discriminate.
Defined.

Lemma sanitize_filename_replaces_illegal_chars_witness :
  (length (L "a:b?c") <= 100)%nat /\
  sanitize_filename (L "a:b?c") = L "a_b_c" /\
  filesystem_safe (L "photo") = true /\
  sanitize_filename (L "photo") = L "photo".
Proof.
  assert (Hlen : (length (L "a:b?c") <= 100)%nat) by (simpl; lia).
  assert (Hlen' : (length (L "photo") <= 100)%nat) by (simpl; lia).
  destruct (sanitize_filename_replaces_illegal_chars (L "a:b?c")) as (_ & Hshort & _).
  destruct (sanitize_filename_replaces_illegal_chars (L "photo")) as (_ & _ & Hsame).
  split; [exact Hlen|]. split; [rewrite (Hshort Hlen); reflexivity|].
  split; [reflexivity|]. apply (Hsame Hlen'). reflexivity.
Defined.

Lemma get_image_extension_cases_witness :
  is_image_ext (lower (snd (splitext (url_path a_png)))) = true /\
  get_image_extension a_png (Some (L "image/gif")) = L ".png" /\
  is_image_ext (lower (snd (splitext (url_path (L "http://x/photo"))))) = false /\
  get_image_extension (L "http://x/photo") None = L ".jpg" /\
  get_image_extension (L "http://x/photo") (Some (L "jpg,png")) = L ".jpg" /\
  get_image_extension (L "http://x/photo") (Some (L "image/png")) = L ".png".
Proof.
  destruct (get_image_extension_cases a_png (Some (L "image/gif"))) as (_ & Hurl & _).
  destruct (get_image_extension_cases (L "http://x/photo") None)
    as (_ & _ & _ & Hnone & _).
  destruct (get_image_extension_cases (L "http://x/photo") (Some (L "jpg,png")))
    as (_ & _ & _ & _ & Hjpg).
  destruct (get_image_extension_cases (L "http://x/photo") (Some (L "image/png")))
    as (_ & _ & _ & _ & Hpng).
  split; [reflexivity|]. split; [rewrite (Hurl eq_refl); reflexivity|].
  split; [reflexivity|]. split; [apply Hnone; [reflexivity|left; reflexivity]|].
  split.
  - rewrite (Hjpg eq_refl _ eq_refl). reflexivity.
  - rewrite (Hpng eq_refl _ eq_refl). reflexivity.
Defined.

Lemma compress_image_cases_witness :
  Z.of_nat (length [Byte.x01; Byte.x10; Byte.x00]) <= 1 * 1024 /\
  compress_image [Byte.x01; Byte.x10; Byte.x00] 1 = [Byte.x01; Byte.x10; Byte.x00] /\
  Image_open [Byte.x00] = None /\
  compress_image [Byte.x00] 0 = [Byte.x00].
Proof.
  assert (Hfit : Z.of_nat (length [Byte.x01; Byte.x10; Byte.x00]) <= 1 * 1024)
    by (simpl; lia).
  destruct (compress_image_cases (H := lib) [Byte.x01; Byte.x10; Byte.x00] 1)
    as (_ & Hsmall & _).
  destruct (compress_image_cases (H := lib) [Byte.x00] 0) as (_ & _ & Hbad).
  split; [exact Hfit|]. split; [exact (Hsmall Hfit)|].
  split; [reflexivity|]. exact (Hbad eq_refl).
Defined.

Lemma downloaded_file_exists_witness :
  fst (download_image (H0 := png_server) me a_png a_png_path 0 (folder_with [])) = true /\
  path_exists (snd (download_image (H0 := png_server) me a_png a_png_path 0
                      (folder_with []))) a_png_path = true.
Proof.
  assert (Htrue : fst (download_image (H0 := png_server) me a_png a_png_path 0
                         (folder_with [])) = true) by (vm_compute; reflexivity).
  split; [exact Htrue|].
  destruct (downloaded_file_exists (H0 := png_server) me a_png a_png_path 0
              (folder_with []) Htrue) as (added & _ & Hex & _).
  exact Hex.
Defined.

Lemma leftover_file_ends_the_retries_witness :
  let w := folder_with [] in
  let w1 := snd (download_try (H0 := full_disk) a_png a_png_path w) in
  download_try (H0 := full_disk) a_png a_png_path w = (None, w1) /\
  is_file w1 a_png_path = true /\
  0 < max_retries me /\
  download_image (H0 := full_disk) me a_png a_png_path 0 w =
    (true, emit (Sleep 1000) w1) /\
  files w1 !! a_png_path = Some (repeat Byte.x41 10).
Proof.
  intros w w1.
  assert (Ht : download_try (H0 := full_disk) a_png a_png_path w = (None, w1))
    by (vm_compute; reflexivity).
  assert (Hf : is_file w1 a_png_path = true) by (vm_compute; reflexivity).
  assert (Hlt : Z.of_nat 0 < max_retries me) by (simpl; lia).
  destruct (leftover_file_ends_the_retries (H0 := full_disk) me a_png a_png_path 0 w w1
              Ht Hf Hlt) as [Hd _].
  split; [exact Ht|]. split; [exact Hf|]. split; [exact Hlt|]. split; [exact Hd|].
  vm_compute. reflexivity.
Defined.

Lemma replacement_puts_the_new_text_witness :
  In (a_png, one_reference) (extract_image_urls both_forms) /\
  exists before after,
    apply_replacement both_forms (one_reference, local_a) =
      before ++ L "![cat](images/a_343a343a343a.png)" ++ after.
Proof.
  assert (Hin : In (a_png, one_reference) (extract_image_urls both_forms))
    by (vm_compute; left; reflexivity).
  split; [exact Hin|].
  destruct (replacement_puts_the_new_text both_forms a_png one_reference local_a Hin)
    as (new_text & before & after & Hnew & Hrep).
  exists before, after. rewrite Hrep.
  vm_compute in Hnew. injection Hnew as <-. reflexivity.
Defined.


(** A document whose lines end in CR LF: what is written is the text as
    it was read, with its line ends turned into newlines, and rewritten. *)
Lemma reported_replacements_are_written_witness :
  let result := process_markdown_file (H0 := png_server) me md crlf_folder in
  read_file crlf_folder md =
    Some (L "![cat](http://x/a.png)" ++ [ascii_of_nat 10] ++ L "end" ++ [ascii_of_nat 10]) /\
  fst result <> [] /\
  files (snd result) !! md =
    Some (map byte_of_ascii
            (L "![cat](images/a_343a343a343a.png)" ++ [ascii_of_nat 10] ++ L "end" ++
             [ascii_of_nat 10])).
Proof.
  intros result.
  assert (Hread : read_file crlf_folder md =
            Some (L "![cat](http://x/a.png)" ++ [ascii_of_nat 10] ++ L "end" ++
                  [ascii_of_nat 10])) by (vm_compute; reflexivity).
  assert (Hne : fst result <> []) by (vm_compute; discriminate).
  split; [exact Hread|]. split; [exact Hne|].
  destruct (reported_replacements_are_written (H0 := png_server) me md
              crlf_folder _ Hread Hne) as (data & Henc & Hfile).
  eapply eq_trans; [exact Hfile|]. rewrite <- Henc. vm_compute. reflexivity.
Defined.

Lemma process_markdown_file_gives_up_witness :
  read_file (folder_with one_reference) [L "docs"; L "missing.md"] = None /\
  process_markdown_file (H0 := png_server) me [L "docs"; L "missing.md"]
    (folder_with one_reference) = ([], folder_with one_reference).
Proof.
  assert (Hread : read_file (folder_with one_reference) [L "docs"; L "missing.md"] = None)
    by (vm_compute; reflexivity).
  split; [exact Hread|].
  apply (process_markdown_file_gives_up (H0 := png_server) me). left. exact Hread.
Defined.

Lemma run_keeps_the_other_files_witness :
  ~ In a_png_local [md] /\
  files stocked_folder !! a_png_local = Some (repeat Byte.x41 120) /\
  fst (fst (run (H0 := png_server) me [md] stocked_folder)) = 1%nat /\
  files (snd (run (H0 := png_server) me [md] stocked_folder)) !! a_png_local =
    Some (repeat Byte.x41 120).
Proof.
  assert (Hnot : ~ In a_png_local [md]) by (intros [Heq|[]]; discriminate Heq).
  assert (Hq : files stocked_folder !! a_png_local = Some (repeat Byte.x41 120))
    by (vm_compute; reflexivity).
  split; [exact Hnot|]. split; [exact Hq|].
  exact (run_keeps_the_other_files (H0 := png_server) me [md] stocked_folder
           a_png_local (repeat Byte.x41 120) Hnot Hq).
Defined.

(** With the network down a worker alone has returned after fourteen
    steps, as [download_image] does, after four requests. *)
Lemma worker_alone_runs_download_image_witness :
  let t := {| task_url := a_png; task_original_text := one_reference;
              task_local_path := a_png_local |} in
  (3 * (1 + Z.to_nat (max_retries me)) + 2 <= 14)%nat /\
  thread_steps (H0 := unreachable) me 14 t Queued (folder_with []) =
    (Finished false,
     snd (download_image (H0 := unreachable) me a_png a_png_local 0 (folder_with []))) /\
  gets (trace (snd (thread_steps (H0 := unreachable) me 14 t Queued (folder_with [])))) =
    repeat a_png 4.
Proof.
  intros t.
  assert (Hn : (3 * (1 + Z.to_nat (max_retries me)) + 2 <= 14)%nat) by (simpl; lia).
  split; [exact Hn|].
  pose proof (proj2 (worker_alone_runs_download_image (H0 := unreachable) me t 14)
                (folder_with []) Hn) as Hsteps.
  split.
  - rewrite Hsteps. f_equal; vm_compute; reflexivity.
  - rewrite Hsteps. vm_compute. reflexivity.
Defined.

(** The second of three references has a url that [urlparse] refuses: the
    first image is downloaded, the third is not asked for, and the
    document stays as it was. *)
Lemma unparsable_url_abandons_the_document_witness :
  let w := folder_with three_references in
  let result := process_markdown_file (H0 := png_server) me md w in
  0 < max_workers me /\
  forallb urlparse_ok (map fst (extract_image_urls three_references)) = false /\
  fst result = [] /\
  gets (trace (snd result)) = [a_png] /\
  is_file (snd result) a_png_local = true /\
  files (snd result) !! md = files w !! md.
Proof.
  intros w result.
  assert (Hworkers : 0 < max_workers me) by (simpl; lia).
  assert (Hbad : forallb urlparse_ok (map fst (extract_image_urls three_references)) = false)
    by (vm_compute; reflexivity).
  split; [exact Hworkers|]. split; [exact Hbad|].
  assert (Hm : mkdir images w = Some (add_dir images w)) by (vm_compute; reflexivity).
  assert (Hmd : files (add_dir images w) !! md = Some (utf8_encode three_references))
    by apply lookup_insert_eq.
  assert (Hres : result =
            download_and_update (H0 := png_server) me md three_references images
              (extract_image_urls three_references) (add_dir images w)).
  { subst result. unfold process_markdown_file.
    replace (read_file w md) with (Some three_references) by (vm_compute; reflexivity).
    cbv iota beta.
    destruct (extract_image_urls three_references) as [|ref refs] eqn:Erefs;
      [vm_compute in Erefs; discriminate|].
    change (path_join (parent md) (L "images")) with images. rewrite Hm. reflexivity. }
  destruct (unparsable_url_abandons_the_document (H0 := png_server) me md
              three_references images (extract_image_urls three_references)
              (add_dir images w) Hworkers Hbad)
    as (before & url & text & after & _ & _ & _ & _ & Hrun & Hkept).
  split; [rewrite Hres, Hrun; reflexivity|].
  split; [vm_compute; reflexivity|]. split; [vm_compute; reflexivity|].
  rewrite Hres. eapply eq_trans; [exact (Hkept _ Hmd)|].
  symmetry. apply lookup_insert_eq.
Defined.

Lemma bracket_reference_is_extracted_witness :
  forallb (none_of "!") (L "Hi ") = true /\
  is_remote a_png = true /\
  In (a_png, one_reference) (extract_image_urls (L "Hi " ++ one_reference ++ L " and more")).
Proof.
  split; [reflexivity|]. split; [reflexivity|].
  exact (bracket_reference_is_extracted (L "Hi ") (L "cat") a_png (L " and more")
           eq_refl eq_refl eq_refl eq_refl).
Defined.
